(** * @cycle/run: setup, replication and disposal

    A shallow embedding of [src/run/src/index.ts] and the proofs of its
    specification.

    - JavaScript values are modelled as far as the code inspects them:
      [typeof], truthiness, own properties with their [enumerable] and
      [writable] attributes.  An object is the list of its own properties in
      enumeration order; objects created by the literal [{}] also answer for
      the members they inherit from [Object.prototype].  Values are compared
      by structure: an object has no identity.  Writing a property creates
      or updates an own property: the setter behind the key [__proto__] is
      not modelled, and the theorems on the collections that [setup] builds
      are stated for registries without that key ([ordinary_keys]).
    - The guard [obj.hasOwnProperty(name)] of [makeSinkProxies],
      [callDrivers] and [adaptSources] is a method call
      ([call_hasOwnProperty]): an own property named [hasOwnProperty]
      shadows the inherited method, and is called, or makes the guard throw.
      In [disposeSources] the guard is the inherited method.
    - The code runs in a state-and-exception monad.  The state holds the
      closure variables of [replicateMany] (buffers, replicators), the
      subscriptions, the global [window], and a trace that records in order
      every effect on the outside world: creation of a sink proxy, calls to
      drivers, to an own [hasOwnProperty], to [adapt], to [main], to the
      console and to the teardown of a source, subscriptions, and the
      injections [_n], [_e], [_c] into a proxy.
    - The stream primitive, the drivers, [main] and [adapt] are external to
      the file.  Drivers, [main], [adapt] and the teardown of sources are
      oracles of the environment [Env]; each of them may throw.  A sink is
      known by its identity and by the signals it hands to a listener during
      [subscribe]; everything else it emits is an input: the emissions made
      while [main] runs, and the emissions made after [run()].  A sink hands
      a listener every signal it emits, also after an error.
    - A proxy is known by the injections it receives.  What the listeners of
      a proxy do when it is handed a signal is given by [Listeners]: the
      emissions of sinks they cause before the injection returns, and
      whether they return or throw.  The module [Reacting] is the
      replication with such listeners; the definitions outside of it are
      the replication with listeners that do nothing, and the two agree for
      [silent] listeners.
    - One state holds one program: [setup], then [run()] once, then
      [dispose()].  The exported wrapper [run(main, drivers)] is
      [Exported.run]; the devtool hook that it looks up on [window] is given
      aside, as a [DevTool] record, and is consulted only when the state has
      a [window]. *)

From Stdlib Require Import ZArith.
From stdpp Require Import base strings list gmap.

Local Open Scope string_scope.
Local Open Scope list_scope.

(** ** JavaScript values *)

Record property (V : Type) : Type := Property {
  p_value : V;
  p_enumerable : bool;
  p_writable : bool
}.
Arguments Property {V} _ _ _.
Arguments p_value {V} _.
Arguments p_enumerable {V} _.
Arguments p_writable {V} _.

(** An object is the list of its own properties in enumeration order.
    Functions are opaque: [VFun f] is callable and [f] names its behaviour in
    the environment. *)
#[warnings="-register-all"]
Inductive value : Type :=
| VUndefined
| VNull
| VBool (b : bool)
| VNum (n : Z)
| VStr (s : string)
| VFun (f : nat)
| VObj (props : list (string * property value)).

Inductive jstype : Type :=
| TUndefined | TObject | TBoolean | TNumber | TString | TFunction.

#[global] Instance jstype_eq_dec : EqDecision jstype.
Proof. solve_decision. Defined.

(** [typeof v] *)
Definition typeof (v : value) : jstype :=
  match v with
  | VUndefined => TUndefined
  | VNull => TObject
  | VBool _ => TBoolean
  | VNum _ => TNumber
  | VStr _ => TString
  | VFun _ => TFunction
  | VObj _ => TObject
  end.

(** [!!v] *)
Definition truthy (v : value) : bool :=
  match v with
  | VUndefined | VNull => false
  | VBool b => b
  | VNum n => negb (n =? 0)%Z
  | VStr s => negb (String.eqb s "")
  | VFun _ | VObj _ => true
  end.

Definition own_property {A} (props : list (string * A)) (k : string) : option A :=
  snd <$> List.find (fun kv => String.eqb (fst kv) k) props.

(** [Object.prototype.hasOwnProperty.call(obj, k)] *)
Definition hasOwnProperty {A} (props : list (string * A)) (k : string) : bool :=
  bool_decide (is_Some (own_property props k)).

(** [Object.keys(obj)]: the own enumerable keys, in enumeration order. *)
Definition Object_keys (props : list (string * property value)) : list string :=
  fst <$> List.filter (fun kv => p_enumerable (snd kv)) props.

(** [obj[k] = v] on a list of own entries: an existing entry is updated in
    place, a new one is appended. *)
Fixpoint assign {A} (props : list (string * A)) (k : string) (a : A)
  : list (string * A) :=
  match props with
  | [] => [(k, a)]
  | (k', a') :: rest =>
      if String.eqb k' k then (k, a) :: rest else (k', a') :: assign rest k a
  end.

(** The members every object literal inherits from [Object.prototype]; all
    of them are truthy and none of them is a stream. *)
Definition Object_prototype : list string :=
  [ "constructor"; "hasOwnProperty"; "isPrototypeOf"; "propertyIsEnumerable";
    "toLocaleString"; "toString"; "valueOf"; "__proto__";
    "__defineGetter__"; "__defineSetter__";
    "__lookupGetter__"; "__lookupSetter__" ].

(** Result of reading [obj[k]] on an object created by [{}]. *)
Inductive lookup_result (A : Type) : Type :=
| Own (a : A)
| Inherited (member : string)
| Missing.
Arguments Own {A} _.
Arguments Inherited {A} _.
Arguments Missing {A}.

Definition js_get {A} (props : list (string * A)) (k : string) : lookup_result A :=
  match own_property props k with
  | Some a => Own a
  | None =>
      if bool_decide (k ∈ Object_prototype) then Inherited k else Missing
  end.

(** [!!obj[k]] when the own entries of [obj] are objects. *)
Definition js_get_truthy {A} (r : lookup_result A) : bool :=
  match r with
  | Own _ | Inherited _ => true
  | Missing => false
  end.

(** ** Exceptions, signals and effects *)

Inductive exn : Type :=
| Error (msg : string)        (* [throw new Error(msg)] in this file *)
| TypeError (msg : string)    (* raised by the language *)
| Thrown (v : value)          (* raised by external code *)
| OutOfFuel.                  (* no exception of the program: the bound on
                                 nested emissions is used up *)

Inductive result (A : Type) : Type :=
| Ok (a : A)
| Throw (e : exn).
Arguments Ok {A} _.
Arguments Throw {A} _.

(** What an observable delivers to an observer. *)
Inductive Signal : Type :=
| SNext (x : value)
| SError (err : value)
| SComplete.

(** A sink returned by [main]: its identity, and the signals it delivers
    synchronously to a listener during the [subscribe] call. *)
Record Sink : Type := {
  sink_id : nat;
  sink_sync : list Signal
}.

Definition Sinks : Type := list (string * Sink).
Definition SinkProxies : Type := list (string * nat).
Definition Sources : Type := list (string * value).

Inductive Effect : Type :=
| ECreateProxy (p : nat)                      (* xs.createWithMemory() *)
| ECallDriver (name : string) (f : nat) (proxy : lookup_result nat)
| ECallGuard (f : nat) (name : string)       (* obj.hasOwnProperty(name) *)
| ECallAdapt (name : string)
| ECallMain (f : nat)
| ESubscribe (sink : nat) (name : string)
| EUnsubscribe (sink : nat) (name : string)
| EProxy (p : nat) (s : Signal)               (* p._n(x), p._e(err), p._c() *)
| EConsoleError (target : value)
| EConsoleLog (target : value)
| ESourceDispose (name : string) (f : nat).

(** ** Replication state (the closure of [replicateMany]) *)

Record Buffer : Type := {
  buf_n : list value;   (* _n *)
  buf_e : list value    (* _e *)
}.

(** The five function values that are stored in a replicator. *)
Inductive Handler : Type :=
| HBufferNext (name : string)     (* x => buffers[name]._n.push(x) *)
| HBufferError (name : string)    (* err => buffers[name]._e.push(err) *)
| HNoop                           (* () => {} *)
| HForwardNext (listener : lookup_result nat)
                                  (* x => { listener._n(x); } *)
| HForwardError (listener : lookup_result nat).
                 (* err => { logToConsoleError(err); listener._e(err); } *)

Record Replicator : Type := {
  rep_next : Handler;
  rep_error : Handler;
  rep_complete : Handler;
  rep__n : option Handler;
  rep__e : option Handler;
  rep__c : option Handler
}.

Record Cyclejs : Type := {
  cj_sinks : option Sinks;
  cj_other : list (string * value)
}.

Record Window : Type := {
  w_Cyclejs : option Cyclejs
}.

Record State : Type := {
  st_trace : list Effect;
  st_next_proxy : nat;
  st_window : option Window;                 (* None: no global [window] *)
  st_buffers : option (gmap string Buffer);  (* None: [buffers = null] *)
  st_replicators : gmap string Replicator;
  st_listeners : list (nat * string)         (* active subscriptions *)
}.

Definition initial (w : option Window) : State :=
  {| st_trace := []; st_next_proxy := 0; st_window := w;
     st_buffers := None; st_replicators := ∅; st_listeners := [] |}.

(** ** The monad *)

Definition M (A : Type) : Type := State -> result A * State.

#[global] Instance M_ret : MRet M := fun A a st => (Ok a, st).
#[global] Instance M_bind : MBind M := fun A B k m st =>
  match m st with
  | (Ok a, st') => k a st'
  | (Throw e, st') => (Throw e, st')
  end.

Definition throw {A} (e : exn) : M A := fun st => (Throw e, st).

Definition append_trace (tr : list Effect) (st : State) : State :=
  {| st_trace := st_trace st ++ tr; st_next_proxy := st_next_proxy st;
     st_window := st_window st; st_buffers := st_buffers st;
     st_replicators := st_replicators st; st_listeners := st_listeners st |}.

Definition effect (e : Effect) : M unit := fun st =>
  (Ok tt, append_trace [e] st).

(** [array.forEach(f)] *)
Fixpoint forEach {A} (l : list A) (f : A -> M unit) : M unit :=
  match l with
  | [] => mret tt
  | x :: l' => f x;; forEach l' f
  end.

(** [array.map(f)] *)
Fixpoint mapM {A B} (l : list A) (f : A -> M B) : M (list B) :=
  match l with
  | [] => mret []
  | x :: l' => y ← f x; ys ← mapM l' f; mret (y :: ys)
  end.

(** ** The environment *)

Record Console : Type := {
  console_error : bool;   (* console.error is defined *)
  console_log : bool      (* console.log is defined *)
}.

(** What a call of [main] does: the sinks it returns and the signals its
    sinks emit while it runs, by sink identity. *)
Record MainOutcome : Type := {
  mo_sinks : Sinks;
  mo_emitted : list (nat * Signal)
}.

Record Env : Type := {
  (* drivers[name](sinkProxies[name], name) for the function value [f] *)
  env_driver : nat -> lookup_result nat -> string -> result value;
  (* main(sources) *)
  env_main : nat -> Sources -> result MainOutcome;
  (* obj.hasOwnProperty(name) when the own property [hasOwnProperty] of
     [obj] is the function value [f] *)
  env_guard : nat -> string -> result value;
  (* adapt(stream), from './adapt' *)
  env_adapt : value -> result value;
  (* source.dispose() for the function value [f] *)
  env_teardown : nat -> result unit;
  (* the global [console]; None when it is falsy *)
  env_console : option Console
}.

Section Core.

Context (env : Env).

(** *** Primitive state operations *)

Definition lift {A} (r : result A) : M A := fun st => (r, st).

(** [xs.createWithMemory()] *)
Definition createWithMemory : M nat := fun st =>
  let p := st_next_proxy st in
  (Ok p,
   {| st_trace := st_trace st ++ [ECreateProxy p]; st_next_proxy := S p;
      st_window := st_window st; st_buffers := st_buffers st;
      st_replicators := st_replicators st; st_listeners := st_listeners st |}).

Definition get_buffers : M (option (gmap string Buffer)) :=
  fun st => (Ok (st_buffers st), st).

Definition set_buffers (b : option (gmap string Buffer)) : M unit := fun st =>
  (Ok tt,
   {| st_trace := st_trace st; st_next_proxy := st_next_proxy st;
      st_window := st_window st; st_buffers := b;
      st_replicators := st_replicators st; st_listeners := st_listeners st |}).

Definition get_replicators : M (gmap string Replicator) :=
  fun st => (Ok (st_replicators st), st).

Definition set_replicators (r : gmap string Replicator) : M unit := fun st =>
  (Ok tt,
   {| st_trace := st_trace st; st_next_proxy := st_next_proxy st;
      st_window := st_window st; st_buffers := st_buffers st;
      st_replicators := r; st_listeners := st_listeners st |}).

Definition get_listeners : M (list (nat * string)) :=
  fun st => (Ok (st_listeners st), st).

Definition set_listeners (l : list (nat * string)) : M unit := fun st =>
  (Ok tt,
   {| st_trace := st_trace st; st_next_proxy := st_next_proxy st;
      st_window := st_window st; st_buffers := st_buffers st;
      st_replicators := st_replicators st; st_listeners := l |}).

Definition get_window : M (option Window) :=
  fun st => (Ok (st_window st), st).

Definition set_window (w : option Window) : M unit := fun st =>
  (Ok tt,
   {| st_trace := st_trace st; st_next_proxy := st_next_proxy st;
      st_window := w; st_buffers := st_buffers st;
      st_replicators := st_replicators st; st_listeners := st_listeners st |}).

(** [buffers[name]]; a TypeError when [buffers] is null. *)
Definition read_buffer (name : string) : M Buffer :=
  bs ← get_buffers;
  match bs with
  | None => throw (TypeError "Cannot read properties of null")
  | Some bs =>
      match bs !! name with
      | Some b => mret b
      | None => throw (TypeError "Cannot read properties of undefined")
      end
  end.

Definition write_buffer (name : string) (b : Buffer) : M unit :=
  bs ← get_buffers;
  match bs with
  | None => throw (TypeError "Cannot set properties of null")
  | Some bs => set_buffers (Some (<[name := b]> bs))
  end.

(** [replicators[name]] *)
Definition read_replicator (name : string) : M Replicator :=
  rs ← get_replicators;
  match rs !! name with
  | Some r => mret r
  | None => throw (TypeError "Cannot read properties of undefined")
  end.

Definition write_replicator (name : string) (r : Replicator) : M unit :=
  rs ← get_replicators;
  set_replicators (<[name := r]> rs).

(** [v[k]] for the keys this file reads on arbitrary values ("stack",
    "dispose", "shamefullySendNext"): a TypeError on [null] and
    [undefined], the own property of an object, [undefined] otherwise. *)
Definition get_member (v : value) (k : string) : M value :=
  match v with
  | VUndefined | VNull =>
      throw (TypeError "Cannot read properties of null or undefined")
  | VObj props =>
      mret (match own_property props k with
            | Some p => p_value p
            | None => VUndefined
            end)
  | _ => mret VUndefined
  end.

(** [o[k] = v] in strict mode, on an extensible object: a writable own
    property is updated, a read-only one raises, a new one is created
    enumerable and writable. *)
Definition set_member (v : value) (k : string) (x : value) : M value :=
  match v with
  | VObj props =>
      match own_property props k with
      | Some p =>
          if p_writable p
          then mret (VObj (assign props k (Property x (p_enumerable p) true)))
          else throw (TypeError "Cannot assign to read only property")
      | None => mret (VObj (assign props k (Property x true true)))
      end
  | _ => mret v
  end.

(** *** logToConsoleError *)

Definition logToConsoleError (err : value) : M unit :=
  stack ← get_member err "stack";
  let target := if truthy stack then stack else err in
  let console := env_console env in
  if bool_decide (is_Some console) && from_option console_error false console
  then effect (EConsoleError target)
  else if bool_decide (is_Some console) && from_option console_log false console
  then effect (EConsoleLog target)
  else mret tt.

(** *** The guard obj.hasOwnProperty(name) *)

(** [obj.hasOwnProperty(name)] is a method call on [obj]: it reaches
    [Object.prototype.hasOwnProperty] unless [obj] has an own property named
    [hasOwnProperty], which is then what is called (a TypeError when it is
    not a function). *)
Definition call_hasOwnProperty {A} (to_value : A -> value)
    (obj : list (string * A)) (name : string) : M bool :=
  match own_property obj "hasOwnProperty" with
  | None => mret (hasOwnProperty obj name)
  | Some a =>
      match to_value a with
      | VFun f =>
          effect (ECallGuard f name);;
          r ← lift (env_guard env f name);
          mret (truthy r)
      | _ => throw (TypeError "obj.hasOwnProperty is not a function")
      end
  end.

(** *** makeSinkProxies *)

(** [for (const name in obj)] on an object whose prototype is
    [Object.prototype]: the enumerable own keys. *)
Definition for_in {A} (enumerable : A -> bool) (props : list (string * A))
  : list string :=
  fst <$> List.filter (fun kv => enumerable (snd kv)) props.

Fixpoint makeSinkProxies_loop (drivers : list (string * property value))
    (names : list string) (sinkProxies : SinkProxies) : M SinkProxies :=
  match names with
  | [] => mret sinkProxies
  | name :: names' =>
      own ← call_hasOwnProperty p_value drivers name;
      if (own : bool)
      then p ← createWithMemory;
           makeSinkProxies_loop drivers names' (assign sinkProxies name p)
      else makeSinkProxies_loop drivers names' sinkProxies
  end.

Definition makeSinkProxies (drivers : list (string * property value))
  : M SinkProxies :=
  makeSinkProxies_loop drivers (for_in p_enumerable drivers) [].

(** *** callDrivers *)

(** [f(proxy, name)] where [f = drivers[name]] *)
Definition call_driver (f : value) (proxy : lookup_result nat) (name : string)
  : M value :=
  match f with
  | VFun f =>
      effect (ECallDriver name f proxy);;
      lift (env_driver env f proxy name)
  | _ => throw (TypeError "drivers[name] is not a function")
  end.

Definition is_object (v : value) : bool :=
  truthy v && bool_decide (typeof v = TObject).

Fixpoint callDrivers_loop (drivers : list (string * property value))
    (sinkProxies : SinkProxies) (names : list string) (sources : Sources)
  : M Sources :=
  match names with
  | [] => mret sources
  | name :: names' =>
      own ← call_hasOwnProperty p_value drivers name;
      if (own : bool)
      then
        let f := from_option p_value VUndefined (own_property drivers name) in
        r ← call_driver f (js_get sinkProxies name) name;
        let sources := assign sources name r in
        if is_object r
        then r' ← set_member r "_isCycleSource" (VStr name);
             callDrivers_loop drivers sinkProxies names' (assign sources name r')
        else callDrivers_loop drivers sinkProxies names' sources
      else callDrivers_loop drivers sinkProxies names' sources
  end.

Definition callDrivers (drivers : list (string * property value))
    (sinkProxies : SinkProxies) : M Sources :=
  callDrivers_loop drivers sinkProxies (for_in p_enumerable drivers) [].

(** *** adaptSources *)

Definition is_function (v : value) : bool := bool_decide (typeof v = TFunction).

Fixpoint adaptSources_loop (names : list string) (sources : Sources)
  : M Sources :=
  match names with
  | [] => mret sources
  | name :: names' =>
      let v := from_option id VUndefined (own_property sources name) in
      own ← call_hasOwnProperty id sources name;
      if (own : bool) && truthy v
      then m ← get_member v "shamefullySendNext";
           if is_function m
           then effect (ECallAdapt name);;
                a ← lift (env_adapt env v);
                adaptSources_loop names' (assign sources name a)
           else adaptSources_loop names' sources
      else adaptSources_loop names' sources
  end.

(** The object is mutated in place: the result is [sources] itself. *)
Definition adaptSources (sources : Sources) : M Sources :=
  adaptSources_loop (for_in (fun _ => true) sources) sources.

(** *** replicateMany *)

(** [listener._n(x)], [listener._e(err)], [listener._c()] where [listener]
    is [sinkProxies[name]]: an injection into the proxy when the entry is a
    proxy, a TypeError when it is an inherited member or [undefined]. *)
Definition proxy_inject (listener : lookup_result nat) (s : Signal) : M unit :=
  match listener with
  | Own p => effect (EProxy p s)
  | Inherited _ => throw (TypeError "listener._n is not a function")
  | Missing => throw (TypeError "Cannot read properties of undefined")
  end.

Definition push_n (name : string) (x : value) : M unit :=
  b ← read_buffer name;
  write_buffer name {| buf_n := buf_n b ++ [x]; buf_e := buf_e b |}.

Definition push_e (name : string) (err : value) : M unit :=
  b ← read_buffer name;
  write_buffer name {| buf_n := buf_n b; buf_e := buf_e b ++ [err] |}.

Definition call_handler (h : Handler) (x : value) : M unit :=
  match h with
  | HBufferNext name => push_n name x
  | HBufferError name => push_e name x
  | HNoop => mret tt
  | HForwardNext listener => proxy_inject listener (SNext x)
  | HForwardError listener =>
      logToConsoleError x;; proxy_inject listener (SError x)
  end.

Definition call_field (h : option Handler) (x : value) : M unit :=
  match h with
  | Some h => call_handler h x
  | None => throw (TypeError "listener._n is not a function")
  end.

(** The stream hands a signal to a subscribed listener through the fields
    [_n], [_e] and [_c] of the listener object. *)
Definition deliver (name : string) (s : Signal) : M unit :=
  r ← read_replicator name;
  match s with
  | SNext x => call_field (rep__n r) x
  | SError err => call_field (rep__e r) err
  | SComplete => call_field (rep__c r) VUndefined
  end.

(** [xs.fromObservable(sink).subscribe(replicators[name])]: the listener
    object receives the fields [_n], [_e], [_c] (copies of [next], [error],
    [complete]), is registered with the sink, and is handed what the sink
    emits synchronously on subscription. *)
Definition subscribe (s : Sink) (name : string) : M (nat * string) :=
  r ← read_replicator name;
  write_replicator name
    {| rep_next := rep_next r; rep_error := rep_error r;
       rep_complete := rep_complete r;
       rep__n := Some (rep_next r); rep__e := Some (rep_error r);
       rep__c := Some (rep_complete r) |};;
  ls ← get_listeners;
  set_listeners (ls ++ [(sink_id s, name)]);;
  effect (ESubscribe (sink_id s) name);;
  forEach (sink_sync s) (deliver name);;
  mret (sink_id s, name).

(** [subscription.unsubscribe()] *)
Fixpoint remove_listener (l : nat * string) (ls : list (nat * string))
  : list (nat * string) :=
  match ls with
  | [] => []
  | l' :: ls' =>
      if bool_decide (l' = l) then ls' else l' :: remove_listener l ls'
  end.

Definition unsubscribe (s : nat * string) : M unit :=
  ls ← get_listeners;
  set_listeners (remove_listener s ls);;
  effect (EUnsubscribe (fst s) (snd s)).

(** A sink emits: every listener subscribed to it at that moment is handed
    the signal. *)
Definition emit (ev : nat * Signal) : M unit :=
  ls ← get_listeners;
  forEach (List.filter (fun l => Nat.eqb (fst l) (fst ev)) ls)
          (fun l => deliver (snd l) (snd ev)).

Record DisposeReplication : Type := {
  dr_subscriptions : list (nat * string);
  dr_sinkNames : list string;
  dr_sinkProxies : SinkProxies
}.

Definition sinkNames_of (sinks : Sinks) (sinkProxies : SinkProxies)
  : list string :=
  List.filter (fun name => js_get_truthy (js_get sinkProxies name))
              (fst <$> sinks).

(** The three callbacks that [replicateMany] runs over [sinkNames]. *)

(** first [sinkNames.forEach]: the buffer and the replicator of [name] *)
Definition create_replicator (name : string) : M unit :=
  write_buffer name {| buf_n := []; buf_e := [] |};;
  write_replicator name
    {| rep_next := HBufferNext name; rep_error := HBufferError name;
       rep_complete := HNoop;
       rep__n := None; rep__e := None; rep__c := None |}.

(** [sinkNames.map]: subscribe the replicator of [name] to [sinks[name]] *)
Definition subscribe_replicator (sinks : Sinks) (name : string)
  : M (nat * string) :=
  match own_property sinks name with
  | Some s => subscribe s name
  | None => throw (TypeError "Cannot read properties of undefined")
  end.

(** second [sinkNames.forEach]: flush the buffers of [name] into
    [sinkProxies[name]], then replace the handlers of the replicator (the
    four assignments of the source are one write here). *)
Definition flush_and_swap (sinkProxies : SinkProxies) (name : string) : M unit :=
  let listener := js_get sinkProxies name in
  let next := HForwardNext listener in
  let error := HForwardError listener in
  b ← read_buffer name;
  forEach (buf_n b) (call_handler next);;
  b ← read_buffer name;
  forEach (buf_e b) (call_handler error);;
  r ← read_replicator name;
  write_replicator name
    {| rep_next := next; rep_error := error;
       rep_complete := rep_complete r;
       rep__n := Some next; rep__e := Some error; rep__c := rep__c r |}.

Definition replicateMany (sinks : Sinks) (sinkProxies : SinkProxies)
  : M DisposeReplication :=
  let sinkNames := sinkNames_of sinks sinkProxies in
  set_buffers (Some ∅);;
  set_replicators ∅;;
  forEach sinkNames create_replicator;;
  subscriptions ← mapM sinkNames (subscribe_replicator sinks);
  forEach sinkNames (flush_and_swap sinkProxies);;
  set_buffers None;;
  mret {| dr_subscriptions := subscriptions; dr_sinkNames := sinkNames;
          dr_sinkProxies := sinkProxies |}.

Definition disposeReplication (d : DisposeReplication) : M unit :=
  forEach (dr_subscriptions d) unsubscribe;;
  forEach (dr_sinkNames d) (fun name =>
    proxy_inject (js_get (dr_sinkProxies d) name) SComplete).

(** *** disposeSources *)

Definition call_teardown (k : string) (d : value) : M unit :=
  match d with
  | VFun f => effect (ESourceDispose k f);; lift (env_teardown env f)
  | _ => throw (TypeError "sources[k].dispose is not a function")
  end.

Definition disposeSources (sources : Sources) : M unit :=
  forEach (for_in (fun _ => true) sources) (fun k =>
    let v := from_option id VUndefined (own_property sources k) in
    if hasOwnProperty sources k && truthy v
    then d ← get_member v "dispose";
         if truthy d then call_teardown k d else mret tt
    else mret tt).

(** *** isObjectEmpty *)

Definition isObjectEmpty (obj : value) : M bool :=
  match obj with
  | VUndefined | VNull =>
      throw (TypeError "Cannot convert undefined or null to object")
  | VObj props => mret (Nat.eqb (length (Object_keys props)) 0)
  | VStr s => mret (Nat.eqb (String.length s) 0)
  | _ => mret true
  end.

(** *** setup *)

Record CycleProgram : Type := {
  sources : Sources;
  sinks : Sinks;
  (* [run] is a closure over [sinks], [sinkProxies] and [sources] *)
  run_sinkProxies : SinkProxies
}.

Record DisposeFunction : Type := {
  dispose_sources : Sources;
  dispose_replication : DisposeReplication
}.

Definition is_null (v : value) : bool :=
  match v with VNull => true | _ => false end.

Definition own_entries (v : value) : list (string * property value) :=
  match v with VObj props => props | _ => [] end.

(** [main(adaptedSources)], with what the sinks emit while [main] runs. *)
Definition call_main (main : value) (srcs : Sources) : M Sinks :=
  match main with
  | VFun f =>
      effect (ECallMain f);;
      o ← lift (env_main env f srcs);
      forEach (mo_emitted o) emit;;
      mret (mo_sinks o)
  | _ => throw (TypeError "main is not a function")
  end.

Definition main_message : string :=
  "First argument given to Cycle must be the 'main' function.".
Definition drivers_message : string :=
  "Second argument given to Cycle must be an object with driver functions as properties.".
Definition empty_message : string :=
  "Second argument given to Cycle must be an object with at least one driver function declared as a property.".

Definition setup (main drivers : value) : M CycleProgram :=
  if negb (bool_decide (typeof main = TFunction))
  then throw (Error main_message)
  else
  if negb (bool_decide (typeof drivers = TObject)) || is_null drivers
  then throw (Error drivers_message)
  else
  empty ← isObjectEmpty drivers;
  if (empty : bool)
  then throw (Error empty_message)
  else
  sinkProxies ← makeSinkProxies (own_entries drivers);
  srcs ← callDrivers (own_entries drivers) sinkProxies;
  adaptedSources ← adaptSources srcs;
  snks ← call_main main adaptedSources;
  w ← get_window;
  match w with
  | Some win =>
      let cj :=
        from_option id {| cj_sinks := None; cj_other := [] |} (w_Cyclejs win) in
      set_window
        (Some {| w_Cyclejs :=
                   Some {| cj_sinks := Some snks; cj_other := cj_other cj |} |})
  | None => mret tt
  end;;
  (* [sources] and [adaptedSources] are the same object *)
  mret {| sources := adaptedSources; sinks := snks;
          run_sinkProxies := sinkProxies |}.

(** [run()], the closure returned by [setup] *)
Definition run (prog : CycleProgram) : M DisposeFunction :=
  disposeReplication ← replicateMany (sinks prog) (run_sinkProxies prog);
  mret {| dispose_sources := sources prog;
          dispose_replication := disposeReplication |}.

(** [dispose()], the closure returned by [run()] *)
Definition dispose (d : DisposeFunction) : M unit :=
  disposeSources (dispose_sources d);;
  disposeReplication (dispose_replication d).

End Core.

(** ** Replication with listeners on the proxies *)

(** What the listeners that the drivers have put on the proxy [p] do when
    the signal [s] is injected into it, the trace so far being [tr]: the
    signals they make sinks emit, synchronously and in this order, and then
    whether they return or throw. *)
Definition Listeners : Type :=
  list Effect -> nat -> Signal -> list (nat * Signal) * result unit.

(** The functions of the replication once more, with the listeners of the
    proxies run inside every injection.  An emission that a listener causes
    is handled like any other emission, before the injection returns; [fuel]
    bounds how deep such emissions may nest.  The functions above are these
    ones for listeners that stay silent. *)
Module Reacting.
Section Reacting.
Context (env : Env) (react : Listeners).

Definition get_trace : M (list Effect) := fun st => (Ok (st_trace st), st).

Section Step.
(* what an emission made by a listener does *)
Context (emit' : nat * Signal -> M unit).

(** [listener._n(x)], [listener._e(err)], [listener._c()] *)
Definition proxy_inject (listener : lookup_result nat) (s : Signal) : M unit :=
  match listener with
  | Own p =>
      tr ← get_trace;
      effect (EProxy p s);;
      forEach (fst (react tr p s)) emit';;
      lift (snd (react tr p s))
  | Inherited _ => throw (TypeError "listener._n is not a function")
  | Missing => throw (TypeError "Cannot read properties of undefined")
  end.

Definition call_handler (h : Handler) (x : value) : M unit :=
  match h with
  | HBufferNext name => push_n name x
  | HBufferError name => push_e name x
  | HNoop => mret tt
  | HForwardNext listener => proxy_inject listener (SNext x)
  | HForwardError listener =>
      logToConsoleError env x;; proxy_inject listener (SError x)
  end.

Definition call_field (h : option Handler) (x : value) : M unit :=
  match h with
  | Some h => call_handler h x
  | None => throw (TypeError "listener._n is not a function")
  end.

Definition deliver (name : string) (s : Signal) : M unit :=
  r ← read_replicator name;
  match s with
  | SNext x => call_field (rep__n r) x
  | SError err => call_field (rep__e r) err
  | SComplete => call_field (rep__c r) VUndefined
  end.

(** A sink emits. *)
Definition emit_step (ev : nat * Signal) : M unit :=
  ls ← get_listeners;
  forEach (List.filter (fun l => Nat.eqb (fst l) (fst ev)) ls)
          (fun l => deliver (snd l) (snd ev)).

Definition subscribe (s : Sink) (name : string) : M (nat * string) :=
  r ← read_replicator name;
  write_replicator name
    {| rep_next := rep_next r; rep_error := rep_error r;
       rep_complete := rep_complete r;
       rep__n := Some (rep_next r); rep__e := Some (rep_error r);
       rep__c := Some (rep_complete r) |};;
  ls ← get_listeners;
  set_listeners (ls ++ [(sink_id s, name)]);;
  effect (ESubscribe (sink_id s) name);;
  forEach (sink_sync s) (deliver name);;
  mret (sink_id s, name).

Definition subscribe_replicator (sinks : Sinks) (name : string)
  : M (nat * string) :=
  match own_property sinks name with
  | Some s => subscribe s name
  | None => throw (TypeError "Cannot read properties of undefined")
  end.

Definition flush_and_swap (sinkProxies : SinkProxies) (name : string) : M unit :=
  let listener := js_get sinkProxies name in
  let next := HForwardNext listener in
  let error := HForwardError listener in
  b ← read_buffer name;
  forEach (buf_n b) (call_handler next);;
  b ← read_buffer name;
  forEach (buf_e b) (call_handler error);;
  r ← read_replicator name;
  write_replicator name
    {| rep_next := next; rep_error := error;
       rep_complete := rep_complete r;
       rep__n := Some next; rep__e := Some error; rep__c := rep__c r |}.

Definition replicateMany (sinks : Sinks) (sinkProxies : SinkProxies)
  : M DisposeReplication :=
  let sinkNames := sinkNames_of sinks sinkProxies in
  set_buffers (Some ∅);;
  set_replicators ∅;;
  forEach sinkNames create_replicator;;
  subscriptions ← mapM sinkNames (subscribe_replicator sinks);
  forEach sinkNames (flush_and_swap sinkProxies);;
  set_buffers None;;
  mret {| dr_subscriptions := subscriptions; dr_sinkNames := sinkNames;
          dr_sinkProxies := sinkProxies |}.

End Step.

(** An emission of a sink, with at most [fuel] emissions nested in one
    another. *)
Fixpoint emit (fuel : nat) (ev : nat * Signal) : M unit :=
  match fuel with
  | 0 => throw OutOfFuel
  | S fuel' => emit_step (emit fuel') ev
  end.

(** [run()] *)
Definition run (fuel : nat) (prog : CycleProgram) : M DisposeFunction :=
  disposeReplication ←
    replicateMany (emit fuel) (sinks prog) (run_sinkProxies prog);
  mret {| dispose_sources := sources prog;
          dispose_replication := disposeReplication |}.

End Reacting.
End Reacting.

(** * Vocabulary of the specification *)

(** ** Projections of the trace *)

(** The signals injected into proxy [p], in order. *)
Definition proxy_log (p : nat) (tr : list Effect) : list Signal :=
  omap (fun e => match e with
                 | EProxy q s => if bool_decide (q = p) then Some s else None
                 | _ => None
                 end) tr.

Definition nexts (l : list Signal) : list value :=
  omap (fun s => match s with SNext x => Some x | _ => None end) l.

Definition errors (l : list Signal) : list value :=
  omap (fun s => match s with SError e => Some e | _ => None end) l.

(** What was written to the console, through either method. *)
Definition diagnostics (tr : list Effect) : list value :=
  omap (fun e => match e with
                 | EConsoleError v | EConsoleLog v => Some v
                 | _ => None
                 end) tr.

(** The signals of [evs] that come from the sink [sid]. *)
Definition emitted_by (sid : nat) (evs : list (nat * Signal)) : list Signal :=
  snd <$> List.filter (fun ev => Nat.eqb (fst ev) sid) evs.

(** A trace read as a sequence of items: the handling of one error for proxy
    [p], which is what [logToConsoleError] writes for it immediately
    followed by its injection into [p], or any single effect that is not the
    injection of an error into [p]. *)
Definition render (console_write : value -> list Effect) (p : nat)
    (i : Effect + value) : list Effect :=
  match i with
  | inl e => [e]
  | inr err => console_write err ++ [EProxy p (SError err)]
  end.

Definition plain_item (p : nat) (i : Effect + value) : Prop :=
  match i with
  | inl (EProxy q (SError _)) => q ≠ p
  | _ => True
  end.

Definition handled_of (i : Effect + value) : option value :=
  match i with
  | inr err => Some err
  | inl _ => None
  end.

(** The errors injected into [p] in the trace [tr] are the occurrences [es],
    one injection for each occurrence and in this order, and each injection
    comes immediately after the console write made for that occurrence. *)
Definition errors_handled (console_write : value -> list Effect) (p : nat)
    (tr : list Effect) (es : list value) : Prop :=
  ∃ items,
    tr = flat_map (render console_write p) items ∧
    Forall (plain_item p) items ∧
    omap handled_of items = es.

(** ** Relations that the steps of a computation respect *)

(** Every run of [m] relates the state before to the state after by [R]. *)
Definition Preserves (R : relation State) {A} (m : M A) : Prop :=
  ∀ st, R st (snd (m st)).

(** The trace only grows and [window] is not written. *)
Definition grows (st st' : State) : Prop :=
  st_trace st `prefix_of` st_trace st' ∧ st_window st' = st_window st.

(** The effects of the construction phase. *)
Definition setup_effect (e : Effect) : Prop :=
  match e with
  | ECreateProxy _ | ECallDriver _ _ _ | ECallGuard _ _ | ECallAdapt _
  | ECallMain _ => True
  | _ => False
  end.

(** As long as nothing is subscribed, nothing gets subscribed and the trace
    grows by effects of the construction phase only. *)
Definition quiet (st st' : State) : Prop :=
  st_listeners st = [] →
  st_listeners st' = [] ∧
  ∃ tr, st_trace st' = st_trace st ++ tr ∧ Forall setup_effect tr.

(** A computation is loud when it cannot throw an [Error] without having
    done something to the outside world first: the errors that [setup]
    throws itself come before any effect. *)
Definition Loud {A} (m : M A) : Prop :=
  ∀ st msg st', m st = (Throw (Error msg), st') →
    List.length (st_trace st) < List.length (st_trace st').

(** ** setup *)

(** The three conditions that [setup] rejects. *)
Definition invalid_arguments (main drivers : value) : Prop :=
  typeof main ≠ TFunction ∨
  typeof drivers ≠ TObject ∨
  drivers = VNull ∨
  Object_keys (own_entries drivers) = [].

(** The object has no own property named [hasOwnProperty], so that the guard
    [obj.hasOwnProperty(name)] reaches the method of [Object.prototype]. *)
Definition unshadowed {A} (obj : list (string * A)) : Prop :=
  own_property obj "hasOwnProperty" = None.

(** The keys of the object are ordinary: none is [hasOwnProperty], which
    would shadow the guard of the loops, and none is [__proto__], on which an
    assignment goes to the prototype setter instead of creating an entry. *)
Definition ordinary_keys {A} (obj : list (string * A)) : Prop :=
  ("hasOwnProperty" ∉ fst <$> obj) ∧ ("__proto__" ∉ fst <$> obj).

(** The state after [k] calls of [xs.createWithMemory()]. *)
Definition allocate (k : nat) (st : State) : State :=
  {| st_trace := st_trace st ++ (ECreateProxy <$> seq (st_next_proxy st) k);
     st_next_proxy := k + st_next_proxy st;
     st_window := st_window st; st_buffers := st_buffers st;
     st_replicators := st_replicators st; st_listeners := st_listeners st |}.

Definition tag : string := "_isCycleSource".

(** [v] is the source stored for a driver named [name] that returned [r]:
    an object carries the tag as a writable own property, enumerable when the
    object had no such property before, with its other properties untouched;
    any other value is stored as it is. *)
Definition tagged_source (r : value) (name : string) (v : value) : Prop :=
  match r with
  | VObj props =>
      ∃ props' p,
        v = VObj props' ∧
        own_property props' tag = Some p ∧
        p_value p = VStr name ∧
        p_writable p = true ∧
        (own_property props tag = None → p_enumerable p = true) ∧
        (∀ k, k ≠ tag → own_property props' k = own_property props k)
  | _ => v = r
  end.

(** [r] has no own property [_isCycleSource] (no value but an object has
    one).  An object that [callDrivers] has already tagged, such as one
    that an earlier driver of the same registry returned, has it. *)
Definition untagged (r : value) : Prop :=
  own_property (own_entries r) tag = None.

(** The tag as the specification describes it: hidden from enumeration and
    read-only. *)
Definition hidden_tag (name : string) (v : value) : Prop :=
  ∃ props p,
    v = VObj props ∧ own_property props tag = Some p ∧
    p_value p = VStr name ∧
    p_enumerable p = false ∧ p_writable p = false.

(** The global [window] after [setup] has stored [snks] in it. *)
Definition publish (snks : Sinks) (w : option Window) : option Window :=
  match w with
  | Some win =>
      Some {| w_Cyclejs :=
                Some {| cj_sinks := Some snks;
                        cj_other := from_option cj_other [] (w_Cyclejs win) |} |}
  | None => None
  end.

(** ** Replication *)

(** What [logToConsoleError(err)] prints when it returns: [err.stack || err]. *)
Definition diagnostic_target (err : value) : value :=
  match err with
  | VObj props =>
      match own_property props "stack" with
      | Some p => if truthy (p_value p) then p_value p else err
      | None => err
      end
  | _ => err
  end.

(** The console call [logToConsoleError] makes for [target]: [console.error]
    when defined, else [console.log] when defined, else none. *)
Definition console_fx (console : option Console) (target : value)
  : list Effect :=
  match console with
  | Some c =>
      if console_error c then [EConsoleError target]
      else if console_log c then [EConsoleLog target]
      else []
  | None => []
  end.

Definition inject_fx (listener : lookup_result nat) (s : Signal) : list Effect :=
  match listener with
  | Own p => [EProxy p s]
  | _ => []
  end.

(** The effects of handing the signal [s] to a replicator that forwards to
    [listener]. *)
Definition forward_fx (console : option Console) (listener : lookup_result nat)
    (s : Signal) : list Effect :=
  match s with
  | SNext _ => inject_fx listener s
  | SError err =>
      console_fx console (diagnostic_target err) ++ inject_fx listener s
  | SComplete => []
  end.

(** A forwarding replicator passes on values and errors, never completion. *)
Definition forwarded (s : Signal) : list Signal :=
  match s with
  | SComplete => []
  | _ => [s]
  end.

(** The three shapes a replicator takes: created, subscribed, swapped. *)
Definition buffering (name : string) : Replicator :=
  {| rep_next := HBufferNext name; rep_error := HBufferError name;
     rep_complete := HNoop;
     rep__n := None; rep__e := None; rep__c := None |}.

Definition subscribed (name : string) : Replicator :=
  {| rep_next := HBufferNext name; rep_error := HBufferError name;
     rep_complete := HNoop;
     rep__n := Some (HBufferNext name); rep__e := Some (HBufferError name);
     rep__c := Some HNoop |}.

Definition forwarding (listener : lookup_result nat) : Replicator :=
  {| rep_next := HForwardNext listener; rep_error := HForwardError listener;
     rep_complete := HNoop;
     rep__n := Some (HForwardNext listener);
     rep__e := Some (HForwardError listener);
     rep__c := Some HNoop |}.

Definition empty_buffer : Buffer := {| buf_n := []; buf_e := [] |}.

Definition push_signal (b : Buffer) (s : Signal) : Buffer :=
  match s with
  | SNext x => {| buf_n := buf_n b ++ [x]; buf_e := buf_e b |}
  | SError e => {| buf_n := buf_n b; buf_e := buf_e b ++ [e] |}
  | SComplete => b
  end.

Definition buffered (sync : list Signal) : Buffer :=
  {| buf_n := nexts sync; buf_e := errors sync |}.

Definition sync_of (snks : Sinks) (name : string) : list Signal :=
  from_option sink_sync [] (own_property snks name).

Definition sid_of (snks : Sinks) (name : string) : nat :=
  from_option sink_id 0 (own_property snks name).

Definition subscription_of (snks : Sinks) (name : string) : nat * string :=
  (sid_of snks name, name).

(** The effects of the flush of one name. *)
Definition flush_fx (console : option Console) (snks : Sinks)
    (proxies : SinkProxies) (name : string) : list Effect :=
  let listener := js_get proxies name in
  flat_map (fun x => forward_fx console listener (SNext x))
           (nexts (sync_of snks name)) ++
  flat_map (fun e => forward_fx console listener (SError e))
           (errors (sync_of snks name)).

(** The effects of one emission of a sink, given the active subscriptions. *)
Definition emit_fx (console : option Console) (proxies : SinkProxies)
    (listeners : list (nat * string)) (ev : nat * Signal) : list Effect :=
  flat_map (fun l => forward_fx console (js_get proxies (snd l)) (snd ev))
           (List.filter (fun l => Nat.eqb (fst l) (fst ev)) listeners).

(** All active subscriptions forward. *)
Definition all_forwarding (proxies : SinkProxies) (st : State) : Prop :=
  ∀ l, l ∈ st_listeners st →
    st_replicators st !! snd l = Some (forwarding (js_get proxies (snd l))).

(** [v] is neither [null] nor [undefined]. *)
Definition defined (v : value) : Prop := v ≠ VNull ∧ v ≠ VUndefined.

(** ** Listeners on the proxies *)

(** The listeners make no sink emit while they are called, and they
    return. *)
Definition silent (react : Listeners) : Prop :=
  ∀ tr p s, react tr p s = ([], Ok tt).

(** A handler, a replicator that does not inject into the proxy [p]. *)
Definition spares_handler (p : nat) (h : Handler) : bool :=
  match h with
  | HForwardNext (Own q) | HForwardError (Own q) => bool_decide (q ≠ p)
  | _ => true
  end.

Definition spares (p : nat) (r : Replicator) : bool :=
  from_option (spares_handler p) true (rep__n r) &&
  from_option (spares_handler p) true (rep__e r) &&
  from_option (spares_handler p) true (rep__c r).

(** Every buffer is still there, with what it held at the front. *)
Definition buffers_grow (bs bs' : option (gmap string Buffer)) : Prop :=
  ∀ B n b, bs = Some B → B !! n = Some b →
    ∃ B' b', bs' = Some B' ∧ B' !! n = Some b' ∧
             buf_n b `prefix_of` buf_n b' ∧ buf_e b `prefix_of` buf_e b'.

(** What a step that runs beside the proxy [p] respects: as long as no
    replicator injects into [p], the replicators stay as they are, [p]
    receives nothing, and the buffers only grow at the end. *)
Definition aside (p : nat) (st st' : State) : Prop :=
  map_Forall (fun _ r => spares p r) (st_replicators st) →
  st_replicators st' = st_replicators st ∧
  proxy_log p (st_trace st') = proxy_log p (st_trace st) ∧
  buffers_grow (st_buffers st) (st_buffers st').

(** What a step on the proxy [p] does: [p] receives [l], the replicators
    stay as they are and the buffers only grow. *)
Definition feeds (p : nat) (l : list Signal) (st st' : State) : Prop :=
  st_replicators st' = st_replicators st ∧
  proxy_log p (st_trace st') = proxy_log p (st_trace st) ++ l ∧
  buffers_grow (st_buffers st) (st_buffers st').

(** ** Disposal *)

(** The teardown call made for the source stored under [k]: the source is an
    object whose [dispose] is a function. *)
Definition teardown_of (srcs : Sources) (k : string) : list Effect :=
  match own_property srcs k with
  | Some (VObj props) =>
      match p_value <$> own_property props "dispose" with
      | Some (VFun f) => [ESourceDispose k f]
      | _ => []
      end
  | _ => []
  end.

Definition teardowns (srcs : Sources) : list Effect :=
  flat_map (teardown_of srcs) (fst <$> srcs).

Definition unsubscriptions (subs : list (nat * string)) : list Effect :=
  (fun sub => EUnsubscribe (fst sub) (snd sub)) <$> subs.

Definition completions (proxies : SinkProxies) (names : list string)
  : list Effect :=
  flat_map (fun n => inject_fx (js_get proxies n) SComplete) names.

(** ** Example programs *)

Definition driver_fn (f : nat) : property value := Property (VFun f) true true.

Definition full_console : option Console :=
  Some {| console_error := true; console_log := true |}.

(** Drivers [A] and [B]: driver [A] returns an object with a [dispose]
    method, driver [B] the number 7. *)
Definition example_main : value := VFun 0.

Definition example_drivers : value :=
  VObj [("A", driver_fn 1); ("B", driver_fn 2)].

Definition example_driver (f : nat) : result value :=
  Ok (if Nat.eqb f 1 then VObj [("dispose", driver_fn 10)] else VNum 7).

(** [main] returns the sink [A] only; subscribed, it emits [1], an error,
    then [2]. *)
Definition sinkA : Sink :=
  {| sink_id := 0;
     sink_sync := [SNext (VNum 1); SError (VStr "boom"); SNext (VNum 2)] |}.

Definition example_env : Env :=
  {| env_driver := fun f _ _ => example_driver f;
     env_main := fun _ _ =>
       Ok {| mo_sinks := [("A", sinkA)]; mo_emitted := [] |};
     env_guard := fun _ _ => Ok (VBool true);
     env_adapt := fun v => Ok v;
     env_teardown := fun _ => Ok tt;
     env_console := full_console |}.

Definition example_window : Window :=
  {| w_Cyclejs :=
       Some {| cj_sinks := None; cj_other := [("version", VNum 1)] |} |}.

(** Signals emitted after [run()]: two by sink [A], one by a sink nobody
    subscribed to, then the completion of sink [A]. *)
Definition later : list (nat * Signal) :=
  [(0, SNext (VNum 3)); (9, SNext (VNum 4)); (0, SError (VStr "late"));
   (0, SComplete)].

(** The same drivers; the sink [A] that [main] returns emits nothing on
    subscription, and [main] pushes ["x"] into it while it runs. *)
Definition plain_sink : Sink := {| sink_id := 0; sink_sync := [] |}.

Definition eager_env : Env :=
  {| env_driver := fun f _ _ => example_driver f;
     env_main := fun _ _ =>
       Ok {| mo_sinks := [("A", plain_sink)];
             mo_emitted := [(0, SNext (VStr "x"))] |};
     env_guard := fun _ _ => Ok (VBool true);
     env_adapt := fun v => Ok v;
     env_teardown := fun _ => Ok tt;
     env_console := full_console |}.

(** The first program again, with a console that offers neither [error] nor
    [log]. *)
Definition mute_env : Env :=
  {| env_driver := env_driver example_env;
     env_main := env_main example_env;
     env_guard := env_guard example_env;
     env_adapt := env_adapt example_env;
     env_teardown := env_teardown example_env;
     env_console := Some {| console_error := false; console_log := false |} |}.

(** One driver, [A]; [main] returns a single sink, named [constructor],
    which emits [1] on subscription. *)
Definition constructor_sink : Sink :=
  {| sink_id := 5; sink_sync := [SNext (VNum 1)] |}.

Definition constructor_env : Env :=
  {| env_driver := fun _ _ _ => Ok (VNum 7);
     env_main := fun _ _ =>
       Ok {| mo_sinks := [("constructor", constructor_sink)];
             mo_emitted := [] |};
     env_guard := fun _ _ => Ok (VBool true);
     env_adapt := fun v => Ok v;
     env_teardown := fun _ => Ok tt;
     env_console := full_console |}.

Definition single_driver : value := VObj [("A", driver_fn 1)].

(** ** The phases of [setup] *)

(** [null] or [undefined]: the values on which a property read throws. *)
Definition nullish (v : value) : bool :=
  match v with
  | VUndefined | VNull => true
  | _ => false
  end.

(** The call that [callDrivers] makes for the registry entry [name]. *)
Definition driver_call (drivers : list (string * property value))
    (proxies : SinkProxies) (name : string) : list Effect :=
  match p_value <$> own_property drivers name with
  | Some (VFun g) => [ECallDriver name g (js_get proxies name)]
  | _ => []
  end.

Definition driver_calls (drivers : list (string * property value))
    (proxies : SinkProxies) : list Effect :=
  flat_map (driver_call drivers proxies) (Object_keys drivers).

(** The sources that [adaptSources] hands to [adapt]: the truthy ones whose
    member [shamefullySendNext] is a function. *)
Definition adaptable (v : value) : bool :=
  match v with
  | VObj props =>
      match own_property props "shamefullySendNext" with
      | Some p => is_function (p_value p)
      | None => false
      end
  | _ => false
  end.

Definition adapt_or_keep (adapt : value -> result value) (v : value) : value :=
  if adaptable v
  then match adapt v with Ok a => a | Throw _ => v end
  else v.

(** The collection after [adaptSources] has returned. *)
Definition adapted (adapt : value -> result value) (srcs : Sources) : Sources :=
  (fun kv => (fst kv, adapt_or_keep adapt (snd kv))) <$> srcs.

Definition adapt_calls (srcs : Sources) : list Effect :=
  ECallAdapt <$> (fst <$> List.filter (fun kv => adaptable (snd kv)) srcs).

(** ** What [dispose()] does *)

(** The effects of one call of [dispose()] that returns. *)
Definition dispose_fx (d : DisposeFunction) : list Effect :=
  teardowns (dispose_sources d) ++
  unsubscriptions (dr_subscriptions (dispose_replication d)) ++
  completions (dr_sinkProxies (dispose_replication d))
              (dr_sinkNames (dispose_replication d)).

(** ** The exported [run(main, drivers)] *)

(** The property [CyclejsDevTool_startGraphSerializer] of the global
    [window], as far as [run] uses it: its value, and what calling it with
    the sinks does when it is the function value [f]. *)
Record DevTool : Type := {
  dt_startGraphSerializer : value;
  dt_call : nat -> Sinks -> result unit
}.

Module Exported.

(** [run(main, drivers)], the default export: [setup], the devtool hook when
    there is a [window] that has one, then [run()]. *)
Definition run (env : Env) (dt : DevTool) (main drivers : value)
  : M DisposeFunction :=
  prog ← setup env main drivers;
  w ← get_window;
  (if bool_decide (is_Some w) && truthy (dt_startGraphSerializer dt)
   then match dt_startGraphSerializer dt with
        | VFun f => lift (dt_call dt f (sinks prog))
        | _ => throw (TypeError "window[...] is not a function")
        end
   else mret tt);;
  run env prog.

End Exported.

(** ** More example programs *)

(** The first program with a teardown that throws: [dispose()] of the
    source of driver [A] raises [oops]. *)
Definition failing_teardown_env : Env :=
  {| env_driver := env_driver example_env;
     env_main := env_main example_env;
     env_guard := env_guard example_env;
     env_adapt := env_adapt example_env;
     env_teardown := fun _ => Throw (Thrown (VStr "oops"));
     env_console := env_console example_env |}.

(** Driver [A] returns a stream (an object whose [shamefullySendNext] is a
    function), driver [B] returns [null]; [adapt] wraps what it is given. *)
Definition stream_source : value :=
  VObj [("shamefullySendNext", Property (VFun 20) false true)].

Definition adapting_env : Env :=
  {| env_driver := fun f _ _ =>
       Ok (if Nat.eqb f 1 then stream_source else VNull);
     env_main := env_main example_env;
     env_guard := fun _ _ => Ok (VBool true);
     env_adapt := fun v => Ok (VObj [("adapted", Property v true true)]);
     env_teardown := fun _ => Ok tt;
     env_console := full_console |}.

(** [main] returns the sink [A] and a sink [C] for which there is no
    driver. *)
Definition sinkC : Sink := {| sink_id := 3; sink_sync := [SNext (VNum 9)] |}.

Definition extra_sink_env : Env :=
  {| env_driver := env_driver example_env;
     env_main := fun _ _ =>
       Ok {| mo_sinks := [("A", sinkA); ("C", sinkC)]; mo_emitted := [] |};
     env_guard := env_guard example_env;
     env_adapt := env_adapt example_env;
     env_teardown := env_teardown example_env;
     env_console := full_console |}.

(** One driver, [A]; [main] returns a single sink, named [toString], which
    emits nothing on subscription. *)
Definition toString_env : Env :=
  {| env_driver := fun _ _ _ => Ok (VNum 7);
     env_main := fun _ _ =>
       Ok {| mo_sinks := [("toString", plain_sink)]; mo_emitted := [] |};
     env_guard := fun _ _ => Ok (VBool true);
     env_adapt := fun v => Ok v;
     env_teardown := fun _ => Ok tt;
     env_console := full_console |}.

(** A registry whose only entry is named [hasOwnProperty] and is not a
    function, and one whose only entry of that name is a driver. *)
Definition shadowing_registry : value :=
  VObj [("hasOwnProperty", Property (VNum 5) true true)].

Definition guarded_registry : value :=
  VObj [("hasOwnProperty", driver_fn 1)].

(** The first program, where a function of the registry called as
    [obj.hasOwnProperty(name)] returns [undefined]. *)
Definition refusing_env : Env :=
  {| env_driver := env_driver example_env;
     env_guard := fun _ _ => Ok VUndefined;
     env_main := env_main example_env;
     env_adapt := env_adapt example_env;
     env_teardown := env_teardown example_env;
     env_console := env_console example_env |}.

(** Proxies without listeners; and a listener on proxy [0] that, on the
    first value it is handed, makes sink [A] emit the value [8] and the
    error [echo]. *)
Definition no_listeners : Listeners := fun _ _ _ => ([], Ok tt).

Definition echoing : Listeners := fun _ p s =>
  match p, s with
  | 0, SNext (VNum 1) =>
      ([(0, SNext (VNum 8)); (0, SError (VStr "echo"))], Ok tt)
  | _, _ => ([], Ok tt)
  end.

(** A devtool hook that throws. *)
Definition failing_devtool : DevTool :=
  {| dt_startGraphSerializer := VFun 30;
     dt_call := fun _ _ => Throw (Thrown (VStr "devtool")) |}.

(** * Verification *)

(** ** Projections of the trace *)

Lemma proxy_log_app p t1 t2 :
  proxy_log p (t1 ++ t2) = proxy_log p t1 ++ proxy_log p t2.
Proof. apply omap_app. Qed.

Lemma diagnostics_app t1 t2 :
  diagnostics (t1 ++ t2) = diagnostics t1 ++ diagnostics t2.
Proof. apply omap_app. Qed.

Lemma nexts_app l1 l2 : nexts (l1 ++ l2) = nexts l1 ++ nexts l2.
Proof. apply omap_app. Qed.

Lemma errors_app l1 l2 : errors (l1 ++ l2) = errors l1 ++ errors l2.
Proof. apply omap_app. Qed.

(** ** Own properties of objects *)

Section Objects.
Context {A : Type}.
Implicit Types (props : list (string * A)) (k : string).

Lemma eqb_decide (k k' : string) : String.eqb k k' = bool_decide (k = k').
Proof.
  destruct (String.eqb_spec k k'); symmetry.
  - by apply bool_decide_eq_true.
  - by apply bool_decide_eq_false.
Qed.

Lemma own_property_nil k : own_property (@nil (string * A)) k = None.
Proof. done. Qed.

Lemma own_property_cons k' a props k :
  own_property ((k', a) :: props) k =
  if decide (k' = k) then Some a else own_property props k.
Proof.
  unfold own_property. simpl. rewrite eqb_decide.
  case_bool_decide; by rewrite decide_bool_decide; case_bool_decide.
Qed.

Lemma own_property_None props k :
  own_property props k = None ↔ k ∉ fst <$> props.
Proof.
  induction props as [|[k' a] props IH]; simpl.
  - split; [intros _; apply not_elem_of_nil | done].
  - rewrite own_property_cons, not_elem_of_cons.
    destruct (decide (k' = k)) as [->|Hne].
    + split; [done | by intros [? _]].
    + rewrite IH. split; [by intros ?; split; [congruence|] | by intros [_ ?]].
Qed.

Lemma own_property_is_Some props k :
  is_Some (own_property props k) ↔ k ∈ fst <$> props.
Proof.
  rewrite <- not_eq_None_Some, own_property_None.
  split; [apply dec_stable | auto].
Qed.

Lemma own_property_elem_of props k a :
  own_property props k = Some a → (k, a) ∈ props.
Proof.
  induction props as [|[k' a'] props IH]; [done|].
  rewrite own_property_cons. destruct (decide (k' = k)) as [->|Hne].
  - intros [= ->]. apply list_elem_of_here.
  - intros H. apply list_elem_of_further. auto.
Qed.

Lemma hasOwnProperty_true props k :
  hasOwnProperty props k = true ↔ k ∈ fst <$> props.
Proof.
  unfold hasOwnProperty. rewrite bool_decide_eq_true.
  apply own_property_is_Some.
Qed.

Lemma own_property_assign props k a k' :
  own_property (assign props k a) k' =
  if decide (k = k') then Some a else own_property props k'.
Proof.
  induction props as [|[k0 a0] props IH]; simpl.
  - by rewrite own_property_cons, own_property_nil.
  - rewrite eqb_decide. case_bool_decide as Hk0.
    + subst k0. rewrite !own_property_cons. by destruct (decide (k = k')).
    + rewrite !own_property_cons, IH.
      destruct (decide (k0 = k')) as [->|]; [|done].
      by rewrite decide_False by congruence.
Qed.

Lemma assign_fresh props k a :
  k ∉ fst <$> props → assign props k a = props ++ [(k, a)].
Proof.
  induction props as [|[k0 a0] props IH]; simpl; [done|].
  rewrite not_elem_of_cons. intros [Hne Hnin].
  rewrite eqb_decide, bool_decide_eq_false_2 by congruence.
  by rewrite IH.
Qed.

Lemma assign_assign props k a b :
  assign (assign props k a) k b = assign props k b.
Proof.
  induction props as [|[k0 a0] props IH]; simpl.
  - by rewrite String.eqb_refl.
  - destruct (String.eqb k0 k) eqn:Hk; simpl.
    + by rewrite String.eqb_refl.
    + by rewrite Hk, IH.
Qed.

Lemma keys_assign_present props k a :
  k ∈ fst <$> props → fst <$> assign props k a = fst <$> props.
Proof.
  induction props as [|[k0 a0] props IH]; simpl.
  - intros H. by apply elem_of_nil in H.
  - rewrite eqb_decide. case_bool_decide as Hk0; simpl; [by subst|].
    intros [?|Hin]%elem_of_cons; [congruence|]. f_equal. by apply IH.
Qed.

End Objects.

(** ** Reasoning in the monad *)

Lemma bind_unfold {A B} (m : M A) (k : A → M B) st :
  (m ≫= k) st =
  match m st with
  | (Ok a, st') => k a st'
  | (Throw e, st') => (Throw e, st')
  end.
Proof. done. Qed.

Lemma bind_Ok_inv {A B} (m : M A) (k : A → M B) st b st' :
  (m ≫= k) st = (Ok b, st') →
  ∃ a st1, m st = (Ok a, st1) ∧ k a st1 = (Ok b, st').
Proof.
  rewrite bind_unfold. destruct (m st) as [[a|e] st1]; [eauto | done].
Qed.

(** Run the next monadic steps on an explicit state. *)
Ltac mrun := repeat first [rewrite bind_unfold | progress simpl].

Lemma append_trace_nil st : append_trace [] st = st.
Proof. destruct st. unfold append_trace. simpl. by rewrite app_nil_r. Qed.

Lemma append_trace_app t1 t2 st :
  append_trace t2 (append_trace t1 st) = append_trace (t1 ++ t2) st.
Proof. unfold append_trace. simpl. by rewrite app_assoc. Qed.

(** A relation between the state before and after that every step of a
    computation respects. *)
Section Preserves.
Context (R : relation State) `{!PreOrder R}.

Lemma preserves_ret {A} (a : A) : Preserves R (mret a).
Proof. intros st. simpl. reflexivity. Qed.

Lemma preserves_throw {A} e : Preserves R (@throw A e).
Proof. intros st. simpl. reflexivity. Qed.

Lemma preserves_bind {A B} (m : M A) (k : A → M B) :
  Preserves R m → (∀ a, Preserves R (k a)) → Preserves R (m ≫= k).
Proof.
  intros Hm Hk st. rewrite bind_unfold.
  specialize (Hm st). destruct (m st) as [[a|e] st1]; simpl in *; [|done].
  etrans; [exact Hm | apply Hk].
Qed.

Lemma preserves_forEach {A} (l : list A) (f : A → M unit) :
  (∀ x, Preserves R (f x)) → Preserves R (forEach l f).
Proof.
  intros Hf. induction l as [|x l IH]; simpl.
  - apply preserves_ret.
  - apply preserves_bind; auto.
Qed.

Lemma preserves_mapM {A B} (l : list A) (f : A → M B) :
  (∀ x, Preserves R (f x)) → Preserves R (mapM l f).
Proof.
  intros Hf. induction l as [|x l IH]; simpl.
  - apply preserves_ret.
  - apply preserves_bind; [auto|]. intros y.
    apply preserves_bind; [auto|]. intros ys. apply preserves_ret.
Qed.

End Preserves.

Ltac preserves_step :=
  first
    [ match goal with |- PreOrder _ => exact _ end
    | progress cbv beta zeta
    | apply preserves_ret
    | apply preserves_throw
    | apply preserves_bind; [..|intros ?]
    | apply preserves_forEach; [..|intros ?]
    | apply preserves_mapM; [..|intros ?]
    | match goal with
      | |- Preserves _ (match ?x with _ => _ end) => destruct x
      | |- Preserves _ (if ?b then _ else _) => destruct b
      end ].

(** *** The trace only grows, and only [setup] writes [window] *)

#[local] Instance grows_preorder : PreOrder grows.
Proof.
  split.
  - intros st. by split.
  - intros s1 s2 s3 [H1 W1] [H2 W2]. split; [by etrans | congruence].
Qed.

Section Grows.
Context (env : Env).

Lemma grows_append tr st : grows st (append_trace tr st).
Proof. split; [by apply prefix_app_r | done]. Qed.

Lemma grows_effect e : Preserves grows (effect e).
Proof. intros st. apply grows_append. Qed.

Lemma grows_lift {A} (r : result A) : Preserves grows (lift r).
Proof. intros st. simpl. reflexivity. Qed.

Lemma grows_createWithMemory : Preserves grows createWithMemory.
Proof. intros st. split; [by apply prefix_app_r | done]. Qed.

Lemma grows_get_buffers : Preserves grows get_buffers.
Proof. intros st. simpl. reflexivity. Qed.

Lemma grows_set_buffers b : Preserves grows (set_buffers b).
Proof. intros st. by split. Qed.

Lemma grows_get_replicators : Preserves grows get_replicators.
Proof. intros st. simpl. reflexivity. Qed.

Lemma grows_set_replicators r : Preserves grows (set_replicators r).
Proof. intros st. by split. Qed.

Lemma grows_get_listeners : Preserves grows get_listeners.
Proof. intros st. simpl. reflexivity. Qed.

Lemma grows_set_listeners l : Preserves grows (set_listeners l).
Proof. intros st. by split. Qed.

Lemma grows_get_window : Preserves grows get_window.
Proof. intros st. simpl. reflexivity. Qed.

Create HintDb grows.

Hint Resolve grows_effect grows_lift grows_createWithMemory grows_get_buffers
  grows_set_buffers grows_get_replicators grows_set_replicators
  grows_get_listeners grows_set_listeners grows_get_window : grows.

Ltac grows := repeat (solve [auto with grows] || preserves_step).

Lemma grows_get_member v k : Preserves grows (get_member v k).
Proof. unfold get_member. grows. Qed.

Lemma grows_set_member v k x : Preserves grows (set_member v k x).
Proof. unfold set_member. grows. Qed.

Lemma grows_logToConsoleError err : Preserves grows (logToConsoleError env err).
Proof. unfold logToConsoleError. pose proof grows_get_member. grows. Qed.

Lemma grows_call_handler h x : Preserves grows (call_handler env h x).
Proof.
  pose proof grows_logToConsoleError.
  destruct h; unfold call_handler, push_n, push_e, read_buffer, write_buffer,
    proxy_inject; grows.
Qed.

Lemma grows_deliver name s : Preserves grows (deliver env name s).
Proof.
  pose proof grows_call_handler.
  unfold deliver, read_replicator, call_field. grows.
Qed.

Lemma grows_emit ev : Preserves grows (emit env ev).
Proof. pose proof grows_deliver. unfold emit. grows. Qed.

Lemma grows_call_hasOwnProperty {A} (to_value : A → value) obj name :
  Preserves grows (call_hasOwnProperty env to_value obj name).
Proof. unfold call_hasOwnProperty. grows. Qed.

Lemma grows_makeSinkProxies_loop drivers names sinkProxies :
  Preserves grows (makeSinkProxies_loop env drivers names sinkProxies).
Proof.
  pose proof (@grows_call_hasOwnProperty (property value)).
  revert sinkProxies. induction names as [|name names IH]; intros; simpl; grows.
Qed.

Lemma grows_call_driver f proxy name :
  Preserves grows (call_driver env f proxy name).
Proof. unfold call_driver. grows. Qed.

Lemma grows_callDrivers_loop drivers sinkProxies names srcs :
  Preserves grows (callDrivers_loop env drivers sinkProxies names srcs).
Proof.
  pose proof grows_call_driver. pose proof grows_set_member.
  pose proof (@grows_call_hasOwnProperty (property value)).
  revert srcs. induction names as [|name names IH]; intros; simpl; grows.
Qed.

Lemma grows_adaptSources_loop names srcs :
  Preserves grows (adaptSources_loop env names srcs).
Proof.
  pose proof grows_get_member.
  pose proof (@grows_call_hasOwnProperty value).
  revert srcs. induction names as [|name names IH]; intros; simpl; grows.
Qed.

Lemma grows_call_main main srcs : Preserves grows (call_main env main srcs).
Proof. pose proof grows_emit. unfold call_main. grows. Qed.

End Grows.

(** *** During [setup] nothing is subscribed and no proxy is written *)

#[local] Instance quiet_preorder : PreOrder quiet.
Proof.
  split.
  - intros st H. split; [done|]. exists []. by rewrite app_nil_r.
  - intros s1 s2 s3 H1 H2 H. destruct (H1 H) as (L1 & t1 & E1 & F1).
    destruct (H2 L1) as (L2 & t2 & E2 & F2). split; [done|].
    exists (t1 ++ t2). rewrite E2, E1, app_assoc. split; [done|].
    by apply Forall_app.
Qed.

Lemma setup_effect_proxy_log p tr : Forall setup_effect tr → proxy_log p tr = [].
Proof.
  induction 1 as [|e tr He _ IH]; [done|].
  change (e :: tr) with ([e] ++ tr). rewrite proxy_log_app, IH.
  by destruct e.
Qed.

Lemma setup_effect_diagnostics tr : Forall setup_effect tr → diagnostics tr = [].
Proof.
  induction 1 as [|e tr He _ IH]; [done|].
  change (e :: tr) with ([e] ++ tr). rewrite diagnostics_app, IH.
  by destruct e.
Qed.

Section Quiet.
Context (env : Env).

Lemma quiet_same st st' :
  st_listeners st' = st_listeners st → st_trace st' = st_trace st → quiet st st'.
Proof.
  intros HL HT H. split; [congruence|]. exists []. by rewrite app_nil_r.
Qed.

Lemma quiet_effect e : setup_effect e → Preserves quiet (effect e).
Proof.
  intros He st H. split; [done|]. exists [e]. split; [done|].
  by apply Forall_singleton.
Qed.

Lemma quiet_lift {A} (r : result A) : Preserves quiet (lift r).
Proof. intros st. simpl. reflexivity. Qed.

Lemma quiet_createWithMemory : Preserves quiet createWithMemory.
Proof.
  intros st H. split; [done|]. exists [ECreateProxy (st_next_proxy st)].
  split; [done|]. by apply Forall_singleton.
Qed.

Lemma quiet_get_window : Preserves quiet get_window.
Proof. intros st. simpl. reflexivity. Qed.

Lemma quiet_set_window w : Preserves quiet (set_window w).
Proof. intros st. by apply quiet_same. Qed.

Lemma quiet_get_member v k : Preserves quiet (get_member v k).
Proof. unfold get_member. repeat preserves_step. Qed.

Lemma quiet_set_member v k x : Preserves quiet (set_member v k x).
Proof. unfold set_member. repeat preserves_step. Qed.

Lemma emit_no_listeners ev st :
  st_listeners st = [] → emit env ev st = (Ok tt, st).
Proof. intros H. unfold emit, get_listeners. rewrite bind_unfold, H. done. Qed.

Lemma quiet_emit ev : Preserves quiet (emit env ev).
Proof. intros st H. rewrite emit_no_listeners by done. by apply quiet_same. Qed.

Create HintDb quiet.

Hint Resolve quiet_lift quiet_createWithMemory quiet_get_window
  quiet_set_window quiet_get_member quiet_set_member quiet_emit : quiet.
Hint Extern 1 (Preserves quiet (effect _)) =>
  (apply quiet_effect; exact I) : quiet.

Ltac quiet := repeat (solve [auto with quiet] || preserves_step).

Lemma quiet_call_hasOwnProperty {A} (to_value : A → value) obj name :
  Preserves quiet (call_hasOwnProperty env to_value obj name).
Proof. unfold call_hasOwnProperty. quiet. Qed.

Lemma quiet_makeSinkProxies_loop drivers names sinkProxies :
  Preserves quiet (makeSinkProxies_loop env drivers names sinkProxies).
Proof.
  pose proof (@quiet_call_hasOwnProperty (property value)).
  revert sinkProxies. induction names as [|name names IH]; intros; simpl; quiet.
Qed.

Lemma quiet_callDrivers_loop drivers sinkProxies names srcs :
  Preserves quiet (callDrivers_loop env drivers sinkProxies names srcs).
Proof.
  pose proof (@quiet_call_hasOwnProperty (property value)).
  revert srcs. induction names as [|name names IH]; intros; simpl;
    unfold call_driver; quiet.
Qed.

Lemma quiet_adaptSources_loop names srcs :
  Preserves quiet (adaptSources_loop env names srcs).
Proof.
  pose proof (@quiet_call_hasOwnProperty value).
  revert srcs. induction names as [|name names IH]; intros; simpl; quiet.
Qed.

Lemma quiet_call_main main srcs : Preserves quiet (call_main env main srcs).
Proof. unfold call_main. quiet. Qed.

Lemma quiet_setup main drivers : Preserves quiet (setup env main drivers).
Proof.
  pose proof quiet_makeSinkProxies_loop. pose proof quiet_callDrivers_loop.
  pose proof quiet_adaptSources_loop. pose proof quiet_call_main.
  unfold setup, isObjectEmpty, makeSinkProxies, callDrivers, adaptSources.
  quiet.
Qed.

(** After [setup] from the initial state: no listener, and a trace without
    any injection into a proxy and without console output. *)
Lemma setup_initial main drivers w r st :
  setup env main drivers (initial w) = (r, st) →
  st_listeners st = [] ∧
  (∀ p, proxy_log p (st_trace st) = []) ∧
  diagnostics (st_trace st) = [].
Proof.
  intros H. pose proof (quiet_setup main drivers (initial w)) as Hq.
  rewrite H in Hq. destruct (Hq eq_refl) as (HL & tr & HT & HF). simpl in *.
  rewrite HT. split; [done|]. split.
  - intros p. by apply setup_effect_proxy_log.
  - by apply setup_effect_diagnostics.
Qed.

End Quiet.

(** ** makeSinkProxies, callDrivers, adaptSources *)

Lemma NoDup_keys_filter {A} (P : string * A → bool) (props : list (string * A)) :
  NoDup (fst <$> props) → NoDup (fst <$> List.filter P props).
Proof.
  induction props as [|[k a] props IH]; simpl; [done|].
  rewrite NoDup_cons. intros [Hk Hnd]. destruct (P (k, a)); simpl; [|auto].
  apply NoDup_cons. split; [|auto].
  intros Hin. apply Hk. apply list_elem_of_fmap in Hin as ([k' a'] & -> & Hin).
  apply list_elem_of_In, filter_In in Hin as [Hin _].
  apply list_elem_of_fmap. exists (k', a'). split; [done|].
  by apply list_elem_of_In.
Qed.

Lemma for_in_keys {A} (P : A → bool) (props : list (string * A)) name :
  name ∈ for_in P props → name ∈ fst <$> props.
Proof.
  unfold for_in. intros ([k a] & -> & Hin)%list_elem_of_fmap.
  apply list_elem_of_In, filter_In in Hin as [Hin _].
  apply list_elem_of_fmap. exists (k, a). split; [done|].
  by apply list_elem_of_In.
Qed.

Lemma for_in_all {A} (props : list (string * A)) :
  for_in (fun _ => true) props = fst <$> props.
Proof.
  unfold for_in. f_equal. induction props as [|kv props IH]; simpl; congruence.
Qed.

Lemma allocate_S k st : allocate k (allocate 1 st) = allocate (S k) st.
Proof.
  unfold allocate. simpl. f_equal.
  - by rewrite <- app_assoc.
  - lia.
Qed.

Lemma ordinary_keys_unshadowed {A} (obj : list (string * A)) :
  ordinary_keys obj → unshadowed obj.
Proof. intros [H _]. by apply own_property_None. Qed.

Lemma call_hasOwnProperty_unshadowed env {A} (to_value : A → value) obj name st :
  unshadowed obj →
  call_hasOwnProperty env to_value obj name st =
    (Ok (hasOwnProperty obj name), st).
Proof. intros H. unfold call_hasOwnProperty. by rewrite H. Qed.

(** The guard touches nothing but the trace. *)
Lemma call_hasOwnProperty_state env {A} (to_value : A → value) obj name
    st r st' :
  call_hasOwnProperty env to_value obj name st = (r, st') →
  ∃ t, st' = append_trace t st.
Proof.
  unfold call_hasOwnProperty.
  destruct (own_property obj "hasOwnProperty") as [a|].
  - destruct (to_value a) as [| |b|n|s|f|props];
      try (intros [= _ <-]; exists []; by rewrite append_trace_nil).
    rewrite bind_unfold. unfold effect. cbv beta iota. rewrite bind_unfold.
    unfold lift. destruct (env_guard env f name); intros [= _ <-];
      by eexists.
  - intros [= _ <-]. exists []. by rewrite append_trace_nil.
Qed.

Lemma makeSinkProxies_loop_spec env drivers names acc st :
  unshadowed drivers →
  (∀ n, n ∈ names → n ∈ fst <$> drivers) →
  NoDup names →
  (∀ n, n ∈ names → n ∉ fst <$> acc) →
  makeSinkProxies_loop env drivers names acc st =
  (Ok (acc ++ zip names (seq (st_next_proxy st) (length names))),
   allocate (length names) st).
Proof.
  intros Hplain. revert acc st.
  induction names as [|name names IH]; intros acc st Hin Hnd Hfresh.
  - simpl. unfold allocate. simpl. rewrite !app_nil_r. by destruct st.
  - simpl. apply NoDup_cons in Hnd as [Hname Hnd].
    rewrite bind_unfold, call_hasOwnProperty_unshadowed by done.
    assert (hasOwnProperty drivers name = true) as ->.
    { apply hasOwnProperty_true, Hin, list_elem_of_here. }
    rewrite bind_unfold.
    change (createWithMemory st) with (Ok (st_next_proxy st), allocate 1 st).
    cbv beta iota.
    rewrite assign_fresh by (apply Hfresh, list_elem_of_here).
    rewrite IH; [| |done|].
    + by rewrite allocate_S, <- app_assoc.
    + intros n Hn. apply Hin. by apply list_elem_of_further.
    + intros n Hn. rewrite fmap_app, elem_of_app. simpl.
      intros [Hacc|Heq%list_elem_of_singleton].
      * eapply Hfresh; [|exact Hacc]. by apply list_elem_of_further.
      * congruence.
Qed.

Lemma makeSinkProxies_spec env drivers st :
  unshadowed drivers →
  NoDup (fst <$> drivers) →
  makeSinkProxies env drivers st =
  (Ok (zip (Object_keys drivers)
           (seq (st_next_proxy st) (length (Object_keys drivers)))),
   allocate (length (Object_keys drivers)) st).
Proof.
  intros Hplain Hnd. unfold makeSinkProxies.
  change (for_in p_enumerable drivers) with (Object_keys drivers).
  rewrite makeSinkProxies_loop_spec; [done|done| | |].
  - intros n. apply for_in_keys.
  - by apply NoDup_keys_filter.
  - intros n _. apply not_elem_of_nil.
Qed.

(** Whatever the guard answers, the proxies that [makeSinkProxies] binds are
    fresh and pairwise distinct, and they are bound to distinct keys of the
    registry. *)
Lemma makeSinkProxies_loop_sound env drivers names acc st acc' st' :
  NoDup names →
  (∀ n, n ∈ names → n ∉ fst <$> acc) →
  NoDup (fst <$> acc) →
  NoDup (snd <$> acc) →
  (∀ p, p ∈ snd <$> acc → p < st_next_proxy st) →
  makeSinkProxies_loop env drivers names acc st = (Ok acc', st') →
  NoDup (fst <$> acc') ∧ NoDup (snd <$> acc') ∧
  (∀ n, n ∈ fst <$> acc' → n ∈ fst <$> acc ∨ n ∈ names).
Proof.
  intros Hnd. revert acc st.
  induction Hnd as [|name names Hname Hnd IH];
    intros acc st Hfresh Hk Hp Hlt.
  - intros [= <- <-]. split_and!; [done..|]. by left.
  - cbn [makeSinkProxies_loop].
    intros (own & s1 & Hguard & H)%bind_Ok_inv.
    apply call_hasOwnProperty_state in Hguard as (t & ->).
    assert (∀ n, n ∈ names → n ∉ fst <$> acc) as Hfresh'.
    { intros n Hn. apply Hfresh. by apply list_elem_of_further. }
    destruct own.
    + rewrite bind_unfold in H.
      change (createWithMemory (append_trace t st))
        with (Ok (st_next_proxy st), allocate 1 (append_trace t st)) in H.
      cbv beta iota in H.
      assert (name ∉ fst <$> acc) as Hn by apply Hfresh, list_elem_of_here.
      rewrite assign_fresh in H by done.
      apply IH in H as (H1 & H2 & H3).
      * split_and!; [done..|]. intros n Hin.
        destruct (H3 n Hin) as [Hacc|Hn']; [|right; by right].
        rewrite fmap_app, elem_of_app in Hacc. simpl in Hacc.
        destruct Hacc as [?|Heq]; [by left|].
        apply list_elem_of_singleton in Heq as ->. right. by left.
      * intros n Hn'. rewrite fmap_app, elem_of_app. simpl.
        intros [Hacc|Heq%list_elem_of_singleton];
          [by eapply Hfresh'|by subst].
      * rewrite fmap_app. simpl. apply NoDup_app. split_and!; [done| |].
        -- intros n Hacc Heq%list_elem_of_singleton. by subst.
        -- apply NoDup_singleton.
      * rewrite fmap_app. simpl. apply NoDup_app. split_and!; [done| |].
        -- intros p Hacc Heq%list_elem_of_singleton. subst.
           apply Hlt in Hacc. lia.
        -- apply NoDup_singleton.
      * intros p. rewrite fmap_app, elem_of_app. simpl.
        intros [Hacc|Heq%list_elem_of_singleton];
          [apply Hlt in Hacc|subst]; lia.
    + apply IH in H as (H1 & H2 & H3); [|done..].
      split_and!; [done..|]. intros n Hin.
      destruct (H3 n Hin); [by left|right; by right].
Qed.

Lemma makeSinkProxies_sound env drivers st proxies st' :
  NoDup (fst <$> drivers) →
  makeSinkProxies env drivers st = (Ok proxies, st') →
  NoDup (fst <$> proxies) ∧ NoDup (snd <$> proxies) ∧
  (∀ n, n ∈ fst <$> proxies → n ∈ Object_keys drivers).
Proof.
  intros Hnd H. unfold makeSinkProxies in H.
  apply makeSinkProxies_loop_sound in H as (H1 & H2 & H3).
  - split_and!; [done..|]. intros n Hn.
    destruct (H3 n Hn) as [Hnil|?]; [by apply elem_of_nil in Hnil|done].
  - by apply NoDup_keys_filter.
  - intros n _. apply not_elem_of_nil.
  - apply NoDup_nil_2.
  - apply NoDup_nil_2.
  - intros p Hp. by apply elem_of_nil in Hp.
Qed.

Section Setup.
Context (env : Env).

Lemma call_driver_Ok f proxy name st r st' :
  call_driver env f proxy name st = (Ok r, st') →
  ∃ g, f = VFun g ∧ env_driver env g proxy name = Ok r ∧
       st' = append_trace [ECallDriver name g proxy] st.
Proof.
  destruct f; try done. unfold call_driver. rewrite bind_unfold. simpl.
  unfold lift. intros [= Hr <-]. eauto.
Qed.

Lemma is_object_true r : is_object r = true ↔ ∃ props, r = VObj props.
Proof.
  split; [|by intros [props ->]]. unfold is_object.
  destruct r; simpl; rewrite ?andb_false_r; try done. eauto.
Qed.

Lemma set_member_tag r name st r' st' :
  is_object r = true →
  set_member r tag (VStr name) st = (Ok r', st') →
  st' = st ∧ tagged_source r name r'.
Proof.
  intros [props ->]%is_object_true. unfold set_member.
  destruct (own_property props tag) as [p|] eqn:Hp.
  - destruct (p_writable p); [|done]. intros [= <- <-]. split; [done|].
    eexists _, _. split; [done|]. rewrite own_property_assign, decide_True by done.
    split_and!; [done..| |].
    + by rewrite Hp.
    + intros k Hk. by rewrite own_property_assign, decide_False by done.
  - intros [= <- <-]. split; [done|].
    eexists _, _. split; [done|]. rewrite own_property_assign, decide_True by done.
    split_and!; [done..|].
    intros k Hk. by rewrite own_property_assign, decide_False by done.
Qed.

Lemma tagged_source_not_object r name :
  is_object r = false → tagged_source r name r.
Proof. by destruct r. Qed.

Lemma callDrivers_loop_Ok drivers proxies names srcs st srcs' st' :
  unshadowed drivers →
  (∀ n, n ∈ names → n ∈ fst <$> drivers) →
  NoDup names →
  (∀ n, n ∈ names → n ∉ fst <$> srcs) →
  callDrivers_loop env drivers proxies names srcs st = (Ok srcs', st') →
  fst <$> srcs' = (fst <$> srcs) ++ names ∧
  (∀ k, k ∉ names → own_property srcs' k = own_property srcs k) ∧
  (∀ name, name ∈ names →
     ∃ g r v,
       p_value <$> own_property drivers name = Some (VFun g) ∧
       env_driver env g (js_get proxies name) name = Ok r ∧
       own_property srcs' name = Some v ∧
       tagged_source r name v).
Proof.
  intros Hplain. revert srcs st. induction names as [|name names IH];
    intros srcs st Hin Hnd Hfresh; simpl.
  - intros [= <- <-]. rewrite app_nil_r. split; [done|]. split; [done|].
    intros name H. by apply elem_of_nil in H.
  - apply NoDup_cons in Hnd as [Hname Hnd].
    assert (name ∈ fst <$> drivers) as Hown by apply Hin, list_elem_of_here.
    rewrite bind_unfold, call_hasOwnProperty_unshadowed by done.
    assert (hasOwnProperty drivers name = true) as -> by by apply hasOwnProperty_true.
    apply own_property_is_Some in Hown as [pd Hpd]. rewrite Hpd. simpl.
    intros (r & st1 & Hcall & Hrest)%bind_Ok_inv.
    apply call_driver_Ok in Hcall as (g & Hg & Hr & ->).
    assert (name ∉ fst <$> srcs) as Hn by apply Hfresh, list_elem_of_here.
    assert (∃ v st2,
      callDrivers_loop env drivers proxies names (assign srcs name v) st2
        = (Ok srcs', st') ∧ tagged_source r name v) as (v & st2 & Hloop & Hv).
    { destruct (is_object r) eqn:Hobj.
      - apply bind_Ok_inv in Hrest as (r' & st2 & Hset & Hrest).
        apply set_member_tag in Hset as [-> Ht]; [|done].
        exists r', (append_trace [ECallDriver name g (js_get proxies name)] st).
        split; [|done]. by rewrite <- Hrest, assign_assign.
      - eexists _, _. split; [exact Hrest|].
        by apply tagged_source_not_object. }
    apply IH in Hloop as (Hkeys & Hother & Hnames); [| |done|].
    + rewrite assign_fresh in Hkeys by done.
      rewrite fmap_app, <- app_assoc in Hkeys. split; [done|]. split.
      * intros k [Hk1 Hk2]%not_elem_of_cons. rewrite Hother by done.
        by rewrite own_property_assign, decide_False by done.
      * intros n [->|Hn']%elem_of_cons; [|by apply Hnames].
        exists g, r, v. rewrite Hpd. simpl. rewrite Hg.
        split_and!; [done..| |done].
        rewrite Hother by done. by rewrite own_property_assign, decide_True.
    + intros n Hn'. apply Hin. by apply list_elem_of_further.
    + intros n Hn'. rewrite assign_fresh, fmap_app, elem_of_app by done. simpl.
      intros [Hs|Heq%list_elem_of_singleton].
      * eapply Hfresh; [|exact Hs]. by apply list_elem_of_further.
      * congruence.
Qed.

Lemma adaptSources_loop_keys names srcs st srcs' st' :
  (∀ n, n ∈ names → n ∈ fst <$> srcs) →
  adaptSources_loop env names srcs st = (Ok srcs', st') →
  fst <$> srcs' = fst <$> srcs.
Proof.
  revert srcs st. induction names as [|name names IH]; intros srcs st Hin;
    simpl.
  - by intros [= <- <-].
  - assert (∀ n, n ∈ names → n ∈ fst <$> srcs) as Hin'.
    { intros n Hn. apply Hin. by apply list_elem_of_further. }
    intros (own & s0 & _ & H)%bind_Ok_inv.
    destruct (own && truthy _); [|by eapply IH].
    apply bind_Ok_inv in H as (m & st1 & _ & Hrest).
    destruct (is_function m); [|by eapply IH].
    apply bind_Ok_inv in Hrest as (? & st2 & _ & Hrest).
    apply bind_Ok_inv in Hrest as (a & st3 & _ & Hrest).
    assert (fst <$> assign srcs name a = fst <$> srcs) as Hkeys.
    { apply keys_assign_present, Hin, list_elem_of_here. }
    apply IH in Hrest; [|by rewrite Hkeys]. by rewrite Hrest.
Qed.

Lemma adaptSources_keys srcs st srcs' st' :
  adaptSources env srcs st = (Ok srcs', st') →
  fst <$> srcs' = fst <$> srcs.
Proof.
  unfold adaptSources. apply adaptSources_loop_keys.
  intros n. apply for_in_keys.
Qed.

(** Whatever the guard answers, the sources that [callDrivers] stores are
    stored under distinct keys of the registry. *)
Lemma callDrivers_loop_sound drivers proxies names srcs st srcs' st' :
  NoDup names →
  (∀ n, n ∈ names → n ∉ fst <$> srcs) →
  NoDup (fst <$> srcs) →
  callDrivers_loop env drivers proxies names srcs st = (Ok srcs', st') →
  NoDup (fst <$> srcs') ∧
  (∀ n, n ∈ fst <$> srcs' → n ∈ fst <$> srcs ∨ n ∈ names).
Proof.
  intros Hnd. revert srcs st.
  induction Hnd as [|name names Hname Hnd IH]; intros srcs st Hfresh Hk.
  - intros [= <- <-]. split; [done|]. by left.
  - cbn [callDrivers_loop].
    intros (own & s1 & _ & H)%bind_Ok_inv.
    assert (∀ n, n ∈ names → n ∉ fst <$> srcs) as Hfresh'.
    { intros n Hn. apply Hfresh. by apply list_elem_of_further. }
    assert (name ∉ fst <$> srcs) as Hn by apply Hfresh, list_elem_of_here.
    assert (∀ v s2,
      callDrivers_loop env drivers proxies names (assign srcs name v) s2
        = (Ok srcs', st') →
      NoDup (fst <$> srcs') ∧
      (∀ n, n ∈ fst <$> srcs' → n ∈ fst <$> srcs ∨ n ∈ name :: names))
      as Hstep.
    { intros v s2 Hloop. rewrite assign_fresh in Hloop by done.
      apply IH in Hloop as (H1 & H2).
      - split; [done|]. intros n Hin.
        destruct (H2 n Hin) as [Hacc|?]; [|right; by right].
        rewrite fmap_app, elem_of_app in Hacc. simpl in Hacc.
        destruct Hacc as [?|Heq]; [by left|].
        apply list_elem_of_singleton in Heq as ->. right. by left.
      - intros n Hn'. rewrite fmap_app, elem_of_app. simpl.
        intros [Hacc|Heq%list_elem_of_singleton];
          [by eapply Hfresh'|by subst].
      - rewrite fmap_app. simpl. apply NoDup_app. split_and!; [done| |].
        + intros n Hacc Heq%list_elem_of_singleton. by subst.
        + apply NoDup_singleton. }
    destruct own.
    + cbv zeta in H. apply bind_Ok_inv in H as (r & s2 & _ & H).
      destruct (is_object r).
      * apply bind_Ok_inv in H as (r' & s3 & _ & H).
        rewrite assign_assign in H. by eapply Hstep.
      * by eapply Hstep.
    + apply IH in H as (H1 & H2); [|done..]. split; [done|].
      intros n Hin. destruct (H2 n Hin); [by left|right; by right].
Qed.

Lemma callDrivers_sound drivers proxies st srcs st' :
  NoDup (fst <$> drivers) →
  callDrivers env drivers proxies st = (Ok srcs, st') →
  NoDup (fst <$> srcs).
Proof.
  intros Hnd H. unfold callDrivers in H.
  apply callDrivers_loop_sound in H as [H _]; [done| | |].
  - by apply NoDup_keys_filter.
  - intros n _. apply not_elem_of_nil.
  - apply NoDup_nil_2.
Qed.

End Setup.

(** ** setup *)

Section SetupSpec.
Context (env : Env).

Lemma setup_invalid main drivers st :
  invalid_arguments main drivers →
  ∃ msg, setup env main drivers st = (Throw (Error msg), st).
Proof.
  unfold setup. intros Hinv.
  case_bool_decide as Hmain; simpl; [|by eexists].
  case_bool_decide as Hdrv; simpl; [|by eexists].
  destruct (is_null drivers) eqn:Hnull; [by eexists|].
  destruct Hinv as [?|[?|[->|Hkeys]]]; [done..|].
  destruct drivers; try done. simpl in Hkeys.
  rewrite bind_unfold. simpl. rewrite Hkeys. simpl. by eexists.
Qed.

Lemma setup_valid main drivers st :
  ¬ invalid_arguments main drivers →
  ∃ props,
    drivers = VObj props ∧
    setup env main drivers st =
    (sinkProxies ← makeSinkProxies env props;
     srcs ← callDrivers env props sinkProxies;
     adaptedSources ← adaptSources env srcs;
     snks ← call_main env main adaptedSources;
     w ← get_window;
     set_window (publish snks w);;
     mret {| sources := adaptedSources; sinks := snks;
             run_sinkProxies := sinkProxies |}) st.
Proof.
  unfold invalid_arguments, setup. intros Hvalid.
  case_bool_decide as Hmain; simpl; [|tauto].
  case_bool_decide as Hdrv; simpl; [|tauto].
  destruct drivers as [| |b|n|s|f|props]; try done; [tauto|].
  exists props. split; [done|]. simpl in *.
  rewrite bind_unfold. simpl.
  destruct (Object_keys props) eqn:Hkeys; [tauto|]. simpl.
  rewrite !bind_unfold. destruct (makeSinkProxies _ _ _) as [[sp|?] s1]; [|done].
  rewrite !bind_unfold. destruct (callDrivers _ _ _ _) as [[srcs|?] s2]; [|done].
  rewrite !bind_unfold. destruct (adaptSources _ _ _) as [[ad|?] s3]; [|done].
  rewrite !bind_unfold. destruct (call_main _ _ _ _) as [[snks|?] s4]; [|done].
  rewrite !bind_unfold. simpl. by destruct s4 as [? ? [[[cj|]]|] ? ? ?].
Qed.

Lemma invalid_arguments_dec main drivers :
  Decision (invalid_arguments main drivers).
Proof.
  unfold invalid_arguments.
  assert (Decision (drivers = VNull)).
  { destruct drivers; (by left) || (by right). }
  apply _.
Qed.

Lemma setup_Ok_inv main drivers st0 prog st :
  setup env main drivers st0 = (Ok prog, st) →
  ∃ props sA srcs0 sB sC sD,
    drivers = VObj props ∧
    makeSinkProxies env props st0 = (Ok (run_sinkProxies prog), sA) ∧
    callDrivers env props (run_sinkProxies prog) sA = (Ok srcs0, sB) ∧
    adaptSources env srcs0 sB = (Ok (sources prog), sC) ∧
    call_main env main (sources prog) sC = (Ok (sinks prog), sD) ∧
    st_trace st = st_trace sD ∧
    st_listeners st = st_listeners sD ∧
    st_next_proxy st = st_next_proxy sD ∧
    st_window st = publish (sinks prog) (st_window sD).
Proof.
  intros H. destruct (invalid_arguments_dec main drivers) as [Hinv|Hvalid].
  { apply (setup_invalid _ _ st0) in Hinv as [msg Hmsg]. congruence. }
  apply (setup_valid _ _ st0) in Hvalid as (props & -> & Heq).
  rewrite Heq in H. clear Heq. exists props.
  apply bind_Ok_inv in H as (sp & sA & HA & H).
  apply bind_Ok_inv in H as (srcs0 & sB & HB & H).
  apply bind_Ok_inv in H as (ad & sC & HC & H).
  apply bind_Ok_inv in H as (snks & sD & HD & H).
  rewrite !bind_unfold in H. simpl in H. injection H as <- <-. simpl.
  by exists sA, srcs0, sB, sC, sD.
Qed.

End SetupSpec.

(** ** Theorems about [setup] *)

Lemma preserves_eq {A} (R : relation State) (m : M A) st r st' :
  Preserves R m → m st = (r, st') → R st st'.
Proof. intros H E. specialize (H st). by rewrite E in H. Qed.

(** ** Errors of the file and errors of external code *)

Lemma trace_length_grows {A} (m : M A) st r st' :
  Preserves grows m → m st = (r, st') →
  (List.length (st_trace st) <= List.length (st_trace st'))%nat.
Proof.
  intros Hm H. apply (preserves_eq grows) in H as [[k ->] _]; [|done].
  rewrite length_app. lia.
Qed.

Lemma loud_ret {A} (a : A) : Loud (mret a).
Proof. by intros st msg st'. Qed.

Lemma loud_TypeError {A} msg : Loud (@throw A (TypeError msg)).
Proof. by intros st m st'. Qed.

Lemma loud_bind {A B} (m : M A) (k : A → M B) :
  Preserves grows m → Loud m → (∀ a, Loud (k a)) → Loud (m ≫= k).
Proof.
  intros Hg Hm Hk st msg st'. rewrite bind_unfold.
  destruct (m st) as [[a|e] s1] eqn:H1.
  - intros H%Hk. pose proof (trace_length_grows _ _ _ _ Hg H1). lia.
  - intros [= -> ->]. by eapply Hm.
Qed.

(** After an effect, whatever follows is loud. *)
Lemma loud_effect {B} e (k : M B) :
  Preserves grows k → Loud (effect e;; k).
Proof.
  intros Hk st msg st'. rewrite bind_unfold. unfold effect. cbv beta iota.
  intros H. eapply trace_length_grows in H; [|done]. simpl in H.
  rewrite length_app in H. simpl in H. lia.
Qed.

Lemma loud_call_hasOwnProperty env {A} (to_value : A → value) obj name :
  Loud (call_hasOwnProperty env to_value obj name).
Proof.
  unfold call_hasOwnProperty.
  destruct (own_property obj "hasOwnProperty") as [a|]; [|apply loud_ret].
  destruct (to_value a); try apply loud_TypeError.
  apply loud_effect. apply preserves_bind; [apply _| |intros ?].
  - apply grows_lift.
  - apply preserves_ret. apply _.
Qed.

Lemma loud_makeSinkProxies_loop env drivers names acc :
  Loud (makeSinkProxies_loop env drivers names acc).
Proof.
  revert acc. induction names as [|name names IH]; intros acc; simpl;
    [apply loud_ret|].
  apply loud_bind;
    [apply grows_call_hasOwnProperty|apply loud_call_hasOwnProperty|].
  intros []; [|apply IH].
  apply loud_bind; [apply grows_createWithMemory|by intros st msg st'|].
  intros p. apply IH.
Qed.

Lemma loud_set_member v k x : Loud (set_member v k x).
Proof.
  unfold set_member. destruct v; try apply loud_ret.
  destruct (own_property props k) as [p|]; [|apply loud_ret].
  destruct (p_writable p); [apply loud_ret|apply loud_TypeError].
Qed.

Lemma loud_get_member v k : Loud (get_member v k).
Proof.
  unfold get_member. destruct v; try apply loud_ret; apply loud_TypeError.
Qed.

Lemma loud_callDrivers_loop env drivers proxies names srcs :
  Loud (callDrivers_loop env drivers proxies names srcs).
Proof.
  revert srcs. induction names as [|name names IH]; intros srcs; simpl;
    [apply loud_ret|].
  apply loud_bind;
    [apply grows_call_hasOwnProperty|apply loud_call_hasOwnProperty|].
  intros []; [|apply IH].
  apply loud_bind; [apply grows_call_driver| |].
  - unfold call_driver. destruct (from_option _ _ _); try apply loud_TypeError.
    apply loud_effect, grows_lift.
  - intros r. destruct (is_object r); [|apply IH].
    apply loud_bind; [apply grows_set_member|apply loud_set_member|].
    intros r'. apply IH.
Qed.

Lemma loud_adaptSources_loop env names srcs :
  Loud (adaptSources_loop env names srcs).
Proof.
  revert srcs. induction names as [|name names IH]; intros srcs; simpl;
    [apply loud_ret|].
  apply loud_bind;
    [apply grows_call_hasOwnProperty|apply loud_call_hasOwnProperty|].
  intros own. destruct (own && truthy _); [|apply IH].
  apply loud_bind; [apply grows_get_member|apply loud_get_member|].
  intros m. destruct (is_function m); [|apply IH].
  apply loud_effect. apply preserves_bind; [apply _| |intros ?].
  - apply grows_lift.
  - apply grows_adaptSources_loop.
Qed.

Lemma loud_call_main env main srcs : Loud (call_main env main srcs).
Proof.
  unfold call_main. destruct main; try apply loud_TypeError.
  apply loud_effect. pose proof (grows_emit env).
  apply preserves_bind; [apply _|apply grows_lift|intros ?].
  apply preserves_bind; [apply _| |intros ?].
  - by apply preserves_forEach; [apply _|].
  - apply preserves_ret. apply _.
Qed.

(** What [setup] does after its three checks. *)
Lemma loud_setup_body env main props st msg :
  (sinkProxies ← makeSinkProxies env props;
   srcs ← callDrivers env props sinkProxies;
   adaptedSources ← adaptSources env srcs;
   snks ← call_main env main adaptedSources;
   w ← get_window;
   set_window (publish snks w);;
   mret {| sources := adaptedSources; sinks := snks;
           run_sinkProxies := sinkProxies |}) st
  = (Throw (Error msg), st) →
  List.length (st_trace st) < List.length (st_trace st).
Proof.
  apply (loud_bind _ _ (grows_makeSinkProxies_loop env _ _ _)
           (loud_makeSinkProxies_loop env _ _ _)).
  intros sp.
  apply (loud_bind _ _ (grows_callDrivers_loop env _ _ _ _)
           (loud_callDrivers_loop env _ _ _ _)).
  intros srcs.
  apply (loud_bind _ _ (grows_adaptSources_loop env _ _)
           (loud_adaptSources_loop env _ _)).
  intros ad.
  apply (loud_bind _ _ (grows_call_main env _ _) (loud_call_main env _ _)).
  intros snks st1 m st1'. by rewrite !bind_unfold.
Qed.

Lemma makeSinkProxies_first env props st :
  unshadowed props →
  Object_keys props ≠ [] →
  ∃ tr, st_trace (snd (makeSinkProxies env props st)) =
        st_trace st ++ ECreateProxy (st_next_proxy st) :: tr.
Proof.
  intros Hplain Hne. unfold makeSinkProxies.
  change (for_in p_enumerable props) with (Object_keys props).
  destruct (Object_keys props) as [|name names] eqn:Hkeys; [done|]. simpl.
  rewrite bind_unfold, call_hasOwnProperty_unshadowed by done.
  assert (hasOwnProperty props name = true) as ->.
  { apply hasOwnProperty_true, (for_in_keys p_enumerable).
    change (for_in p_enumerable props) with (Object_keys props).
    rewrite Hkeys. apply list_elem_of_here. }
  rewrite bind_unfold.
  change (createWithMemory st) with (Ok (st_next_proxy st), allocate 1 st).
  cbv beta iota.
  destruct (grows_makeSinkProxies_loop env props names
              (assign [] name (st_next_proxy st)) (allocate 1 st)) as [[k Hk] _].
  exists k. simpl in Hk |- *. by rewrite Hk, <- app_assoc.
Qed.




Lemma fst_zip_seq {A} (l : list A) n : fst <$> zip l (seq n (length l)) = l.
Proof. apply fst_zip. by rewrite length_seq. Qed.

Lemma snd_zip_seq {A} (l : list A) n :
  snd <$> zip l (seq n (length l)) = seq n (length l).
Proof. apply snd_zip. by rewrite length_seq. Qed.

Lemma callDrivers_keys env drivers proxies st srcs st' :
  unshadowed drivers →
  NoDup (fst <$> drivers) →
  callDrivers env drivers proxies st = (Ok srcs, st') →
  fst <$> srcs = Object_keys drivers.
Proof.
  intros Hplain Hnd H. unfold callDrivers in H.
  apply callDrivers_loop_Ok in H as (Hkeys & _).
  - done.
  - done.
  - intros n. apply for_in_keys.
  - by apply NoDup_keys_filter.
  - intros n _. apply not_elem_of_nil.
Qed.







Lemma call_main_Ok env main srcs st snks st' :
  call_main env main srcs st = (Ok snks, st') →
  ∃ f mo, main = VFun f ∧ env_main env f srcs = Ok mo ∧ snks = mo_sinks mo.
Proof.
  destruct main as [| |b|n|s|f|props]; try done. unfold call_main.
  intros ([] & s1 & _ & H)%bind_Ok_inv.
  apply bind_Ok_inv in H as (mo & s2 & Hmo & H).
  apply bind_Ok_inv in H as ([] & s3 & _ & H).
  injection H as <- _. injection Hmo as Hmo _. eauto.
Qed.

(** C10. Whenever the global [window] exists and [setup] returns, it has
    written the sink collection returned by [main] to [window.Cyclejs.sinks]:
    the object [window.Cyclejs] is created when absent and its other
    properties are kept when present.  [setup] does this itself; [run] and
    [dispose] need not be called. *)
Theorem setup_publishes_sinks env main drivers st0 prog st win :
  st_window st0 = Some win →
  setup env main drivers st0 = (Ok prog, st) →
  ∃ f mo,
    main = VFun f ∧
    env_main env f (sources prog) = Ok mo ∧
    sinks prog = mo_sinks mo ∧
    st_window st =
    Some {| w_Cyclejs :=
              Some {| cj_sinks := Some (mo_sinks mo);
                      cj_other := from_option cj_other [] (w_Cyclejs win) |} |}.
Proof.
  intros Hwin H.
  apply setup_Ok_inv in H
    as (props & sA & srcs0 & sB & sC & sD & -> & HA & HB & HC & HD & _ & _ & _ & ->).
  destruct (call_main_Ok _ _ _ _ _ _ HD) as (f & mo & -> & Hmo & Hsinks).
  exists f, mo. split_and!; [done..|].
  apply (preserves_eq grows) in HA as [_ HA];
    [|apply grows_makeSinkProxies_loop].
  apply (preserves_eq grows) in HB as [_ HB];
    [|apply grows_callDrivers_loop].
  apply (preserves_eq grows) in HC as [_ HC];
    [|apply grows_adaptSources_loop].
  apply (preserves_eq grows) in HD as [_ HD]; [|apply grows_call_main].
  rewrite HD, HC, HB, HA, Hwin, Hsinks. done.
Qed.

Lemma setup_publishes_sinks_witness :
  ∃ prog st,
    setup example_env example_main example_drivers
      (initial (Some example_window)) = (Ok prog, st) ∧
    ∃ f mo,
      example_main = VFun f ∧
      env_main example_env f (sources prog) = Ok mo ∧
      sinks prog = mo_sinks mo ∧
      st_window st =
      Some {| w_Cyclejs :=
                Some {| cj_sinks := Some (mo_sinks mo);
                        cj_other := [("version", VNum 1)] |} |}.
Proof.
  eexists _, _. split; [vm_compute; reflexivity|].
  exact (setup_publishes_sinks example_env example_main example_drivers
           (initial (Some example_window)) _ _ example_window
           eq_refl eq_refl).
Defined.

(** ** Replication *)

Section Handlers.
Context (env : Env).

Lemma logToConsoleError_Ok err st st' :
  logToConsoleError env err st = (Ok tt, st') →
  st' = append_trace (console_fx (env_console env) (diagnostic_target err)) st.
Proof.
  unfold logToConsoleError. intros (stack & s1 & Hget & H)%bind_Ok_inv.
  cbv zeta in H.
  assert (s1 = st ∧
          (if truthy stack then stack else err) = diagnostic_target err)
    as [-> Ht].
  { destruct err as [| |b|n|s|f|props]; try done;
      injection Hget as <- <-; try done.
    simpl. by destruct (own_property props "stack"). }
  rewrite Ht in H. unfold console_fx. destruct (env_console env) as [[[] []]|]; simpl in H;
    injection H as <-; try done; by rewrite append_trace_nil.
Qed.

Lemma proxy_inject_Ok listener s st st' :
  proxy_inject listener s st = (Ok tt, st') →
  (∃ p, listener = Own p) ∧ st' = append_trace (inject_fx listener s) st.
Proof. destruct listener; [|done..]. intros [= <-]. eauto. Qed.

Lemma forward_next_Ok listener x st st' :
  call_handler env (HForwardNext listener) x st = (Ok tt, st') →
  st' = append_trace (forward_fx (env_console env) listener (SNext x)) st.
Proof. simpl. by intros [_ ->]%proxy_inject_Ok. Qed.

Lemma forward_error_Ok listener err st st' :
  call_handler env (HForwardError listener) err st = (Ok tt, st') →
  st' = append_trace (forward_fx (env_console env) listener (SError err)) st.
Proof.
  simpl. intros ([] & s1 & ->%logToConsoleError_Ok & H)%bind_Ok_inv.
  apply proxy_inject_Ok in H as [_ ->]. by rewrite append_trace_app.
Qed.

Lemma forEach_forward_next_Ok listener xs st st' :
  forEach xs (call_handler env (HForwardNext listener)) st = (Ok tt, st') →
  st' = append_trace
          (flat_map (fun x => forward_fx (env_console env) listener (SNext x)) xs)
          st.
Proof.
  revert st. induction xs as [|x xs IH]; intros st; simpl.
  - intros [= <-]. by rewrite append_trace_nil.
  - intros ([] & s1 & H1 & H)%bind_Ok_inv.
    apply forward_next_Ok in H1 as ->. apply IH in H as ->.
    by rewrite append_trace_app.
Qed.

Lemma forEach_forward_error_Ok listener es st st' :
  forEach es (call_handler env (HForwardError listener)) st = (Ok tt, st') →
  st' = append_trace
          (flat_map (fun e => forward_fx (env_console env) listener (SError e)) es)
          st.
Proof.
  revert st. induction es as [|e es IH]; intros st.
  - intros [= <-]. by rewrite append_trace_nil.
  - cbn [forEach]. intros ([] & s1 & H1 & H)%bind_Ok_inv.
    apply forward_error_Ok in H1 as ->. apply IH in H as ->.
    by rewrite append_trace_app.
Qed.

(** A forwarding replicator hands every signal to its proxy. *)
Lemma deliver_forwarding name listener s st st' :
  st_replicators st !! name = Some (forwarding listener) →
  deliver env name s st = (Ok tt, st') →
  st' = append_trace (forward_fx (env_console env) listener s) st.
Proof.
  intros HR. unfold deliver, read_replicator, get_replicators.
  rewrite !bind_unfold, HR. cbv beta iota. destruct s as [x|err|].
  - apply forward_next_Ok.
  - apply forward_error_Ok.
  - simpl. intros [= <-]. by rewrite append_trace_nil.
Qed.

Lemma forEach_deliver_forwarding proxies (ls : list (nat * string)) s st st' :
  (∀ l, l ∈ ls →
     st_replicators st !! snd l = Some (forwarding (js_get proxies (snd l)))) →
  forEach ls (fun l => deliver env (snd l) s) st = (Ok tt, st') →
  st' = append_trace
          (flat_map (fun l => forward_fx (env_console env)
                                (js_get proxies (snd l)) s) ls) st.
Proof.
  revert st. induction ls as [|l ls IH]; intros st HR.
  - intros [= <-]. by rewrite append_trace_nil.
  - cbn [forEach]. intros ([] & s1 & H1 & H)%bind_Ok_inv.
    apply deliver_forwarding with (listener := js_get proxies (snd l)) in H1
      as ->; [|apply HR, list_elem_of_here].
    apply IH in H as ->; [by rewrite append_trace_app|].
    intros l' Hl'. simpl. apply HR. by apply list_elem_of_further.
Qed.

Lemma emit_forwarding proxies ev st st' :
  all_forwarding proxies st →
  emit env ev st = (Ok tt, st') →
  st' = append_trace (emit_fx (env_console env) proxies (st_listeners st) ev) st.
Proof.
  intros HF. unfold emit, get_listeners. rewrite bind_unfold. cbv beta iota.
  apply forEach_deliver_forwarding.
  intros l Hl. apply HF. apply list_elem_of_In, filter_In in Hl as [Hl _].
  by apply list_elem_of_In.
Qed.

Lemma forEach_emit_forwarding proxies evs st st' :
  all_forwarding proxies st →
  forEach evs (emit env) st = (Ok tt, st') →
  st' = append_trace
          (flat_map (emit_fx (env_console env) proxies (st_listeners st)) evs)
          st.
Proof.
  revert st. induction evs as [|ev evs IH]; intros st HF.
  - intros [= <-]. by rewrite append_trace_nil.
  - cbn [forEach]. intros ([] & s1 & H1 & H)%bind_Ok_inv.
    apply (emit_forwarding proxies) in H1 as ->; [|done].
    apply IH in H as ->; [by rewrite append_trace_app|done].
Qed.

End Handlers.

(** *** The three phases of [replicateMany] *)

Lemma foldl_push_signal b sigs :
  foldl push_signal b sigs =
  {| buf_n := buf_n b ++ nexts sigs; buf_e := buf_e b ++ errors sigs |}.
Proof.
  revert b. induction sigs as [|s sigs IH]; intros b; simpl.
  - rewrite !app_nil_r. by destruct b.
  - rewrite IH. destruct s; simpl; by rewrite <- ?app_assoc.
Qed.

Section Phases.
Context (env : Env).

Lemma create_replicator_loop names T N W B R L :
  ∃ B' R',
    forEach names create_replicator (Build_State T N W (Some B) R L)
      = (Ok tt, Build_State T N W (Some B') R' L) ∧
    ∀ n, n ∈ names →
      B' !! n = Some empty_buffer ∧ R' !! n = Some (buffering n).
Proof.
  assert (∃ B' R',
    forEach names create_replicator (Build_State T N W (Some B) R L)
      = (Ok tt, Build_State T N W (Some B') R' L) ∧
    ∀ n, (n ∈ names →
            B' !! n = Some empty_buffer ∧ R' !! n = Some (buffering n)) ∧
         (n ∉ names → B' !! n = B !! n ∧ R' !! n = R !! n)) as H.
  { revert B R. induction names as [|name names IH]; intros B R.
    - exists B, R. split; [done|]. intros n. split; [|done].
      intros Hn. by apply elem_of_nil in Hn.
    - destruct (IH (<[name := empty_buffer]> B) (<[name := buffering name]> R))
        as (B' & R' & Hloop & Hlook).
      exists B', R'. split; [exact Hloop|].
      intros n. destruct (Hlook n) as [Hin Hout]. split.
      + intros [->|Hn]%elem_of_cons; [|auto].
        destruct (decide (name ∈ names)) as [Hd|Hd]; [auto|].
        destruct (Hout Hd) as [-> ->]. by rewrite !lookup_insert_eq.
      + intros [Hne Hn]%not_elem_of_cons. destruct (Hout Hn) as [-> ->].
        by rewrite !lookup_insert_ne. }
  destruct H as (B' & R' & Hloop & Hlook). exists B', R'.
  split; [done|]. intros n. by destruct (Hlook n).
Qed.

Lemma deliver_subscribed name s T N W B R L b :
  R !! name = Some (subscribed name) →
  B !! name = Some b →
  deliver env name s (Build_State T N W (Some B) R L) =
  (Ok tt, Build_State T N W (Some (<[name := push_signal b s]> B)) R L).
Proof.
  intros HR HB. unfold deliver, read_replicator, get_replicators.
  rewrite !bind_unfold. simpl. rewrite HR. simpl.
  destruct s as [x|e|]; simpl.
  - unfold push_n, read_buffer, write_buffer, get_buffers, set_buffers.
    rewrite !bind_unfold. simpl. rewrite HB. done.
  - unfold push_e, read_buffer, write_buffer, get_buffers, set_buffers.
    rewrite !bind_unfold. simpl. rewrite HB. done.
  - by rewrite insert_id.
Qed.

Lemma forEach_deliver_subscribed name sigs T N W B R L b :
  R !! name = Some (subscribed name) →
  B !! name = Some b →
  forEach sigs (deliver env name) (Build_State T N W (Some B) R L) =
  (Ok tt,
   Build_State T N W (Some (<[name := foldl push_signal b sigs]> B)) R L).
Proof.
  intros HR. revert B b. induction sigs as [|s sigs IH]; intros B b HB.
  - simpl. by rewrite insert_id.
  - cbn [forEach foldl]. rewrite bind_unfold.
    rewrite (deliver_subscribed _ _ _ _ _ _ _ _ b) by done.
    rewrite (IH _ (push_signal b s)) by apply lookup_insert_eq.
    by rewrite insert_insert_eq.
Qed.

Lemma subscribe_spec s name T N W B R L :
  R !! name = Some (buffering name) →
  B !! name = Some empty_buffer →
  subscribe env s name (Build_State T N W (Some B) R L) =
  (Ok (sink_id s, name),
   Build_State (T ++ [ESubscribe (sink_id s) name]) N W
     (Some (<[name := buffered (sink_sync s)]> B))
     (<[name := subscribed name]> R)
     (L ++ [(sink_id s, name)])).
Proof.
  intros HR HB. unfold subscribe, read_replicator, write_replicator,
    get_replicators, set_replicators, get_listeners, set_listeners.
  mrun. rewrite HR. mrun.
  change (Build_Replicator _ _ _ _ _ _) with (subscribed name).
  unfold append_trace. simpl.
  rewrite (forEach_deliver_subscribed _ _ _ _ _ _ _ _ empty_buffer);
    [| apply lookup_insert_eq | done].
  by rewrite foldl_push_signal.
Qed.

Lemma subscribe_loop snks names T N W B R L :
  NoDup names →
  (∀ n, n ∈ names →
     n ∈ fst <$> snks ∧
     B !! n = Some empty_buffer ∧ R !! n = Some (buffering n)) →
  ∃ B' R',
    mapM names (subscribe_replicator env snks) (Build_State T N W (Some B) R L)
    = (Ok (subscription_of snks <$> names),
       Build_State
         (T ++ ((fun n => ESubscribe (sid_of snks n) n) <$> names)) N W
         (Some B') R' (L ++ (subscription_of snks <$> names))) ∧
    ∀ n, n ∈ names →
      B' !! n = Some (buffered (sync_of snks n)) ∧
      R' !! n = Some (subscribed n).
Proof.
  intros Hnd Hpre.
  assert (∃ B' R',
    mapM names (subscribe_replicator env snks) (Build_State T N W (Some B) R L)
    = (Ok (subscription_of snks <$> names),
       Build_State
         (T ++ ((fun n => ESubscribe (sid_of snks n) n) <$> names)) N W
         (Some B') R' (L ++ (subscription_of snks <$> names))) ∧
    ∀ n, (n ∈ names →
            B' !! n = Some (buffered (sync_of snks n)) ∧
            R' !! n = Some (subscribed n)) ∧
         (n ∉ names → B' !! n = B !! n ∧ R' !! n = R !! n)) as H.
  { revert T B R L Hpre. induction Hnd as [|name names Hname Hnd IH];
      intros T B R L Hpre.
    - exists B, R. simpl. rewrite !app_nil_r. split; [done|]. intros n.
      split; [|done]. intros Hn. by apply elem_of_nil in Hn.
    - destruct (Hpre name) as (Hs & HB & HR); [apply list_elem_of_here|].
      apply own_property_is_Some in Hs as [s Hs].
      destruct (IH (T ++ [ESubscribe (sink_id s) name])
                   (<[name := buffered (sink_sync s)]> B)
                   (<[name := subscribed name]> R)
                   (L ++ [(sink_id s, name)]))
        as (B' & R' & Hloop & Hlook).
      { intros n Hn. destruct (Hpre n) as (? & ? & ?);
          [by apply list_elem_of_further|].
        assert (name ≠ n) by (intros ->; contradiction).
        by rewrite !lookup_insert_ne. }
      exists B', R'. split.
      + cbn [mapM]. rewrite bind_unfold. unfold subscribe_replicator at 1.
        rewrite Hs, subscribe_spec by done. rewrite bind_unfold, Hloop. simpl.
        assert (sid_of snks name = sink_id s) as Hsid
          by (unfold sid_of; by rewrite Hs).
        assert (subscription_of snks name = (sink_id s, name)) as Hsub
          by (unfold subscription_of; by rewrite Hsid).
        rewrite Hsub, Hsid. by rewrite <- !app_assoc.
      + intros n. destruct (Hlook n) as [Hin Hout]. split.
        * intros [->|Hn]%elem_of_cons; [|auto].
          destruct (Hout Hname) as [-> ->]. rewrite !lookup_insert_eq.
          unfold sync_of. by rewrite Hs.
        * intros [Hne Hn]%not_elem_of_cons. destruct (Hout Hn) as [-> ->].
          by rewrite !lookup_insert_ne. }
  destruct H as (B' & R' & Hloop & Hlook). exists B', R'.
  split; [done|]. intros n. by destruct (Hlook n).
Qed.

End Phases.

Section Flush.
Context (env : Env).

Lemma read_buffer_spec name st B b :
  st_buffers st = Some B → B !! name = Some b →
  read_buffer name st = (Ok b, st).
Proof.
  intros HB Hb. unfold read_buffer, get_buffers. rewrite bind_unfold, HB.
  simpl. by rewrite Hb.
Qed.

Lemma read_replicator_spec name st r :
  st_replicators st !! name = Some r → read_replicator name st = (Ok r, st).
Proof.
  intros HR. unfold read_replicator, get_replicators.
  rewrite bind_unfold. by rewrite HR.
Qed.

Lemma flush_and_swap_Ok snks proxies name T N W B R L st' :
  B !! name = Some (buffered (sync_of snks name)) →
  R !! name = Some (subscribed name) →
  flush_and_swap env proxies name (Build_State T N W (Some B) R L)
    = (Ok tt, st') →
  st' = Build_State (T ++ flush_fx (env_console env) snks proxies name) N W
          (Some B) (<[name := forwarding (js_get proxies name)]> R) L.
Proof.
  intros HB HR H. unfold flush_and_swap in H. cbv zeta in H.
  rewrite bind_unfold in H.
  erewrite read_buffer_spec in H; [|reflexivity|exact HB].
  apply bind_Ok_inv in H as ([] & s1 & ->%forEach_forward_next_Ok & H).
  rewrite bind_unfold in H.
  erewrite read_buffer_spec in H; [|reflexivity|exact HB].
  apply bind_Ok_inv in H as ([] & s2 & ->%forEach_forward_error_Ok & H).
  rewrite bind_unfold in H.
  erewrite read_replicator_spec in H; [|exact HR].
  unfold write_replicator, get_replicators, set_replicators in H.
  rewrite bind_unfold in H. simpl in H. injection H as <-.
  unfold flush_fx, forwarding. by rewrite <- app_assoc.
Qed.

Lemma flush_loop snks proxies names T N W B R L st' :
  NoDup names →
  (∀ n, n ∈ names →
     B !! n = Some (buffered (sync_of snks n)) ∧
     R !! n = Some (subscribed n)) →
  forEach names (flush_and_swap env proxies) (Build_State T N W (Some B) R L)
    = (Ok tt, st') →
  ∃ R',
    st' = Build_State
            (T ++ flat_map (flush_fx (env_console env) snks proxies) names)
            N W (Some B) R' L ∧
    ∀ n, n ∈ names → R' !! n = Some (forwarding (js_get proxies n)).
Proof.
  intros Hnd Hpre Hrun.
  assert (∃ R',
    st' = Build_State
            (T ++ flat_map (flush_fx (env_console env) snks proxies) names)
            N W (Some B) R' L ∧
    ∀ n, (n ∈ names → R' !! n = Some (forwarding (js_get proxies n))) ∧
         (n ∉ names → R' !! n = R !! n)) as H.
  { revert T R Hpre Hrun. induction Hnd as [|name names Hname Hnd IH];
      intros T R Hpre Hrun.
    - injection Hrun as <-. exists R. simpl. rewrite app_nil_r.
      split; [done|]. intros n. split; [|done].
      intros Hn. by apply elem_of_nil in Hn.
    - cbn [forEach] in Hrun.
      apply bind_Ok_inv in Hrun as ([] & s1 & H1 & Hrun).
      destruct (Hpre name) as [HB HR]; [apply list_elem_of_here|].
      apply (flush_and_swap_Ok snks) in H1 as ->; [|done..].
      apply IH in Hrun as (R' & -> & Hlook).
      + exists R'. split; [by rewrite <- app_assoc|].
        intros n. destruct (Hlook n) as [Hin Hout]. split.
        * intros [->|Hn]%elem_of_cons; [|auto].
          rewrite (Hout Hname). apply lookup_insert_eq.
        * intros [Hne Hn]%not_elem_of_cons. rewrite (Hout Hn).
          by apply lookup_insert_ne.
      + intros n Hn. destruct (Hpre n) as [? ?];
          [by apply list_elem_of_further|].
        assert (name ≠ n) by (intros ->; contradiction).
        by rewrite lookup_insert_ne. }
  destruct H as (R' & -> & Hlook). exists R'.
  split; [done|]. intros n. by destruct (Hlook n).
Qed.

Lemma sinkNames_of_spec snks proxies name :
  name ∈ sinkNames_of snks proxies ↔
  name ∈ fst <$> snks ∧ js_get_truthy (js_get proxies name) = true.
Proof.
  unfold sinkNames_of. rewrite list_elem_of_In, filter_In, <- list_elem_of_In.
  done.
Qed.

Lemma NoDup_List_filter {A} (f : A → bool) (l : list A) :
  NoDup l → NoDup (List.filter f l).
Proof.
  induction 1 as [|x l Hx Hl IH]; simpl; [constructor|].
  destruct (f x); [|done]. constructor; [|done].
  rewrite list_elem_of_In, filter_In, <- list_elem_of_In. tauto.
Qed.

Lemma sinkNames_of_NoDup snks proxies :
  NoDup (fst <$> snks) → NoDup (sinkNames_of snks proxies).
Proof. apply NoDup_List_filter. Qed.

(** What a call of [replicateMany] that returns has done. *)
Lemma replicateMany_Ok snks proxies st d st' :
  NoDup (fst <$> snks) →
  replicateMany env snks proxies st = (Ok d, st') →
  d = {| dr_subscriptions :=
           subscription_of snks <$> sinkNames_of snks proxies;
         dr_sinkNames := sinkNames_of snks proxies;
         dr_sinkProxies := proxies |} ∧
  st_trace st' =
    st_trace st ++
    ((fun n => ESubscribe (sid_of snks n) n) <$> sinkNames_of snks proxies) ++
    flat_map (flush_fx (env_console env) snks proxies)
             (sinkNames_of snks proxies) ∧
  st_listeners st' =
    st_listeners st ++ (subscription_of snks <$> sinkNames_of snks proxies) ∧
  (∀ n, n ∈ sinkNames_of snks proxies →
     st_replicators st' !! n = Some (forwarding (js_get proxies n))).
Proof.
  intros Hnd H. destruct st as [T N W B0 R0 L]. unfold replicateMany in H.
  cbv zeta in H. set (names := sinkNames_of snks proxies) in *.
  assert (NoDup names) as Hnames by by apply sinkNames_of_NoDup.
  rewrite bind_unfold in H. cbn [set_buffers] in H. cbv beta iota in H.
  rewrite bind_unfold in H. cbn [set_replicators] in H. cbv beta iota in H.
  simpl in H.
  destruct (create_replicator_loop names T N W ∅ ∅ L)
    as (B1 & R1 & Hinit & Hlook1).
  rewrite bind_unfold, Hinit in H.
  destruct (subscribe_loop env snks names T N W B1 R1 L Hnames)
    as (B2 & R2 & Hsub & Hlook2).
  { intros n Hn. destruct (Hlook1 n Hn). split; [|done].
    by apply sinkNames_of_spec in Hn as [? _]. }
  rewrite bind_unfold, Hsub in H.
  apply bind_Ok_inv in H as ([] & s3 & Hflush & H).
  apply (flush_loop snks) in Hflush as (R3 & -> & Hlook3); [|done..].
  rewrite bind_unfold in H. simpl in H. injection H as <- <-. simpl.
  split_and!; [done| |done|done]. by rewrite <- app_assoc.
Qed.

End Flush.

(** *** When [run()] returns *)

Section Returns.
Context (env : Env).

Lemma logToConsoleError_returns err st :
  defined err → ∃ st', logToConsoleError env err st = (Ok tt, st').
Proof.
  intros [Hnull Hundef]. unfold logToConsoleError.
  destruct err as [| |b|n|s|f|props]; try done; mrun;
    destruct (env_console env) as [[[] []]|]; simpl; eauto.
Qed.

Lemma forEach_forward_next_returns p xs st :
  ∃ st', forEach xs (call_handler env (HForwardNext (Own p))) st = (Ok tt, st').
Proof.
  revert st. induction xs as [|x xs IH]; intros st; [by eexists|].
  cbn [forEach]. rewrite bind_unfold. simpl. apply IH.
Qed.

End Returns.

(** ** What reaches a proxy *)

Lemma proxy_log_flat_map {A} p (f : A → list Effect) (l : list A) :
  proxy_log p (flat_map f l) = flat_map (fun a => proxy_log p (f a)) l.
Proof.
  induction l as [|a l IH]; [done|]. simpl. by rewrite proxy_log_app, IH.
Qed.

Lemma flat_map_nil {A B} (f : A → list B) (l : list A) :
  (∀ a, a ∈ l → f a = []) → flat_map f l = [].
Proof.
  induction l as [|a l IH]; intros H; [done|]. simpl.
  rewrite (H a) by apply list_elem_of_here. apply IH.
  intros b Hb. apply H. by apply list_elem_of_further.
Qed.

Lemma flat_map_single {A B} (f : A → list B) (l : list A) a0 :
  NoDup l → a0 ∈ l → (∀ a, a ∈ l → a ≠ a0 → f a = []) →
  flat_map f l = f a0.
Proof.
  induction 1 as [|a l Ha Hnd IH]; intros Hin Hf.
  - by apply elem_of_nil in Hin.
  - simpl. apply elem_of_cons in Hin as [->|Hin].
    + rewrite flat_map_nil, app_nil_r; [done|].
      intros b Hb. apply Hf; [by apply list_elem_of_further|].
      intros ->. contradiction.
    + rewrite (Hf a), IH; [done..| |apply list_elem_of_here|].
      * intros b Hb. apply Hf. by apply list_elem_of_further.
      * intros ->. contradiction.
Qed.

Lemma proxy_log_console_fx p c v : proxy_log p (console_fx c v) = [].
Proof. by destruct c as [[[] []]|]. Qed.

Lemma proxy_log_inject_own p s : proxy_log p (inject_fx (Own p) s) = [s].
Proof. unfold proxy_log. simpl. by rewrite bool_decide_eq_true_2. Qed.

Lemma proxy_log_inject_other p l s : l ≠ Own p → proxy_log p (inject_fx l s) = [].
Proof.
  destruct l as [q| |]; [|done..]. intros Hne. unfold proxy_log. simpl.
  rewrite bool_decide_eq_false_2; [done|]. congruence.
Qed.

Lemma proxy_log_forward_own p c s :
  proxy_log p (forward_fx c (Own p) s) = forwarded s.
Proof.
  destruct s; cbn [forward_fx forwarded]; [apply proxy_log_inject_own| |done].
  by rewrite proxy_log_app, proxy_log_console_fx, proxy_log_inject_own.
Qed.

Lemma proxy_log_forward_other p c l s :
  l ≠ Own p → proxy_log p (forward_fx c l s) = [].
Proof.
  intros Hne. destruct s; cbn [forward_fx];
    [by apply proxy_log_inject_other| |done].
  by rewrite proxy_log_app, proxy_log_console_fx, proxy_log_inject_other.
Qed.

Lemma nexts_fmap_SNext xs : nexts (SNext <$> xs) = xs.
Proof. induction xs as [|x xs IH]; [done|]. simpl. f_equal. exact IH. Qed.

Lemma nexts_fmap_SError es : nexts (SError <$> es) = [].
Proof. induction es as [|e es IH]; [done|]. exact IH. Qed.

Lemma errors_fmap_SError es : errors (SError <$> es) = es.
Proof. induction es as [|e es IH]; [done|]. simpl. f_equal. exact IH. Qed.

Lemma errors_fmap_SNext xs : errors (SNext <$> xs) = [].
Proof. induction xs as [|x xs IH]; [done|]. exact IH. Qed.

Lemma nexts_forwarded l : nexts (flat_map forwarded l) = nexts l.
Proof.
  induction l as [|s l IH]; [done|]. simpl. rewrite nexts_app, IH.
  by destruct s.
Qed.

Lemma errors_forwarded l : errors (flat_map forwarded l) = errors l.
Proof.
  induction l as [|s l IH]; [done|]. simpl. rewrite errors_app, IH.
  by destruct s.
Qed.

Lemma not_complete_forwarded l : SComplete ∉ flat_map forwarded l.
Proof.
  induction l as [|s l IH]; simpl; [apply not_elem_of_nil|].
  rewrite elem_of_app. intros [H|H]; [|done].
  destruct s; simpl in H; [| |by apply elem_of_nil in H];
    by apply list_elem_of_singleton in H.
Qed.

(** *** Proxies are bound to one name *)

Lemma js_get_own {A} (props : list (string * A)) k a :
  own_property props k = Some a → js_get props k = Own a.
Proof. intros H. unfold js_get. by rewrite H. Qed.

Lemma js_get_Own_inv {A} (props : list (string * A)) k a :
  js_get props k = Own a → own_property props k = Some a.
Proof.
  unfold js_get. destruct (own_property props k); [congruence|].
  by case_bool_decide.
Qed.

Lemma own_property_inj {A} (props : list (string * A)) k k' a :
  NoDup (snd <$> props) →
  own_property props k = Some a → own_property props k' = Some a → k = k'.
Proof.
  intros Hnd H1%own_property_elem_of H2%own_property_elem_of.
  induction props as [|[k0 a0] props IH]; [by apply elem_of_nil in H1|].
  simpl in Hnd. apply NoDup_cons in Hnd as [Ha0 Hnd].
  assert (∀ j, (j, a) ∈ props → a0 = a → False) as Hno.
  { intros j Hj ->. apply Ha0. apply list_elem_of_fmap. by exists (j, a). }
  apply elem_of_cons in H1 as [H1|H1]; apply elem_of_cons in H2 as [H2|H2].
  - congruence.
  - destruct (Hno _ H2). congruence.
  - destruct (Hno _ H1). congruence.
  - by apply IH.
Qed.

(** ** A program from [setup] to [dispose] *)

Lemma setup_collections env main drivers st0 prog st :
  NoDup (fst <$> own_entries drivers) →
  setup env main drivers st0 = (Ok prog, st) →
  NoDup (snd <$> run_sinkProxies prog) ∧
  NoDup (fst <$> run_sinkProxies prog) ∧
  NoDup (fst <$> sources prog).
Proof.
  intros Hnd H.
  apply setup_Ok_inv in H
    as (props & sA & srcs0 & sB & sC & sD & -> & HA & HB & HC & _).
  simpl in Hnd.
  apply makeSinkProxies_sound in HA as (Hkeys & Hids & _); [|done].
  apply adaptSources_keys in HC. rewrite HC.
  apply callDrivers_sound in HB; done.
Qed.

Lemma flat_map_singleton {A B} (f : A → B) (l : list A) :
  flat_map (fun a => [f a]) l = f <$> l.
Proof. induction l as [|a l IH]; [done|]. simpl. by f_equal. Qed.

Lemma flat_map_fmap {A B C} (f : B → list C) (g : A → B) (l : list A) :
  flat_map f (g <$> l) = flat_map (fun a => f (g a)) l.
Proof. induction l as [|a l IH]; [done|]. simpl. by f_equal. Qed.

Lemma filter_fmap {A B} (P : B → bool) (g : A → B) (l : list A) :
  List.filter P (g <$> l) = g <$> List.filter (fun a => P (g a)) l.
Proof.
  induction l as [|a l IH]; [done|]. simpl.
  destruct (P (g a)); [simpl; by f_equal|exact IH].
Qed.

Lemma flat_map_ext_in {A B} (f g : A → list B) (l : list A) :
  (∀ a, a ∈ l → f a = g a) → flat_map f l = flat_map g l.
Proof.
  induction l as [|a l IH]; intros H; [done|]. simpl.
  rewrite (H a) by apply list_elem_of_here. f_equal. apply IH.
  intros b Hb. apply H. by apply list_elem_of_further.
Qed.

(** *** When the flush throws *)

Section Outcome.
Context (env : Env).

Lemma prefix_flat_map {A B} (f : A → list B) (l1 l2 : list A) :
  l1 `prefix_of` l2 → flat_map f l1 `prefix_of` flat_map f l2.
Proof. intros [k ->]. rewrite flat_map_app. by apply prefix_app_r. Qed.

Lemma proxy_log_prefix q t1 t2 :
  t1 `prefix_of` t2 → proxy_log q t1 `prefix_of` proxy_log q t2.
Proof. intros [k ->]. rewrite proxy_log_app. by apply prefix_app_r. Qed.

Lemma logToConsoleError_outcome err st :
  logToConsoleError env err st =
    (Ok tt, append_trace (console_fx (env_console env) (diagnostic_target err)) st)
  ∨ ∃ e, logToConsoleError env err st = (Throw e, st).
Proof.
  destruct (logToConsoleError env err st) as [[[]|e] st'] eqn:H.
  - left. by apply logToConsoleError_Ok in H as ->.
  - right. exists e. f_equal.
    destruct err as [| |b|n|s|f|props];
      try (by unfold logToConsoleError in H; rewrite bind_unfold in H;
              injection H as _ <-);
      by edestruct (logToConsoleError_returns env) as [s1 Hs1];
        [|rewrite Hs1 in H].
Qed.

Lemma forEach_forward_error_outcome p es st r st' :
  forEach es (call_handler env (HForwardError (Own p))) st = (r, st') →
  ∃ es1,
    es1 `prefix_of` es ∧
    st' = append_trace
            (flat_map (fun e => forward_fx (env_console env) (Own p) (SError e))
                      es1) st ∧
    (r = Ok tt → es1 = es).
Proof.
  revert st. induction es as [|e es IH]; intros st.
  - intros [= <- <-]. exists []. by rewrite append_trace_nil.
  - cbn [forEach call_handler]. rewrite !bind_unfold.
    destruct (logToConsoleError_outcome e st) as [->|[x ->]].
    + unfold proxy_inject, effect. cbv beta iota.
      rewrite append_trace_app. intros (es1 & Hpre & -> & Hok)%IH.
      exists (e :: es1). split_and!.
      * by apply prefix_cons.
      * by rewrite append_trace_app.
      * intros Hr. by rewrite Hok.
    + intros [= <- <-]. exists []. split_and!; [apply prefix_nil| |done].
      by rewrite append_trace_nil.
Qed.

Lemma forEach_forward_next_stray l xs st r st' :
  (∀ p, l ≠ Own p) →
  forEach xs (call_handler env (HForwardNext l)) st = (r, st') → st' = st.
Proof.
  intros Hl. destruct xs as [|x xs]; [by intros [= _ <-]|].
  cbn [forEach call_handler]. rewrite bind_unfold.
  destruct l as [p| |]; [by destruct (Hl p)|by intros [= _ <-]..].
Qed.

Lemma forEach_forward_error_stray l es st r st' :
  (∀ p, l ≠ Own p) →
  forEach es (call_handler env (HForwardError l)) st = (r, st') →
  ∃ t, st' = append_trace t st ∧ ∀ q, proxy_log q t = [].
Proof.
  intros Hl. destruct es as [|e es].
  { intros [= _ <-]. exists []. by rewrite append_trace_nil. }
  cbn [forEach call_handler]. rewrite !bind_unfold.
  destruct (logToConsoleError_outcome e st) as [->|[x ->]].
  - destruct l as [p| |]; [by destruct (Hl p)| |];
      intros [= _ <-]; eexists; (split; [done|]);
      intros q; apply proxy_log_console_fx.
  - intros [= _ <-]. exists []. by rewrite append_trace_nil.
Qed.

(** The flush of one name, whatever its outcome. *)
Lemma flush_and_swap_outcome snks proxies name T N W B R L r st' :
  B !! name = Some (buffered (sync_of snks name)) →
  R !! name = Some (subscribed name) →
  flush_and_swap env proxies name (Build_State T N W (Some B) R L)
    = (r, st') →
  ∃ t, st_trace st' = T ++ t ∧
       ∀ q, proxy_log q t `prefix_of`
            proxy_log q (flush_fx (env_console env) snks proxies name).
Proof.
  intros HB HR H. destruct r as [[]|x].
  { apply (flush_and_swap_Ok env snks) in H as ->; [|done..].
    eexists. split; [done|]. done. }
  unfold flush_and_swap in H. cbv zeta in H. rewrite bind_unfold in H.
  erewrite read_buffer_spec in H; [|reflexivity|exact HB].
  rewrite bind_unfold in H. unfold flush_fx.
  destruct (js_get proxies name) as [p| |] eqn:Hl.
  - destruct (forEach_forward_next_returns env p
                (buf_n (buffered (sync_of snks name)))
                (Build_State T N W (Some B) R L)) as [s1 H1].
    rewrite H1 in H. apply forEach_forward_next_Ok in H1 as ->.
    rewrite bind_unfold in H.
    erewrite read_buffer_spec in H; [|reflexivity|exact HB].
    rewrite bind_unfold in H.
    match type of H with context [forEach ?es ?h ?st] =>
      destruct (forEach es h st) as [r2 s2] eqn:H2 end.
    apply forEach_forward_error_outcome in H2 as (es1 & Hpre & -> & Hok).
    destruct r2 as [[]|y].
    + rewrite bind_unfold in H.
      erewrite read_replicator_spec in H; [|exact HR]. done.
    + injection H as _ <-. simpl. eexists. split; [by rewrite <- app_assoc|].
      intros q. apply proxy_log_prefix, prefix_app, prefix_flat_map, Hpre.
  - match type of H with context [forEach ?xs ?h ?st] =>
      destruct (forEach xs h st) as [r1 s1] eqn:H1 end.
    apply forEach_forward_next_stray in H1 as ->; [|by intros p].
    destruct r1 as [[]|y];
      [|injection H as _ <-; exists []; rewrite app_nil_r;
        split; [done|intros q; apply prefix_nil]].
    rewrite bind_unfold in H.
    erewrite read_buffer_spec in H; [|reflexivity|exact HB].
    rewrite bind_unfold in H.
    match type of H with context [forEach ?es ?h ?st] =>
      destruct (forEach es h st) as [r2 s2] eqn:H2 end.
    apply forEach_forward_error_stray in H2 as (t & -> & Ht); [|by intros p].
    destruct r2 as [[]|y].
    + rewrite bind_unfold in H.
      erewrite read_replicator_spec in H; [|exact HR]. done.
    + injection H as _ <-. exists t. split; [done|].
      intros q. rewrite Ht. apply prefix_nil.
  - match type of H with context [forEach ?xs ?h ?st] =>
      destruct (forEach xs h st) as [r1 s1] eqn:H1 end.
    apply forEach_forward_next_stray in H1 as ->; [|by intros p].
    destruct r1 as [[]|y];
      [|injection H as _ <-; exists []; rewrite app_nil_r;
        split; [done|intros q; apply prefix_nil]].
    rewrite bind_unfold in H.
    erewrite read_buffer_spec in H; [|reflexivity|exact HB].
    rewrite bind_unfold in H.
    match type of H with context [forEach ?es ?h ?st] =>
      destruct (forEach es h st) as [r2 s2] eqn:H2 end.
    apply forEach_forward_error_stray in H2 as (t & -> & Ht); [|by intros p].
    destruct r2 as [[]|y].
    + rewrite bind_unfold in H.
      erewrite read_replicator_spec in H; [|exact HR]. done.
    + injection H as _ <-. exists t. split; [done|].
      intros q. rewrite Ht. apply prefix_nil.
Qed.

Lemma flush_loop_outcome snks proxies names T N W B R L r st' :
  NoDup names →
  (∀ n, n ∈ names →
     B !! n = Some (buffered (sync_of snks n)) ∧
     R !! n = Some (subscribed n)) →
  forEach names (flush_and_swap env proxies) (Build_State T N W (Some B) R L)
    = (r, st') →
  ∃ t, st_trace st' = T ++ t ∧
       ∀ q, proxy_log q t `prefix_of`
            proxy_log q
              (flat_map (flush_fx (env_console env) snks proxies) names).
Proof.
  intros Hnd. revert T R. induction Hnd as [|name names Hname Hnd IH];
    intros T R Hpre.
  - intros [= _ <-]. exists []. by rewrite app_nil_r.
  - destruct (Hpre name) as [HB HR]; [apply list_elem_of_here|].
    cbn [forEach flat_map]. rewrite bind_unfold.
    destruct (flush_and_swap env proxies name _) as [[[]|x] s1] eqn:H1.
    + apply (flush_and_swap_Ok env snks) in H1 as ->; [|done..].
      intros (t & -> & Ht)%IH.
      * eexists. split; [by rewrite <- app_assoc|]. intros q.
        rewrite !proxy_log_app. by apply prefix_app.
      * intros n Hn. destruct (Hpre n) as [? ?];
          [by apply list_elem_of_further|].
        assert (name ≠ n) by (intros ->; contradiction).
        by rewrite lookup_insert_ne.
    + apply (flush_and_swap_outcome snks) in H1 as (t & Ht & Hlog); [|done..].
      intros [= _ <-]. exists t. split; [done|]. intros q.
      rewrite proxy_log_app. by apply prefix_app_r.
Qed.

(** Whatever the outcome of [replicateMany], every name is subscribed and
    what a proxy has received is an initial segment of the flush. *)
Lemma replicateMany_outcome snks proxies st r st' :
  NoDup (fst <$> snks) →
  replicateMany env snks proxies st = (r, st') →
  ∃ t,
    st_trace st' =
      st_trace st ++
      ((fun n => ESubscribe (sid_of snks n) n) <$> sinkNames_of snks proxies)
      ++ t ∧
    ∀ q, proxy_log q t `prefix_of`
         proxy_log q
           (flat_map (flush_fx (env_console env) snks proxies)
                     (sinkNames_of snks proxies)).
Proof.
  intros Hnd H. destruct st as [T N W B0 R0 L]. unfold replicateMany in H.
  cbv zeta in H. set (names := sinkNames_of snks proxies) in *.
  assert (NoDup names) as Hnames by by apply sinkNames_of_NoDup.
  rewrite bind_unfold in H. cbn [set_buffers] in H. cbv beta iota in H.
  rewrite bind_unfold in H. cbn [set_replicators] in H. cbv beta iota in H.
  simpl in H.
  destruct (create_replicator_loop names T N W ∅ ∅ L)
    as (B1 & R1 & Hinit & Hlook1).
  rewrite bind_unfold, Hinit in H.
  destruct (subscribe_loop env snks names T N W B1 R1 L Hnames)
    as (B2 & R2 & Hsub & Hlook2).
  { intros n Hn. destruct (Hlook1 n Hn). split; [|done].
    by apply sinkNames_of_spec in Hn as [? _]. }
  rewrite bind_unfold, Hsub in H. rewrite bind_unfold in H.
  match type of H with context [forEach names ?f ?s0] =>
    destruct (forEach names f s0) as [r3 s3] eqn:H3 end.
  apply (flush_loop_outcome snks) in H3 as (t & Ht & Hlog); [|done..].
  exists t. split; [|done]. simpl.
  destruct r3 as [[]|x]; [rewrite bind_unfold in H|];
    injection H as _ <-; simpl; rewrite Ht; by rewrite <- app_assoc.
Qed.

End Outcome.

Section Replication.
Context (console : option Console) (snks : Sinks) (proxies : SinkProxies).
Context (name : string) (s : Sink) (p : nat).
Hypothesis sink_keys : NoDup (fst <$> snks).
Hypothesis proxy_ids : NoDup (snd <$> proxies).
Hypothesis own_sink : own_property snks name = Some s.
Hypothesis own_proxy : own_property proxies name = Some p.

Lemma replicated : name ∈ sinkNames_of snks proxies.
Proof.
  apply sinkNames_of_spec. split.
  - apply own_property_is_Some. by eexists.
  - by rewrite (js_get_own _ _ _ own_proxy).
Qed.

Lemma other_listener n : n ≠ name → js_get proxies n ≠ Own p.
Proof.
  intros Hne Hget%js_get_Own_inv. apply Hne.
  by eapply own_property_inj.
Qed.

Lemma proxy_log_subscriptions names :
  proxy_log p ((fun n => ESubscribe (sid_of snks n) n) <$> names) = [].
Proof. induction names as [|n names IH]; [done|]. exact IH. Qed.

Lemma proxy_log_flush_own :
  proxy_log p (flush_fx console snks proxies name) =
  (SNext <$> nexts (sink_sync s)) ++ (SError <$> errors (sink_sync s)).
Proof.
  unfold flush_fx, sync_of. rewrite own_sink, (js_get_own _ _ _ own_proxy).
  simpl. rewrite proxy_log_app, !proxy_log_flat_map. f_equal.
  - rewrite <- flat_map_singleton. apply flat_map_ext_in. intros x _.
    apply (proxy_log_forward_own p console (SNext x)).
  - rewrite <- flat_map_singleton. apply flat_map_ext_in. intros e _.
    apply (proxy_log_forward_own p console (SError e)).
Qed.

Lemma proxy_log_flush_other n :
  n ≠ name → proxy_log p (flush_fx console snks proxies n) = [].
Proof.
  intros Hne%other_listener. unfold flush_fx.
  rewrite proxy_log_app, !proxy_log_flat_map.
  rewrite !flat_map_nil; [done| |]; intros; by apply proxy_log_forward_other.
Qed.

Lemma proxy_log_flush_all :
  proxy_log p (flat_map (flush_fx console snks proxies)
                        (sinkNames_of snks proxies)) =
  (SNext <$> nexts (sink_sync s)) ++ (SError <$> errors (sink_sync s)).
Proof.
  rewrite proxy_log_flat_map, <- proxy_log_flush_own.
  apply (flat_map_single
           (fun n => proxy_log p (flush_fx console snks proxies n)) _ name).
  - by apply sinkNames_of_NoDup.
  - apply replicated.
  - intros n _. apply proxy_log_flush_other.
Qed.

Lemma proxy_log_emit ev :
  proxy_log p
    (emit_fx console proxies
       (subscription_of snks <$> sinkNames_of snks proxies) ev) =
  if Nat.eqb (fst ev) (sink_id s) then forwarded (snd ev) else [].
Proof.
  unfold emit_fx. rewrite proxy_log_flat_map, filter_fmap, flat_map_fmap.
  simpl.
  assert (sid_of snks name = sink_id s) as Hsid
    by (unfold sid_of; by rewrite own_sink).
  set (sel := List.filter (λ a, Nat.eqb (sid_of snks a) (fst ev))
                          (sinkNames_of snks proxies)).
  assert (NoDup sel) as Hnd
    by by apply NoDup_List_filter, sinkNames_of_NoDup.
  destruct (Nat.eqb (fst ev) (sink_id s)) eqn:Heq.
  - rewrite <- (proxy_log_forward_own p console (snd ev)).
    rewrite <- (js_get_own _ _ _ own_proxy).
    apply (flat_map_single
             (fun n => proxy_log p
                         (forward_fx console (js_get proxies n) (snd ev)))
             _ name); [done| |].
    + apply list_elem_of_In, filter_In. split.
      * apply list_elem_of_In, replicated.
      * rewrite Hsid. by rewrite Nat.eqb_sym.
    + intros n _ Hne. by apply proxy_log_forward_other, other_listener.
  - apply flat_map_nil. intros n Hn.
    apply proxy_log_forward_other, other_listener. intros ->.
    apply list_elem_of_In, filter_In in Hn as [_ Hn].
    rewrite Hsid, Nat.eqb_sym in Hn. congruence.
Qed.

Lemma proxy_log_emit_all evs :
  proxy_log p
    (flat_map (emit_fx console proxies
                 (subscription_of snks <$> sinkNames_of snks proxies)) evs) =
  flat_map forwarded (emitted_by (sink_id s) evs).
Proof.
  rewrite proxy_log_flat_map. unfold emitted_by.
  induction evs as [|ev evs IH]; [done|]. simpl.
  rewrite proxy_log_emit, IH. by destruct (Nat.eqb (fst ev) (sink_id s)).
Qed.

End Replication.

(** ** Disposal *)

Section Dispose.
Context (env : Env).

Lemma disposeSources_step srcs k st st' :
  (let v := from_option id VUndefined (own_property srcs k) in
   if hasOwnProperty srcs k && truthy v
   then d ← get_member v "dispose";
        if truthy d then call_teardown env k d else mret tt
   else mret tt) st = (Ok tt, st') →
  st' = append_trace (teardown_of srcs k) st.
Proof.
  cbv zeta. unfold teardown_of, hasOwnProperty.
  assert (∀ s1 : State,
            (mret tt : M unit) st = (Ok tt, s1) → s1 = append_trace [] st)
    as Hskip by (intros s1 [= <-]; by rewrite append_trace_nil).
  destruct (own_property srcs k) as [v|]; mrun; [|apply Hskip].
  destruct v as [| |b|n|s|f|props]; mrun; try apply Hskip.
  - destruct b; mrun; apply Hskip.
  - destruct (negb (n =? 0)%Z); mrun; apply Hskip.
  - destruct (negb (String.eqb s "")); mrun; apply Hskip.
  - destruct (own_property props "dispose") as [[d ? ?]|]; mrun;
      [|apply Hskip].
    destruct d as [| |b|n|s|f|props']; mrun; try apply Hskip; try done.
    + destruct b; [done|apply Hskip].
    + destruct (negb (n =? 0)%Z); [done|apply Hskip].
    + destruct (negb (String.eqb s "")); [done|apply Hskip].
    + unfold lift. destruct (env_teardown env f) as [[]|]; [|done].
      by intros [= <-].
Qed.

Lemma disposeSources_Ok srcs st st' :
  disposeSources env srcs st = (Ok tt, st') →
  st' = append_trace (teardowns srcs) st.
Proof.
  unfold disposeSources, teardowns. rewrite for_in_all.
  generalize (fst <$> srcs) as ks. intros ks. revert st.
  induction ks as [|k ks IH]; intros st.
  - intros [= <-]. by rewrite append_trace_nil.
  - cbn [forEach]. intros ([] & s1 & H1 & H)%bind_Ok_inv.
    apply disposeSources_step in H1 as ->. apply IH in H as ->.
    by rewrite append_trace_app.
Qed.

Lemma unsubscribe_loop subs rest T N W B R :
  forEach subs unsubscribe (Build_State T N W B R (subs ++ rest)) =
  (Ok tt, Build_State (T ++ unsubscriptions subs) N W B R rest).
Proof.
  revert T. induction subs as [|sub subs IH]; intros T.
  - simpl. by rewrite app_nil_r.
  - cbn [forEach]. rewrite bind_unfold. unfold unsubscribe at 1.
    unfold get_listeners, set_listeners, effect, append_trace. mrun.
    rewrite bool_decide_eq_true_2 by done. rewrite IH.
    unfold unsubscriptions. simpl. by rewrite <- app_assoc.
Qed.

Lemma complete_loop proxies names st st' :
  forEach names (fun n => proxy_inject (js_get proxies n) SComplete) st
    = (Ok tt, st') →
  st' = append_trace (completions proxies names) st ∧
  ∀ n, n ∈ names → ∃ q, js_get proxies n = Own q.
Proof.
  revert st. induction names as [|n names IH]; intros st.
  - intros [= <-]. rewrite append_trace_nil. split; [done|].
    intros n Hn. by apply elem_of_nil in Hn.
  - cbn [forEach]. intros ([] & s1 & H1 & H)%bind_Ok_inv.
    apply proxy_inject_Ok in H1 as [Hown ->]. apply IH in H as [-> Hall].
    split; [by rewrite append_trace_app|].
    intros m [->|Hm]%elem_of_cons; auto.
Qed.

End Dispose.

(** ** One session: [setup], [run], emissions, [dispose] *)

Section Session.
Context (env : Env) (main drivers : value) (w : option Window).
Context (prog : CycleProgram) (st1 : State) (d : DisposeFunction) (st2 : State).
Hypothesis registry_keys : NoDup (fst <$> own_entries drivers).
Hypothesis sink_keys : NoDup (fst <$> sinks prog).
Hypothesis setup_returns : setup env main drivers (initial w) = (Ok prog, st1).
Hypothesis run_returns : run env prog st1 = (Ok d, st2).

Local Abbreviation proxies := (run_sinkProxies prog).
Local Abbreviation names :=
  (sinkNames_of (sinks prog) (run_sinkProxies prog)).
Local Abbreviation subs :=
  (subscription_of (sinks prog)
     <$> sinkNames_of (sinks prog) (run_sinkProxies prog)).

Lemma session_run :
  d = {| dispose_sources := sources prog;
         dispose_replication :=
           {| dr_subscriptions := subs; dr_sinkNames := names;
              dr_sinkProxies := proxies |} |} ∧
  st_trace st2 =
    st_trace st1 ++
    ((fun n => ESubscribe (sid_of (sinks prog) n) n) <$> names) ++
    flat_map (flush_fx (env_console env) (sinks prog) proxies) names ∧
  st_listeners st2 = subs ∧
  all_forwarding proxies st2.
Proof.
  destruct (setup_initial env _ _ _ _ _ setup_returns) as (HL & _ & _).
  unfold run in run_returns.
  apply bind_Ok_inv in run_returns as (dr & s & Hrep & Hret).
  injection Hret as <- <-.
  apply replicateMany_Ok in Hrep as (-> & HT & HLs & HR); [|done].
  rewrite HL in HLs. simpl in HLs. split_and!; [done..|].
  intros l Hl. rewrite HLs in Hl.
  apply list_elem_of_fmap in Hl as (n & -> & Hn). by apply HR.
Qed.

Lemma session_emit evs st3 :
  forEach evs (emit env) st2 = (Ok tt, st3) →
  st3 = append_trace
          (flat_map (emit_fx (env_console env) proxies subs) evs) st2.
Proof.
  destruct session_run as (_ & _ & HL & HF). intros H.
  apply (forEach_emit_forwarding env proxies) in H; [|done].
  by rewrite HL in H.
Qed.

Lemma session_proxy_log name s p evs st3 :
  own_property (sinks prog) name = Some s →
  own_property proxies name = Some p →
  forEach evs (emit env) st2 = (Ok tt, st3) →
  proxy_log p (st_trace st3) =
    (SNext <$> nexts (sink_sync s)) ++ (SError <$> errors (sink_sync s)) ++
    flat_map forwarded (emitted_by (sink_id s) evs).
Proof.
  intros Hs Hp ->%session_emit.
  destruct (setup_initial env _ _ _ _ _ setup_returns) as (_ & Hquiet & _).
  destruct (setup_collections _ _ _ _ _ _ registry_keys setup_returns)
    as (Hids & _ & _).
  destruct session_run as (_ & HT & _ & _). simpl. rewrite HT.
  rewrite !proxy_log_app, Hquiet, proxy_log_subscriptions. simpl.
  rewrite (proxy_log_flush_all _ _ _ name s p) by done.
  rewrite (proxy_log_emit_all _ _ _ name s p) by done.
  by rewrite <- app_assoc.
Qed.

Lemma session_dispose evs st3 st4 :
  forEach evs (emit env) st2 = (Ok tt, st3) →
  dispose env d st3 = (Ok tt, st4) →
  st_trace st4 =
    st_trace st3 ++ teardowns (sources prog) ++ unsubscriptions subs ++
    completions proxies names ∧
  st_listeners st4 = [] ∧
  ∀ n, n ∈ names → ∃ q, js_get proxies n = Own q.
Proof.
  intros ->%session_emit. destruct session_run as (-> & _ & HL & _).
  unfold dispose, disposeReplication. simpl.
  intros ([] & s1 & ->%disposeSources_Ok & H)%bind_Ok_inv.
  apply bind_Ok_inv in H as ([] & s2 & Hun & H).
  destruct st2 as [T N W B R L]. simpl in HL. subst L.
  unfold append_trace in Hun. simpl in Hun.
  pose proof (unsubscribe_loop subs []) as Hloop.
  rewrite app_nil_r in Hloop. rewrite Hloop in Hun. injection Hun as <-.
  apply complete_loop in H as [-> Hown]. simpl.
  split_and!; [|done..]. by rewrite <- !app_assoc.
Qed.

End Session.

(** ** Silent listeners *)

Lemma bind_ext {A B} (m : M A) (k k' : A → M B) st :
  (∀ a s, k a s = k' a s) → (m ≫= k) st = (m ≫= k') st.
Proof. intros H. rewrite !bind_unfold. by destruct (m st) as [[a|e] s]. Qed.

Lemma bind_ext_l {A B} (m m' : M A) (k : A → M B) st :
  m st = m' st → (m ≫= k) st = (m' ≫= k) st.
Proof. intros H. by rewrite !bind_unfold, H. Qed.

Lemma forEach_ext {A} (l : list A) (f g : A → M unit) st :
  (∀ a s, f a s = g a s) → forEach l f st = forEach l g st.
Proof.
  intros H. revert st. induction l as [|a l IH]; intros st; [done|].
  cbn [forEach]. rewrite !bind_unfold, H. by destruct (g a st) as [[[]|e] s].
Qed.

Lemma mapM_ext {A B} (l : list A) (f g : A → M B) st :
  (∀ a s, f a s = g a s) → mapM l f st = mapM l g st.
Proof.
  intros H. revert st. induction l as [|a l IH]; intros st; [done|].
  cbn [mapM]. rewrite !bind_unfold, H.
  destruct (g a st) as [[b|e] s]; [|done].
  rewrite !bind_unfold, IH. done.
Qed.

(** With silent listeners the replication is the one given first. *)
Section Silent.
Context (env : Env) (react : Listeners) (emit' : nat * Signal → M unit).
Hypothesis listeners_silent : silent react.

Lemma silent_proxy_inject l s st :
  Reacting.proxy_inject react emit' l s st = proxy_inject l s st.
Proof.
  destruct l as [p| |]; [|done..]. unfold Reacting.proxy_inject.
  rewrite bind_unfold. unfold Reacting.get_trace. cbv beta iota.
  rewrite listeners_silent. by rewrite !bind_unfold.
Qed.

Lemma silent_call_handler h x st :
  Reacting.call_handler env react emit' h x st = call_handler env h x st.
Proof.
  destruct h; try done; simpl.
  - apply silent_proxy_inject.
  - apply bind_ext. intros. apply silent_proxy_inject.
Qed.

Lemma silent_deliver name s st :
  Reacting.deliver env react emit' name s st = deliver env name s st.
Proof.
  unfold Reacting.deliver, deliver. apply bind_ext. intros r s0.
  destruct s; unfold Reacting.call_field, call_field;
    destruct (_ r); try done; apply silent_call_handler.
Qed.

Lemma silent_emit_step ev st :
  Reacting.emit_step env react emit' ev st = emit env ev st.
Proof.
  unfold Reacting.emit_step, emit. apply bind_ext. intros ls s.
  apply forEach_ext. intros. apply silent_deliver.
Qed.

Lemma silent_subscribe_replicator snks name st :
  Reacting.subscribe_replicator env react emit' snks name st =
  subscribe_replicator env snks name st.
Proof.
  unfold Reacting.subscribe_replicator, subscribe_replicator.
  destruct (own_property snks name) as [s|]; [|done].
  unfold Reacting.subscribe, subscribe.
  apply bind_ext. intros r s0. apply bind_ext. intros [] s1.
  apply bind_ext. intros ls s2. apply bind_ext. intros [] s3.
  apply bind_ext. intros [] s4. apply bind_ext_l.
  apply forEach_ext. intros. apply silent_deliver.
Qed.

Lemma silent_flush_and_swap proxies name st :
  Reacting.flush_and_swap env react emit' proxies name st =
  flush_and_swap env proxies name st.
Proof.
  unfold Reacting.flush_and_swap, flush_and_swap. cbv zeta.
  apply bind_ext. intros b s0.
  etrans; [apply bind_ext_l, forEach_ext; intros; apply silent_call_handler|].
  apply bind_ext. intros [] s1. apply bind_ext. intros b1 s2.
  apply bind_ext_l, forEach_ext. intros. apply silent_call_handler.
Qed.

Lemma silent_replicateMany snks proxies st :
  Reacting.replicateMany env react emit' snks proxies st =
  replicateMany env snks proxies st.
Proof.
  unfold Reacting.replicateMany, replicateMany. cbv zeta.
  apply bind_ext. intros [] s0. apply bind_ext. intros [] s1.
  apply bind_ext. intros [] s2.
  etrans; [apply bind_ext_l, mapM_ext; intros;
           apply silent_subscribe_replicator|].
  apply bind_ext. intros subs s3.
  apply bind_ext_l, forEach_ext. intros. apply silent_flush_and_swap.
Qed.

End Silent.

Lemma silent_emit env react fuel ev st :
  silent react →
  Reacting.emit env react (S fuel) ev st = emit env ev st.
Proof. intros H. simpl. by apply silent_emit_step. Qed.

Lemma silent_run env react fuel prog st :
  silent react →
  Reacting.run env react fuel prog st = run env prog st.
Proof.
  intros H. unfold Reacting.run, run. by apply bind_ext_l, silent_replicateMany.
Qed.

(** *** Beside a proxy: what listeners that call back cannot disturb *)

#[local] Instance buffers_grow_preorder : PreOrder buffers_grow.
Proof.
  split.
  - intros bs B n b -> Hb. by exists B, b.
  - intros b1 b2 b3 H12 H23 B n b HB Hb.
    destruct (H12 B n b HB Hb) as (B2 & b' & HB2 & Hb' & Hn & He).
    destruct (H23 B2 n b' HB2 Hb') as (B3 & b'' & HB3 & Hb'' & Hn' & He').
    exists B3, b''. split_and!; [done|done|by etrans|by etrans].
Qed.

#[local] Instance aside_preorder p : PreOrder (aside p).
Proof.
  split.
  - intros st _. by split_and!.
  - intros s1 s2 s3 H12 H23 H.
    destruct (H12 H) as (HR & HL & HB).
    destruct H23 as (HR' & HL' & HB'); [by rewrite HR|].
    split_and!; [congruence|congruence|by etrans].
Qed.

Section Aside.
Context (env : Env) (react : Listeners) (p : nat).
Context (emit' : nat * Signal → M unit).
Hypothesis emit_aside : ∀ ev, Preserves (aside p) (emit' ev).

Lemma aside_append tr st :
  proxy_log p tr = [] → aside p st (append_trace tr st).
Proof.
  intros Htr _. split_and!; [done| |reflexivity].
  simpl. by rewrite proxy_log_app, Htr, app_nil_r.
Qed.

Lemma aside_push_n name x : Preserves (aside p) (push_n name x).
Proof.
  intros st _. unfold push_n, read_buffer, write_buffer, get_buffers.
  rewrite !bind_unfold. cbv beta iota.
  destruct (st_buffers st) as [B|] eqn:HB; simpl; [|by rewrite HB].
  destruct (B !! name) as [b|] eqn:Hb; simpl; rewrite ?HB; [|done].
  rewrite !bind_unfold. simpl. rewrite HB. simpl.
  split_and!; [done..|].
  intros B0 n b0 [= <-] Hb0.
  destruct (decide (n = name)) as [->|Hne].
  - eexists _, _. split; [done|]. rewrite lookup_insert_eq.
    split; [done|]. simpl. rewrite Hb in Hb0. injection Hb0 as <-.
    split; [by apply prefix_app_r | done].
  - exists (<[name:={| buf_n := buf_n b ++ [x]; buf_e := buf_e b |}]> B), b0.
    by rewrite lookup_insert_ne.
Qed.

Lemma aside_push_e name x : Preserves (aside p) (push_e name x).
Proof.
  intros st _. unfold push_e, read_buffer, write_buffer, get_buffers.
  rewrite !bind_unfold. cbv beta iota.
  destruct (st_buffers st) as [B|] eqn:HB; simpl; [|by rewrite HB].
  destruct (B !! name) as [b|] eqn:Hb; simpl; rewrite ?HB; [|done].
  rewrite !bind_unfold. simpl. rewrite HB. simpl.
  split_and!; [done..|].
  intros B0 n b0 [= <-] Hb0.
  destruct (decide (n = name)) as [->|Hne].
  - eexists _, _. split; [done|]. rewrite lookup_insert_eq.
    split; [done|]. simpl. rewrite Hb in Hb0. injection Hb0 as <-.
    split; [done | by apply prefix_app_r].
  - exists (<[name:={| buf_n := buf_n b; buf_e := buf_e b ++ [x] |}]> B), b0.
    by rewrite lookup_insert_ne.
Qed.

Lemma aside_logToConsoleError err :
  Preserves (aside p) (logToConsoleError env err).
Proof.
  intros st. destruct (logToConsoleError_outcome env err st) as [->|[e ->]].
  - apply aside_append, proxy_log_console_fx.
  - reflexivity.
Qed.

Lemma aside_proxy_inject l s :
  l ≠ Own p → Preserves (aside p) (Reacting.proxy_inject react emit' l s).
Proof.
  intros Hl. destruct l as [q| |]; [|apply preserves_throw; exact _..].
  unfold Reacting.proxy_inject.
  apply preserves_bind; [exact _|by intros st|intros tr].
  apply preserves_bind; [exact _| |intros _].
  { intros st. apply aside_append. simpl.
    rewrite bool_decide_eq_false_2; [done|congruence]. }
  apply preserves_bind; [exact _| |intros _].
  { apply preserves_forEach; [exact _|done]. }
  intros st. destruct (snd (react tr q s)); reflexivity.
Qed.

Lemma spares_handler_forward_next l : spares_handler p (HForwardNext l) → l ≠ Own p.
Proof. destruct l; simpl; [|done..]. intros H%bool_decide_unpack. congruence. Qed.

Lemma spares_handler_forward_error l : spares_handler p (HForwardError l) → l ≠ Own p.
Proof. destruct l; simpl; [|done..]. intros H%bool_decide_unpack. congruence. Qed.

Lemma aside_call_handler h x :
  spares_handler p h →
  Preserves (aside p) (Reacting.call_handler env react emit' h x).
Proof.
  intros Hh. destruct h as [n|n| |l|l]; simpl.
  - apply aside_push_n.
  - apply aside_push_e.
  - apply preserves_ret; exact _.
  - by apply aside_proxy_inject, spares_handler_forward_next.
  - apply preserves_bind; [exact _|apply aside_logToConsoleError|intros _].
    by apply aside_proxy_inject, spares_handler_forward_error.
Qed.

Lemma aside_deliver name s :
  Preserves (aside p) (Reacting.deliver env react emit' name s).
Proof.
  intros st. unfold Reacting.deliver, read_replicator, get_replicators.
  rewrite !bind_unfold. cbv beta iota.
  destruct (st_replicators st !! name) as [r|] eqn:Hr; simpl; [|reflexivity].
  intros H. pose proof (H name r Hr) as Hs.
  unfold spares in Hs. apply andb_prop_elim in Hs as [Hs Hc].
  apply andb_prop_elim in Hs as [Hn He].
  destruct s as [x|err|]; unfold Reacting.call_field.
  - destruct (rep__n r) as [h|]; [|by apply (reflexivity (R:=aside p))].
    by apply aside_call_handler.
  - destruct (rep__e r) as [h|]; [|by apply (reflexivity (R:=aside p))].
    by apply aside_call_handler.
  - destruct (rep__c r) as [h|]; [|by apply (reflexivity (R:=aside p))].
    by apply aside_call_handler.
Qed.

Lemma aside_emit_step ev :
  Preserves (aside p) (Reacting.emit_step env react emit' ev).
Proof.
  unfold Reacting.emit_step.
  apply preserves_bind; [exact _|by intros st|intros ls].
  apply preserves_forEach; [exact _|]. intros l. apply aside_deliver.
Qed.

End Aside.

Lemma aside_emit env react p fuel ev :
  Preserves (aside p) (Reacting.emit env react fuel ev).
Proof.
  revert ev. induction fuel as [|fuel IH]; intros ev; simpl.
  - apply preserves_throw. exact _.
  - by apply aside_emit_step.
Qed.

(** *** The flush of one name, with listeners that call back *)

Section Flush.
Context (env : Env) (react : Listeners) (p : nat).
Context (emit' : nat * Signal → M unit).
Hypothesis emit_aside : ∀ ev, Preserves (aside p) (emit' ev).

Lemma feeds_nil st : feeds p [] st st.
Proof. split_and!; [done|by rewrite app_nil_r|reflexivity]. Qed.

Lemma feeds_trans l1 l2 s1 s2 s3 :
  feeds p l1 s1 s2 → feeds p l2 s2 s3 → feeds p (l1 ++ l2) s1 s3.
Proof.
  intros (HR & HL & HB) (HR' & HL' & HB').
  split_and!; [congruence|by rewrite HL', HL, app_assoc|by etrans].
Qed.

Lemma feeds_aside s1 s2 :
  map_Forall (fun _ r => spares p r) (st_replicators s1) →
  aside p s1 s2 → feeds p [] s1 s2.
Proof.
  intros H Ha. destruct (Ha H) as (HR & HL & HB).
  split_and!; [done|by rewrite app_nil_r|done].
Qed.

Lemma feeds_spares l s1 s2 :
  feeds p l s1 s2 →
  map_Forall (fun _ r => spares p r) (st_replicators s1) →
  map_Forall (fun _ r => spares p r) (st_replicators s2).
Proof. intros (-> & _) H. exact H. Qed.

Lemma proxy_inject_own s st :
  map_Forall (fun _ r => spares p r) (st_replicators st) →
  feeds p [s] st (snd (Reacting.proxy_inject react emit' (Own p) s st)).
Proof.
  intros H. unfold Reacting.proxy_inject, Reacting.get_trace, effect.
  rewrite !bind_unfold. cbv beta iota.
  set (s1 := append_trace [EProxy p s] st).
  assert (feeds p [s] st s1) as H1.
  { split_and!; [done| |reflexivity]. simpl.
    by rewrite proxy_log_app; simpl; rewrite bool_decide_eq_true_2. }
  pose proof (preserves_forEach (aside p) (fst (react (st_trace st) p s))
                emit' emit_aside s1) as H2.
  apply feeds_aside in H2; [|by eapply feeds_spares].
  pose proof (feeds_trans _ _ _ _ _ H1 H2) as H3.
  destruct (forEach _ emit' s1) as [[[]|e] s2]; simpl in *; [|done].
  by destruct (snd (react (st_trace st) p s)).
Qed.

Lemma flush_values xs st r st' :
  map_Forall (fun _ r => spares p r) (st_replicators st) →
  forEach xs (Reacting.call_handler env react emit' (HForwardNext (Own p))) st
    = (r, st') →
  ∃ l, l `prefix_of` xs ∧ (r = Ok tt → l = xs) ∧
       feeds p (SNext <$> l) st st'.
Proof.
  revert st. induction xs as [|x xs IH]; intros st Hst.
  - intros [= <- <-]. exists []. split_and!; [done..|apply feeds_nil].
  - cbn [forEach Reacting.call_handler]. rewrite bind_unfold.
    pose proof (proxy_inject_own (SNext x) st Hst) as H1.
    destruct (Reacting.proxy_inject react emit' (Own p) (SNext x) st)
      as [[[]|e] s1]; simpl in H1.
    + intros (l & Hpre & Hok & H2)%IH; [|by eapply feeds_spares].
      exists (x :: l). split_and!.
      * by apply prefix_cons.
      * intros Hr. by rewrite Hok.
      * apply (feeds_trans _ _ _ _ _ H1 H2).
    + intros [= <- <-]. exists [x]. split_and!; [|done..].
      by apply prefix_cons, prefix_nil.
Qed.

Lemma flush_errors es st r st' :
  map_Forall (fun _ r => spares p r) (st_replicators st) →
  forEach es (Reacting.call_handler env react emit' (HForwardError (Own p))) st
    = (r, st') →
  ∃ l, l `prefix_of` es ∧ (r = Ok tt → l = es) ∧
       feeds p (SError <$> l) st st'.
Proof.
  revert st. induction es as [|e es IH]; intros st Hst.
  - intros [= <- <-]. exists []. split_and!; [done..|apply feeds_nil].
  - cbn [forEach Reacting.call_handler]. rewrite !bind_unfold.
    pose proof (aside_logToConsoleError env p e st) as H0.
    apply feeds_aside in H0; [|done].
    destruct (logToConsoleError env e st) as [[[]|x] s0]; simpl in H0.
    + pose proof (proxy_inject_own (SError e) s0
                    (feeds_spares _ _ _ H0 Hst)) as H1.
      pose proof (feeds_trans _ _ _ _ _ H0 H1) as H01.
      destruct (Reacting.proxy_inject react emit' (Own p) (SError e) s0)
        as [[[]|x] s1]; simpl in H1, H01.
      * intros (l & Hpre & Hok & H2)%IH; [|by eapply feeds_spares].
        exists (e :: l). split_and!.
        -- by apply prefix_cons.
        -- intros Hr. by rewrite Hok.
        -- apply (feeds_trans _ _ _ _ _ H01 H2).
      * intros [= <- <-]. exists [e]. split_and!; [|done..].
        by apply prefix_cons, prefix_nil.
    + intros [= <- <-]. exists []. split_and!; [apply prefix_nil|done..].
Qed.

End Flush.

(** ** Theorems about replication *)



(** C1 (as the code has it). Provided the listeners on the proxies stay
    silent (they make no sink emit while a signal is injected, and they
    return): for a name present in both collections, when [run()] and the
    later emissions return, the values the proxy has received are exactly
    the values its sink handed to the replicator during the subscription
    made inside [run()], followed by the values the sink emitted after
    [run()] returned, in arrival order and each once: the buffered values
    are flushed once, the later ones are written directly.  What the sink
    emitted before [run()] subscribed (while [main] ran, for instance) is
    among them only as far as the sink hands it over again on
    subscription. *)
Theorem values_reach_proxy_in_order_once
    env react fuel main drivers w prog st1 d st2 name s p evs st3 :
  silent react →
  NoDup (fst <$> own_entries drivers) →
  NoDup (fst <$> sinks prog) →
  setup env main drivers (initial w) = (Ok prog, st1) →
  Reacting.run env react fuel prog st1 = (Ok d, st2) →
  own_property (sinks prog) name = Some s →
  own_property (run_sinkProxies prog) name = Some p →
  forEach evs (Reacting.emit env react (S fuel)) st2 = (Ok tt, st3) →
  nexts (proxy_log p (st_trace st3)) =
    nexts (sink_sync s) ++ nexts (emitted_by (sink_id s) evs).
Proof.
  intros Hsilent Hreg Hsinks Hsetup Hrun Hs Hp Hevs.
  rewrite silent_run in Hrun by done.
  rewrite (forEach_ext _ _ (emit env)) in Hevs
    by (intros; by apply silent_emit).
  rewrite (session_proxy_log env main drivers w prog st1 d st2
             Hreg Hsinks Hsetup Hrun name s p evs st3 Hs Hp Hevs).
  rewrite !nexts_app, nexts_fmap_SNext, nexts_fmap_SError, nexts_forwarded.
  done.
Qed.

Lemma values_reach_proxy_in_order_once_witness :
  ∃ prog st1 d st2 st3,
    setup example_env example_main example_drivers (initial None)
      = (Ok prog, st1) ∧
    Reacting.run example_env no_listeners 0 prog st1 = (Ok d, st2) ∧
    forEach later (Reacting.emit example_env no_listeners 1) st2
      = (Ok tt, st3) ∧
    nexts (proxy_log 0 (st_trace st3)) = [VNum 1; VNum 2] ++ [VNum 3].
Proof.
  eexists _, _, _, _, _. split; [vm_compute; reflexivity|].
  split; [vm_compute; reflexivity|]. split; [vm_compute; reflexivity|].
  eapply (values_reach_proxy_in_order_once example_env no_listeners 0
            example_main example_drivers None _ _ _ _ "A" sinkA 0 later).
  4: vm_compute; reflexivity.
  4: vm_compute; reflexivity.
  4: vm_compute; reflexivity.
  4: vm_compute; reflexivity.
  4: vm_compute; reflexivity.
  1: done.
  all: apply (bool_decide_unpack _); vm_compute; exact I.
Defined.

(** C1 (as stated) fails: [main] pushes ["x"] into sink [A] while it runs,
    before [run()] is called; the sink hands nothing to a listener that
    subscribes later.  [run()] returns, and proxy [A] has received
    nothing. *)
Lemma value_pushed_during_main_is_lost :
  ∃ prog st1 d st2 mo,
    setup eager_env example_main example_drivers (initial None)
      = (Ok prog, st1) ∧
    env_main eager_env 0 (sources prog) = Ok mo ∧
    sinks prog = mo_sinks mo ∧
    own_property (sinks prog) "A" = Some plain_sink ∧
    own_property (run_sinkProxies prog) "A" = Some 0 ∧
    emitted_by (sink_id plain_sink) (mo_emitted mo) = [SNext (VStr "x")] ∧
    Reacting.run eager_env no_listeners 0 prog st1 = (Ok d, st2) ∧
    proxy_log 0 (st_trace st2) = [].
Proof.
  eexists _, _, _, _, _. split; [vm_compute; reflexivity|].
  split; [vm_compute; reflexivity|].
  repeat (split; [vm_compute; reflexivity|]).
  vm_compute; reflexivity.
Qed.

Section ErrorsHandled.
Context (c : option Console) (p : nat).

Local Abbreviation write := (fun err => console_fx c (diagnostic_target err)).

Lemma errors_handled_app t1 t2 es1 es2 :
  errors_handled write p t1 es1 → errors_handled write p t2 es2 →
  errors_handled write p (t1 ++ t2) (es1 ++ es2).
Proof.
  intros (i1 & -> & H1 & <-) (i2 & -> & H2 & <-). exists (i1 ++ i2).
  rewrite flat_map_app, omap_app. split_and!; [done| |done].
  by apply Forall_app.
Qed.

(** A trace without injection of an error into [p]. *)
Lemma errors_handled_plain t :
  Forall (fun e => plain_item p (inl e)) t →
  errors_handled write p t [] ∧ errors (proxy_log p t) = [].
Proof.
  induction 1 as [|e t He _ [(items & -> & Hitems & Hes) IH]].
  - split; [by exists []|done].
  - split.
    + exists (inl e :: items). split_and!; [done|by constructor|done].
    + change (e :: flat_map (render write p) items)
        with ([e] ++ flat_map (render write p) items).
      rewrite proxy_log_app, errors_app, IH, app_nil_r.
      destruct e as [| | | | | | |q [x|err|]| | |]; try done; simpl in *.
      * by destruct (bool_decide (q = p)).
      * by rewrite bool_decide_eq_false_2.
      * by destruct (bool_decide (q = p)).
Qed.

Lemma errors_handled_quiet t :
  Forall (fun e => plain_item p (inl e)) t →
  errors_handled write p t (errors (proxy_log p t)).
Proof. intros [H ->]%errors_handled_plain. exact H. Qed.

Lemma errors_handled_forward l s :
  errors_handled write p (forward_fx c l s)
    (errors (proxy_log p (forward_fx c l s))).
Proof.
  assert (Forall (fun e => plain_item p (inl e))
            (console_fx c (diagnostic_target (VNum 0))) ∧
          ∀ v, Forall (fun e => plain_item p (inl e)) (console_fx c v))
    as [_ Hconsole].
  { split; [|intros v]; unfold console_fx;
      destruct c as [[[] []]|]; by repeat constructor. }
  assert (l = Own p ∨ l ≠ Own p) as [->|Hl].
  { destruct l as [q| |]; [|by right..].
    destruct (decide (q = p)) as [->|]; [by left|right; congruence]. }
  - destruct s as [x|err|].
    + apply errors_handled_quiet. by repeat constructor.
    + rewrite proxy_log_forward_own. exists [inr err]. simpl.
      rewrite app_nil_r. split_and!; [done| |done]. by repeat constructor.
    + apply errors_handled_quiet. constructor.
  - apply errors_handled_quiet. unfold forward_fx, inject_fx.
    destruct s as [x|err|]; [| |constructor].
    + destruct l as [q| |]; repeat constructor.
    + apply Forall_app. split; [apply Hconsole|].
      destruct l as [q| |]; repeat constructor. simpl. congruence.
Qed.

Lemma errors_handled_flat_map {A} (f : A → list Effect) (l : list A) :
  (∀ a, errors_handled write p (f a) (errors (proxy_log p (f a)))) →
  errors_handled write p (flat_map f l)
    (errors (proxy_log p (flat_map f l))).
Proof.
  intros Hf. induction l as [|a l IH]; simpl; [by exists []|].
  rewrite proxy_log_app, errors_app. by apply errors_handled_app.
Qed.

End ErrorsHandled.

(** C5 (as the code has it). Provided the listeners on the proxies stay
    silent (they make no sink emit while a signal is injected, and they
    return): for a replicated name, when [run()] and the later emissions
    return, the errors the proxy has received are exactly the
    errors its sink handed to the replicator, buffered or not, in order;
    there is one injection for each of these emissions, and each injection
    comes immediately after what [logToConsoleError] wrote for that
    emission: [err.stack || err] through [console.error] when it is defined,
    else through [console.log] when it is defined, else nothing. *)
Theorem sink_errors_reach_console_and_proxy
    env react fuel main drivers w prog st1 d st2 name s p evs st3 :
  silent react →
  NoDup (fst <$> own_entries drivers) →
  NoDup (fst <$> sinks prog) →
  setup env main drivers (initial w) = (Ok prog, st1) →
  Reacting.run env react fuel prog st1 = (Ok d, st2) →
  own_property (sinks prog) name = Some s →
  own_property (run_sinkProxies prog) name = Some p →
  forEach evs (Reacting.emit env react (S fuel)) st2 = (Ok tt, st3) →
  errors (proxy_log p (st_trace st3)) =
    errors (sink_sync s) ++ errors (emitted_by (sink_id s) evs) ∧
  errors_handled
    (fun err => console_fx (env_console env) (diagnostic_target err)) p
    (st_trace st3)
    (errors (sink_sync s) ++ errors (emitted_by (sink_id s) evs)).
Proof.
  intros Hsilent Hreg Hsinks Hsetup Hrun Hs Hp Hevs.
  rewrite silent_run in Hrun by done.
  rewrite (forEach_ext _ _ (emit env)) in Hevs
    by (intros; by apply silent_emit).
  assert (errors (proxy_log p (st_trace st3)) =
            errors (sink_sync s) ++ errors (emitted_by (sink_id s) evs))
    as Herrors.
  { rewrite (session_proxy_log env main drivers w prog st1 d st2
               Hreg Hsinks Hsetup Hrun name s p evs st3 Hs Hp Hevs).
    rewrite !errors_app, errors_fmap_SNext, errors_fmap_SError,
      errors_forwarded. done. }
  split; [done|]. rewrite <- Herrors.
  destruct (session_run env main drivers w prog st1 d st2 Hsinks Hsetup Hrun)
    as (_ & HT & _ & _).
  apply (session_emit env main drivers w prog st1 d st2 Hsinks Hsetup Hrun)
    in Hevs as ->.
  pose proof (quiet_setup env main drivers (initial w)) as Hq.
  rewrite Hsetup in Hq. destruct (Hq eq_refl) as (_ & tr & Htr & Hfx).
  simpl in Htr. simpl. rewrite HT, Htr.
  rewrite !proxy_log_app, !errors_app.
  repeat apply errors_handled_app.
  - apply errors_handled_quiet.
    eapply Forall_impl; [exact Hfx|]. by intros [].
  - apply errors_handled_quiet.
    apply Forall_fmap, Forall_forall. by intros.
  - apply errors_handled_flat_map. intros n. unfold flush_fx.
    rewrite proxy_log_app, errors_app.
    apply errors_handled_app; apply errors_handled_flat_map; intros;
      apply errors_handled_forward.
  - apply errors_handled_flat_map. intros ev. unfold emit_fx.
    apply errors_handled_flat_map. intros. apply errors_handled_forward.
Qed.

Lemma sink_errors_reach_console_and_proxy_witness :
  ∃ prog st1 d st2 st3,
    setup example_env example_main example_drivers (initial None)
      = (Ok prog, st1) ∧
    Reacting.run example_env no_listeners 0 prog st1 = (Ok d, st2) ∧
    forEach later (Reacting.emit example_env no_listeners 1) st2
      = (Ok tt, st3) ∧
    errors (proxy_log 0 (st_trace st3)) =
      errors (sink_sync sinkA) ++ errors (emitted_by (sink_id sinkA) later) ∧
    errors_handled
      (fun err => console_fx (env_console example_env) (diagnostic_target err))
      0 (st_trace st3)
      (errors (sink_sync sinkA) ++ errors (emitted_by (sink_id sinkA) later)).
Proof.
  eexists _, _, _, _, _. split; [vm_compute; reflexivity|].
  split; [vm_compute; reflexivity|]. split; [vm_compute; reflexivity|].
  eapply (sink_errors_reach_console_and_proxy example_env no_listeners 0
            example_main example_drivers None _ _ _ _ "A" sinkA 0 later).
  4: vm_compute; reflexivity.
  4: vm_compute; reflexivity.
  4: vm_compute; reflexivity.
  4: vm_compute; reflexivity.
  4: vm_compute; reflexivity.
  1: done.
  all: apply (bool_decide_unpack _); vm_compute; exact I.
Defined.

(** C5 (as stated) fails: when the console has neither [error] nor [log],
    the error ["boom"] emitted by sink [A] reaches proxy [A] but nothing at
    all is written to the console. *)
Lemma error_without_console_output :
  ∃ prog st1 d st2,
    setup mute_env example_main example_drivers (initial None)
      = (Ok prog, st1) ∧
    run mute_env prog st1 = (Ok d, st2) ∧
    own_property (sinks prog) "A" = Some sinkA ∧
    own_property (run_sinkProxies prog) "A" = Some 0 ∧
    VStr "boom" ∈ errors (sink_sync sinkA) ∧
    errors (proxy_log 0 (st_trace st2)) = [VStr "boom"] ∧
    diagnostics (st_trace st2) = [].
Proof.
  eexists _, _, _, _. split; [vm_compute; reflexivity|].
  split; [vm_compute; reflexivity|]. split; [vm_compute; reflexivity|].
  split; [vm_compute; reflexivity|]. split; [apply list_elem_of_here|].
  split; vm_compute; reflexivity.
Qed.

(** ** Completion and disposal *)

Lemma not_complete_flat_map {A} (f : A → list Signal) (l : list A) :
  (∀ a, SComplete ∉ f a) → SComplete ∉ flat_map f l.
Proof.
  intros Hf. induction l as [|a l IH]; simpl; [apply not_elem_of_nil|].
  rewrite elem_of_app. intros [H|H]; [by apply (Hf a)|done].
Qed.

Lemma not_complete_forward q c l s :
  SComplete ∉ proxy_log q (forward_fx c l s).
Proof.
  assert (l = Own q ∨ l ≠ Own q) as [->|Hne].
  { destruct l as [q'| |]; [|by right..].
    destruct (decide (q' = q)) as [->|]; [by left|right; congruence]. }
  - rewrite proxy_log_forward_own.
    rewrite <- (app_nil_r (forwarded s)).
    apply (not_complete_forwarded [s]).
  - rewrite proxy_log_forward_other by done. apply not_elem_of_nil.
Qed.

Lemma not_complete_flush q c snks proxies n :
  SComplete ∉ proxy_log q (flush_fx c snks proxies n).
Proof.
  unfold flush_fx. rewrite proxy_log_app, !proxy_log_flat_map, elem_of_app.
  intros [H|H]; revert H; apply not_complete_flat_map; intros;
    apply not_complete_forward.
Qed.

Lemma not_complete_emit q c proxies ls ev :
  SComplete ∉ proxy_log q (emit_fx c proxies ls ev).
Proof.
  unfold emit_fx. rewrite proxy_log_flat_map.
  apply not_complete_flat_map. intros. apply not_complete_forward.
Qed.

Lemma proxy_log_teardowns p srcs : proxy_log p (teardowns srcs) = [].
Proof.
  unfold teardowns. rewrite proxy_log_flat_map. apply flat_map_nil.
  intros k _. unfold teardown_of.
  destruct (own_property srcs k) as [[| | | | | |props]|]; try done.
  by destruct (p_value <$> own_property props "dispose") as [[]|].
Qed.

Lemma proxy_log_unsubscriptions p subs :
  proxy_log p (unsubscriptions subs) = [].
Proof. induction subs as [|sub subs IH]; [done|]. exact IH. Qed.

Lemma proxy_log_completions proxies names name p :
  NoDup names →
  NoDup (snd <$> proxies) →
  own_property proxies name = Some p →
  proxy_log p (completions proxies names) =
  if bool_decide (name ∈ names) then [SComplete] else [].
Proof.
  intros Hnd Hids Hp. unfold completions. rewrite proxy_log_flat_map.
  assert (∀ n, n ≠ name →
    proxy_log p (inject_fx (js_get proxies n) SComplete) = []) as Hother.
  { intros n Hne. apply proxy_log_inject_other.
    by apply (other_listener proxies name p). }
  case_bool_decide as Hin.
  - rewrite (flat_map_single
               (fun n => proxy_log p (inject_fx (js_get proxies n) SComplete))
               _ name); [|done..|by intros n _; apply Hother].
    rewrite (js_get_own _ _ _ Hp). apply proxy_log_inject_own.
  - apply flat_map_nil. intros n Hn. apply Hother. by intros ->.
Qed.

(** C2 (as the code has it). Whatever the sinks emit after [run()],
    completion included, no proxy receives a completion signal before
    [dispose()]; when [dispose()] returns, the proxy of every name that also
    has a sink has received exactly one completion signal, as the last
    signal, and the proxy of a driver without a sink of its name has received
    none. *)
Theorem proxies_complete_only_on_dispose
    env main drivers w prog st1 d st2 evs st3 st4 :
  NoDup (fst <$> own_entries drivers) →
  NoDup (fst <$> sinks prog) →
  setup env main drivers (initial w) = (Ok prog, st1) →
  run env prog st1 = (Ok d, st2) →
  forEach evs (emit env) st2 = (Ok tt, st3) →
  dispose env d st3 = (Ok tt, st4) →
  (∀ q, SComplete ∉ proxy_log q (st_trace st3)) ∧
  (∀ name p,
     own_property (run_sinkProxies prog) name = Some p →
     proxy_log p (st_trace st4) =
       proxy_log p (st_trace st3) ++
       (if bool_decide (name ∈ fst <$> sinks prog) then [SComplete] else [])).
Proof.
  intros Hreg Hsinks Hsetup Hrun Hevs Hdis.
  destruct (setup_initial env _ _ _ _ _ Hsetup) as (_ & Hquiet & _).
  destruct (setup_collections _ _ _ _ _ _ Hreg Hsetup) as (Hids & _ & _).
  destruct (session_run env main drivers w prog st1 d st2 Hsinks Hsetup Hrun)
    as (_ & HT & _ & _).
  destruct (session_dispose env main drivers w prog st1 d st2 Hsinks Hsetup
              Hrun evs st3 st4 Hevs Hdis) as (HT4 & _ & _).
  split.
  - apply (session_emit env main drivers w prog st1 d st2 Hsinks Hsetup Hrun)
      in Hevs as ->.
    intros q. simpl. rewrite HT, !proxy_log_app, Hquiet.
    rewrite proxy_log_subscriptions, !proxy_log_flat_map. simpl.
    rewrite elem_of_app. intros [H|H]; revert H;
      apply not_complete_flat_map; intros.
    + apply not_complete_flush.
    + apply not_complete_emit.
  - intros name p Hp. rewrite HT4, !proxy_log_app.
    rewrite proxy_log_teardowns, proxy_log_unsubscriptions. simpl. f_equal.
    rewrite (proxy_log_completions _ _ name p);
      [|by apply sinkNames_of_NoDup|done..].
    rewrite (bool_decide_ext _ (name ∈ fst <$> sinks prog)); [done|].
    rewrite sinkNames_of_spec, (js_get_own _ _ _ Hp). simpl. tauto.
Qed.

Lemma proxies_complete_only_on_dispose_witness :
  ∃ prog st1 d st2 st3 st4,
    setup example_env example_main example_drivers (initial None)
      = (Ok prog, st1) ∧
    run example_env prog st1 = (Ok d, st2) ∧
    forEach later (emit example_env) st2 = (Ok tt, st3) ∧
    dispose example_env d st3 = (Ok tt, st4) ∧
    (∀ q, SComplete ∉ proxy_log q (st_trace st3)) ∧
    (∀ name p,
       own_property (run_sinkProxies prog) name = Some p →
       proxy_log p (st_trace st4) =
         proxy_log p (st_trace st3) ++
         (if bool_decide (name ∈ fst <$> sinks prog)
          then [SComplete] else [])).
Proof.
  eexists _, _, _, _, _, _. split; [vm_compute; reflexivity|].
  split; [vm_compute; reflexivity|]. split; [vm_compute; reflexivity|].
  split; [vm_compute; reflexivity|].
  eapply (proxies_complete_only_on_dispose example_env example_main
            example_drivers None _ _ _ _ later).
  3: vm_compute; reflexivity.
  3: vm_compute; reflexivity.
  3: vm_compute; reflexivity.
  3: vm_compute; reflexivity.
  all: apply (bool_decide_unpack _); vm_compute; exact I.
Defined.

(** C2 (as stated) fails: driver [B] has a proxy but [main] returns no sink
    [B]; [dispose()] runs and returns, and that proxy has received no
    completion signal. *)
Lemma proxy_without_sink_never_completes :
  ∃ prog st1 d st2 st4,
    setup example_env example_main example_drivers (initial None)
      = (Ok prog, st1) ∧
    run example_env prog st1 = (Ok d, st2) ∧
    dispose example_env d st2 = (Ok tt, st4) ∧
    own_property (run_sinkProxies prog) "B" = Some 1 ∧
    proxy_log 1 (st_trace st4) = [].
Proof.
  eexists _, _, _, _, _. split; [vm_compute; reflexivity|].
  split; [vm_compute; reflexivity|]. split; [vm_compute; reflexivity|].
  split; vm_compute; reflexivity.
Qed.



Lemma not_elem_of_effects (e : Effect) (l : list Effect) :
  Forall (fun e' => e' ≠ e) l → e ∉ l.
Proof. intros H Hin. by eapply Forall_forall in H. Qed.


(** ** Sinks without a driver *)

(** A sink whose name is neither a driver nor a member of
    [Object.prototype] is not replicated. *)
Lemma ordinary_unregistered_sink_is_inert snks proxies name :
  name ∉ fst <$> proxies →
  name ∉ Object_prototype →
  name ∉ sinkNames_of snks proxies.
Proof.
  intros Hp Hproto [_ Hget]%sinkNames_of_spec. unfold js_get in Hget.
  apply own_property_None in Hp. rewrite Hp in Hget.
  by rewrite bool_decide_eq_false_2 in Hget.
Qed.

(** C4 fails on the code.  No driver is registered under [constructor], yet
    [sinkProxies["constructor"]] is the truthy [Object] inherited from
    [Object.prototype]: [run()] subscribes to the sink and then throws a
    TypeError when it flushes the buffered value into that "proxy". *)
Theorem inherited_name_is_replicated :
  ∃ prog st1 st2 msg,
    setup constructor_env example_main single_driver (initial None)
      = (Ok prog, st1) ∧
    fst <$> run_sinkProxies prog = ["A"] ∧
    sinkNames_of (sinks prog) (run_sinkProxies prog) = ["constructor"] ∧
    run constructor_env prog st1 = (Throw (TypeError msg), st2) ∧
    ESubscribe 5 "constructor" ∈ st_trace st2.
Proof.
  eexists _, _, _, _. split; [vm_compute; reflexivity|].
  split; [vm_compute; reflexivity|]. split; [vm_compute; reflexivity|].
  split; [vm_compute; reflexivity|].
  vm_compute. do 3 apply list_elem_of_further. apply list_elem_of_here.
Qed.

(** * Further properties of the code *)

(** ** logToConsoleError *)

(** X1. [logToConsoleError(err)] throws a TypeError, with nothing written,
    when [err] is [null] or [undefined] (the read of [err.stack]); for every
    other value it returns after writing [err.stack || err] at most once:
    through [console.error] when that is defined, otherwise through
    [console.log] when that is defined, otherwise not at all. *)
Theorem logToConsoleError_writes_one_line env err st :
  logToConsoleError env err st =
    if nullish err
    then (Throw (TypeError "Cannot read properties of null or undefined"), st)
    else (Ok tt,
          append_trace
            (console_fx (env_console env) (diagnostic_target err)) st).
Proof.
  destruct (nullish err) eqn:Hnull.
  - by destruct err.
  - destruct (logToConsoleError_returns env err st) as [st' H].
    { by destruct err. }
    rewrite H. f_equal. by apply logToConsoleError_Ok in H.
Qed.

(** X2. Once [run()] has returned, a replicated sink that emits [null] or
    [undefined] as an error makes the emission throw a TypeError inside the
    error handler of the replicator, before anything is written to the
    console or injected into a proxy: the emission adds nothing to the
    trace. *)
Theorem nullish_error_stops_the_emission
    env main drivers w prog st1 d st2 name s err :
  NoDup (fst <$> sinks prog) →
  setup env main drivers (initial w) = (Ok prog, st1) →
  run env prog st1 = (Ok d, st2) →
  name ∈ sinkNames_of (sinks prog) (run_sinkProxies prog) →
  own_property (sinks prog) name = Some s →
  nullish err = true →
  fst (emit env (sink_id s, SError err) st2) =
    Throw (TypeError "Cannot read properties of null or undefined") ∧
  st_trace (snd (emit env (sink_id s, SError err) st2)) = st_trace st2.
Proof.
  intros Hsinks Hsetup Hrun Hname Hs Hnull.
  destruct (session_run env main drivers w prog st1 d st2 Hsinks Hsetup Hrun)
    as (_ & _ & HL & HF).
  assert (emit env (sink_id s, SError err) st2 =
            (Throw (TypeError "Cannot read properties of null or undefined"),
             st2)) as ->; [|done].
  unfold emit, get_listeners. rewrite bind_unfold. cbv beta iota.
  destruct (List.filter (fun l => Nat.eqb (fst l) (sink_id s))
              (st_listeners st2)) as [|l ls] eqn:Hfilter.
  { exfalso. assert (In (sink_id s, name) []) as []. rewrite <- Hfilter.
    apply filter_In. split; [|apply Nat.eqb_refl].
    rewrite HL. apply list_elem_of_In, list_elem_of_fmap.
    exists name. split; [|done]. unfold subscription_of, sid_of.
    by rewrite Hs. }
  assert (l ∈ st_listeners st2) as Hl.
  { apply list_elem_of_In. eapply proj1, filter_In. rewrite Hfilter.
    by left. }
  simpl in Hfilter |- *. rewrite Hfilter. cbn [forEach].
  rewrite bind_unfold. unfold deliver, read_replicator, get_replicators.
  rewrite !bind_unfold. cbv beta iota. rewrite (HF l Hl).
  cbn [forwarding rep__e call_field call_handler snd].
  by destruct err.
Qed.

Lemma nullish_error_stops_the_emission_witness :
  ∃ prog st1 d st2,
    setup example_env example_main example_drivers (initial None)
      = (Ok prog, st1) ∧
    run example_env prog st1 = (Ok d, st2) ∧
    fst (emit example_env (sink_id sinkA, SError VNull) st2) =
      Throw (TypeError "Cannot read properties of null or undefined") ∧
    st_trace (snd (emit example_env (sink_id sinkA, SError VNull) st2))
      = st_trace st2.
Proof.
  eexists _, _, _, _. split; [vm_compute; reflexivity|].
  split; [vm_compute; reflexivity|].
  eapply (nullish_error_stops_the_emission example_env example_main
            example_drivers None _ _ _ _ "A" sinkA VNull).
  2: vm_compute; reflexivity.
  2: vm_compute; reflexivity.
  - apply (bool_decide_unpack _). vm_compute. exact I.
  - vm_compute. apply list_elem_of_here.
  - vm_compute. reflexivity.
  - reflexivity.
Defined.

(** ** callDrivers *)

Lemma set_member_state v k x st r st' :
  set_member v k x st = (r, st') → st' = st.
Proof.
  destruct v as [| |b|n|s|f|props]; try by intros [= _ <-].
  simpl. destruct (own_property props k) as [p|]; [|by intros [= _ <-]].
  destruct (p_writable p); by intros [= _ <-].
Qed.

Lemma callDrivers_loop_outcome env drivers proxies names srcs st r st' :
  unshadowed drivers →
  (∀ n, n ∈ names → n ∈ fst <$> drivers) →
  callDrivers_loop env drivers proxies names srcs st = (r, st') →
  ∃ t,
    st' = append_trace t st ∧
    t `prefix_of` flat_map (driver_call drivers proxies) names ∧
    (∀ srcs', r = Ok srcs' →
       t = flat_map (driver_call drivers proxies) names).
Proof.
  intros Hplain.
  revert srcs st. induction names as [|name names IH]; intros srcs st Hin.
  - intros [= <- <-]. exists []. by rewrite append_trace_nil.
  - cbn [callDrivers_loop flat_map].
    assert (name ∈ fst <$> drivers) as Hown by apply Hin, list_elem_of_here.
    rewrite bind_unfold, call_hasOwnProperty_unshadowed by done.
    assert (hasOwnProperty drivers name = true) as ->
      by by apply hasOwnProperty_true.
    apply own_property_is_Some in Hown as [pd Hpd].
    unfold driver_call at 1 3. rewrite Hpd. cbn [from_option fmap option_fmap option_map].
    rewrite bind_unfold.
    assert (∀ t0 s0 (H0 : ∃ t,
              st' = append_trace t s0 ∧
              t `prefix_of` flat_map (driver_call drivers proxies) names ∧
              (∀ srcs', r = Ok srcs' →
                 t = flat_map (driver_call drivers proxies) names)),
             s0 = append_trace t0 st →
             ∃ t, st' = append_trace t st ∧
                  t `prefix_of`
                    t0 ++ flat_map (driver_call drivers proxies) names ∧
                  (∀ srcs', r = Ok srcs' →
                     t = t0 ++ flat_map (driver_call drivers proxies) names))
      as Hcont.
    { intros t0 s0 (t & -> & Hpre & Hok) ->. exists (t0 ++ t).
      rewrite append_trace_app. split_and!; [done|by apply prefix_app|].
      intros srcs' Hr. by rewrite (Hok srcs' Hr). }
    assert (∀ n, n ∈ names → n ∈ fst <$> drivers) as Hin'.
    { intros n Hn. apply Hin. by apply list_elem_of_further. }
    destruct (p_value pd) as [| |b|n|s|g|props];
      try (intros [= <- <-]; exists []; rewrite append_trace_nil;
           split_and!; [done|apply prefix_nil|done]).
    unfold call_driver. rewrite bind_unfold. unfold effect, lift.
    cbv beta iota.
    destruct (env_driver env g (js_get proxies name) name) as [r0|e].
    + destruct (is_object r0).
      * rewrite bind_unfold.
        destruct (set_member r0 "_isCycleSource" (VStr name) _)
          as [[r'|e] s1] eqn:Hset; apply set_member_state in Hset as ->.
        -- intros H. eapply Hcont; [by eapply IH|done].
        -- intros [= <- <-]. eexists. split_and!; [done| |done].
           by apply prefix_app_r.
      * intros H. eapply Hcont; [by eapply IH|done].
    + intros [= <- <-]. eexists. split_and!; [done| |done].
      by apply prefix_app_r.
Qed.



(** ** adaptSources *)

Lemma assign_middle {A} (done : list (string * A)) k a b rest :
  k ∉ fst <$> done →
  assign (done ++ (k, a) :: rest) k b = done ++ (k, b) :: rest.
Proof.
  induction done as [|[k' a'] done IH]; simpl.
  - intros _. by rewrite String.eqb_refl.
  - intros [Hne Hk]%not_elem_of_cons.
    rewrite eqb_decide, bool_decide_eq_false_2 by done. f_equal. by apply IH.
Qed.

Lemma own_property_middle {A} (done : list (string * A)) k a rest :
  k ∉ fst <$> done →
  own_property (done ++ (k, a) :: rest) k = Some a.
Proof.
  induction done as [|[k' a'] done IH]; simpl.
  - intros _. by rewrite own_property_cons, decide_True.
  - intros [Hne Hk]%not_elem_of_cons.
    rewrite own_property_cons, decide_False by done. by apply IH.
Qed.

Lemma adaptSources_loop_outcome env done todo st r st' :
  NoDup (fst <$> done ++ todo) →
  "hasOwnProperty" ∉ fst <$> done ++ todo →
  adaptSources_loop env (fst <$> todo) (done ++ todo) st = (r, st') →
  match r with
  | Ok srcs' =>
      srcs' = done ++ adapted (env_adapt env) todo ∧
      st' = append_trace (adapt_calls todo) st
  | Throw e =>
      ∃ k v, (k, v) ∈ todo ∧ adaptable v = true ∧ env_adapt env v = Throw e
  end.
Proof.
  revert done st. induction todo as [|[k v] todo IH]; intros done st Hnd Hno.
  - simpl. intros [= <- <-]. by rewrite append_trace_nil, app_nil_r.
  - assert (k ∉ fst <$> done) as Hk.
    { rewrite fmap_app in Hnd. apply NoDup_app in Hnd as (_ & Hdis & _).
      intros Hin. apply (Hdis k Hin). simpl. apply list_elem_of_here. }
    assert (∀ v', NoDup (fst <$> (done ++ [(k, v')]) ++ todo) ∧
                  "hasOwnProperty" ∉ fst <$> (done ++ [(k, v')]) ++ todo)
      as Hinv.
    { intros v'. rewrite <- !app_assoc. simpl.
      rewrite !fmap_app in *. simpl in *. done. }
    assert (∀ v' s,
      adaptSources_loop env (fst <$> todo) (done ++ (k, v') :: todo) s
        = (r, st') →
      match r with
      | Ok srcs' =>
          srcs' = done ++ (k, v') :: adapted (env_adapt env) todo ∧
          st' = append_trace (adapt_calls todo) s
      | Throw e =>
          ∃ k0 v0, (k0, v0) ∈ (k, v) :: todo ∧ adaptable v0 = true ∧
                   env_adapt env v0 = Throw e
      end) as Hrest.
    { intros v' s H. destruct (Hinv v') as [H1 H2].
      specialize (IH (done ++ [(k, v')]) s H1 H2).
      rewrite <- !app_assoc in IH. specialize (IH H).
      destruct r as [srcs'|e]; [done|].
      destruct IH as (k0 & v0 & Hin & Ha & He). exists k0, v0.
      split; [by apply list_elem_of_further|done]. }
    assert (adaptable v = false →
            adaptSources_loop env (fst <$> todo) (done ++ (k, v) :: todo) st
              = (r, st') →
            match r with
            | Ok srcs' =>
                srcs' = done ++ adapted (env_adapt env) ((k, v) :: todo) ∧
                st' = append_trace (adapt_calls ((k, v) :: todo)) st
            | Throw e =>
                ∃ k0 v0, (k0, v0) ∈ (k, v) :: todo ∧ adaptable v0 = true ∧
                         env_adapt env v0 = Throw e
            end) as Hskip.
    { intros Hv H%Hrest. destruct r; [|done].
      unfold adapted, adapt_calls, adapt_or_keep in *. simpl.
      by rewrite Hv. }
    cbn [fmap list_fmap fst adaptSources_loop].
    rewrite bind_unfold, call_hasOwnProperty_unshadowed
      by by apply own_property_None.
    unfold hasOwnProperty. rewrite own_property_middle by done.
    rewrite bool_decide_eq_true_2 by eauto.
    cbn [from_option id andb].
    destruct (truthy v) eqn:Htruthy; [|by apply Hskip; destruct v].
    rewrite bind_unfold.
    destruct v as [| |b|n|s|f|props]; try done; try by apply Hskip.
    cbn [get_member]. unfold mret, M_ret. cbv beta iota.
    destruct (is_function
                match own_property props "shamefullySendNext" with
                | Some p => p_value p
                | None => VUndefined
                end) eqn:Hfun.
    + assert (adaptable (VObj props) = true) as Hv.
      { simpl. by destruct (own_property props "shamefullySendNext"). }
      rewrite bind_unfold. unfold effect. cbv beta iota.
      rewrite bind_unfold. unfold lift.
      destruct (env_adapt env (VObj props)) as [a|e] eqn:Hadapt.
      * rewrite assign_middle by done. intros H%Hrest.
        destruct r as [srcs'|e]; [|done].
        destruct H as [-> ->]. unfold adapted, adapt_calls, adapt_or_keep.
        cbn [fmap list_fmap List.filter snd fst]. rewrite Hv, Hadapt.
        by rewrite append_trace_app.
      * intros [= <- <-]. exists k, (VObj props).
        split; [apply list_elem_of_here|done].
    + apply Hskip. simpl.
      by destruct (own_property props "shamefullySendNext").
Qed.

(** X4. On a source collection none of whose keys is [hasOwnProperty] or
    [__proto__], [adaptSources] throws only what a call of [adapt] throws.
    When it returns it has kept the keys of the collection and their order,
    replaced by [adapt(source)] exactly the sources that are truthy and
    whose [shamefullySendNext] is a function, left every other source as it
    is ([null], [undefined] and other non-streams included), and called
    [adapt] once for each replaced source, in enumeration order. *)
Theorem adaptSources_adapts_streams_only env srcs st :
  NoDup (fst <$> srcs) →
  ordinary_keys srcs →
  match adaptSources env srcs st with
  | (Ok srcs', st') =>
      srcs' = adapted (env_adapt env) srcs ∧
      st' = append_trace (adapt_calls srcs) st
  | (Throw e, _) =>
      ∃ k v, (k, v) ∈ srcs ∧ adaptable v = true ∧ env_adapt env v = Throw e
  end.
Proof.
  intros Hnd [Hno _].
  destruct (adaptSources env srcs st) as [r st'] eqn:H.
  unfold adaptSources in H. rewrite for_in_all in H.
  by apply (adaptSources_loop_outcome env []) in H.
Qed.

Lemma adaptSources_adapts_streams_only_witness :
  match adaptSources adapting_env [("A", stream_source); ("B", VNull)]
          (initial None) with
  | (Ok srcs', st') =>
      srcs' = adapted (env_adapt adapting_env)
                [("A", stream_source); ("B", VNull)] ∧
      st' = append_trace (adapt_calls [("A", stream_source); ("B", VNull)])
              (initial None)
  | (Throw e, _) =>
      ∃ k v, (k, v) ∈ [("A", stream_source); ("B", VNull)] ∧
             adaptable v = true ∧ env_adapt adapting_env v = Throw e
  end.
Proof.
  apply (adaptSources_adapts_streams_only adapting_env
           [("A", stream_source); ("B", VNull)] (initial None)).
  - apply (bool_decide_unpack _). vm_compute. exact I.
  - split; apply (bool_decide_unpack _); vm_compute; exact I.
Defined.

(** ** setup *)

Lemma forEach_emit_no_listeners env evs st :
  st_listeners st = [] → forEach evs (emit env) st = (Ok tt, st).
Proof.
  intros HL. induction evs as [|ev evs IH]; [done|].
  cbn [forEach]. by rewrite bind_unfold, emit_no_listeners.
Qed.

Lemma call_main_quiet env main srcs st snks st' :
  st_listeners st = [] →
  call_main env main srcs st = (Ok snks, st') →
  ∃ f, main = VFun f ∧ st' = append_trace [ECallMain f] st.
Proof.
  intros HL. destruct main as [| |b|n|s|f|props]; try done.
  unfold call_main. rewrite bind_unfold. unfold effect, lift.
  cbv beta iota. rewrite bind_unfold.
  destruct (env_main env f srcs) as [mo|e]; [|done].
  rewrite bind_unfold, forEach_emit_no_listeners by done.
  intros [= _ <-]. by exists f.
Qed.



Lemma setup_Ok_window env main drivers st0 prog st :
  setup env main drivers st0 = (Ok prog, st) →
  st_window st = publish (sinks prog) (st_window st0).
Proof.
  intros H. apply setup_Ok_inv in H
    as (props & sA & srcs0 & sB & sC & sD & -> & HA & HB & HC & HD
        & _ & _ & _ & ->).
  apply (preserves_eq grows) in HA as [_ HA];
    [|apply grows_makeSinkProxies_loop].
  apply (preserves_eq grows) in HB as [_ HB];
    [|apply grows_callDrivers_loop].
  apply (preserves_eq grows) in HC as [_ HC];
    [|apply grows_adaptSources_loop].
  apply (preserves_eq grows) in HD as [_ HD]; [|apply grows_call_main].
  by rewrite HD, HC, HB, HA.
Qed.

(** X6. When [setup] throws, whatever the reason (a rejected argument, a
    registry entry that is not a function, a driver or [main] that throws),
    the global [window] is as it was: [window.Cyclejs] is written only
    after [main] has returned. *)
Theorem setup_writes_window_only_on_success env main drivers st0 :
  match setup env main drivers st0 with
  | (Throw _, st) => st_window st = st_window st0
  | (Ok prog, st) => st_window st = publish (sinks prog) (st_window st0)
  end.
Proof.
  destruct (setup env main drivers st0) as [[prog|e] st] eqn:H.
  { by eapply setup_Ok_window. }
  destruct (invalid_arguments_dec main drivers) as [Hinv|Hvalid].
  { apply (setup_invalid env _ _ st0) in Hinv as [msg Hmsg]. congruence. }
  apply (setup_valid env _ _ st0) in Hvalid as (props & -> & Heq).
  rewrite Heq in H. clear Heq. rewrite bind_unfold in H.
  destruct (makeSinkProxies env props st0) as [[sp|?] sA] eqn:HA;
    apply (preserves_eq grows) in HA as [_ HA];
    try apply grows_makeSinkProxies_loop; [|by injection H as _ <-].
  rewrite bind_unfold in H.
  destruct (callDrivers env props sp sA) as [[srcs|?] sB] eqn:HB;
    apply (preserves_eq grows) in HB as [_ HB];
    try apply grows_callDrivers_loop;
    [|injection H as _ <-; by rewrite HB].
  rewrite bind_unfold in H.
  destruct (adaptSources env srcs sB) as [[ad|?] sC] eqn:HC;
    apply (preserves_eq grows) in HC as [_ HC];
    try apply grows_adaptSources_loop;
    [|injection H as _ <-; by rewrite HC, HB].
  rewrite bind_unfold in H.
  destruct (call_main env main ad sC) as [[snks|?] sD] eqn:HD;
    apply (preserves_eq grows) in HD as [_ HD];
    try apply grows_call_main;
    [|injection H as _ <-; by rewrite HD, HC, HB].
  by rewrite !bind_unfold in H.
Qed.

(** X7. [setup] subscribes to nothing and starts nothing: from a state
    without active subscription it ends, whether it returns or throws,
    without active subscription, and all it has done to the outside world
    is to create proxies and to call drivers, [adapt] and [main].  No sink
    is subscribed, nothing is injected into a proxy, nothing is written to
    the console, no source is torn down. *)
Theorem setup_starts_nothing env main drivers st0 :
  st_listeners st0 = [] →
  st_listeners (snd (setup env main drivers st0)) = [] ∧
  ∃ tr,
    st_trace (snd (setup env main drivers st0)) = st_trace st0 ++ tr ∧
    Forall setup_effect tr.
Proof.
  intros HL.
  destruct (quiet_setup env main drivers st0 HL) as (HL' & tr & HT & Hfx).
  split; [exact HL'|]. by exists tr.
Qed.

Lemma setup_starts_nothing_witness :
  st_listeners (snd (setup eager_env example_main example_drivers
                       (initial None))) = [] ∧
  ∃ tr,
    st_trace (snd (setup eager_env example_main example_drivers
                     (initial None))) = [] ++ tr ∧
    Forall setup_effect tr.
Proof.
  apply (setup_starts_nothing eager_env example_main example_drivers
           (initial None)).
  reflexivity.
Defined.

(** ** run() *)

Lemma replicateMany_frees_buffers env snks proxies st d st' :
  replicateMany env snks proxies st = (Ok d, st') → st_buffers st' = None.
Proof.
  unfold replicateMany. cbv zeta.
  intros ([] & s1 & _ & H)%bind_Ok_inv.
  apply bind_Ok_inv in H as ([] & s2 & _ & H).
  apply bind_Ok_inv in H as ([] & s3 & _ & H).
  apply bind_Ok_inv in H as (subs & s4 & _ & H).
  apply bind_Ok_inv in H as ([] & s5 & _ & H).
  rewrite bind_unfold in H. simpl in H. by injection H as _ <-.
Qed.

(** X8. Provided the listeners on the proxies stay silent (they make no
    sink emit while a signal is injected, and they return): when [run()]
    returns it has subscribed to every replicated sink, once and in the
    order of [Object.keys(sinks)], before flushing anything: all the
    subscriptions come first, then the flush of each name in the same
    order, and nothing else.  The subscriptions made are the active ones,
    every one of them now forwards to [sinkProxies[name]], and [buffers] is
    [null]. *)
Theorem run_subscribes_then_flushes env react fuel prog st1 d st2 :
  silent react →
  NoDup (fst <$> sinks prog) →
  Reacting.run env react fuel prog st1 = (Ok d, st2) →
  st_trace st2 =
    st_trace st1 ++
    ((fun n => ESubscribe (sid_of (sinks prog) n) n)
       <$> sinkNames_of (sinks prog) (run_sinkProxies prog)) ++
    flat_map (flush_fx (env_console env) (sinks prog) (run_sinkProxies prog))
             (sinkNames_of (sinks prog) (run_sinkProxies prog)) ∧
  st_listeners st2 =
    st_listeners st1 ++
    (subscription_of (sinks prog)
       <$> sinkNames_of (sinks prog) (run_sinkProxies prog)) ∧
  (∀ n, n ∈ sinkNames_of (sinks prog) (run_sinkProxies prog) →
     st_replicators st2 !! n =
       Some (forwarding (js_get (run_sinkProxies prog) n))) ∧
  st_buffers st2 = None.
Proof.
  intros Hsilent Hnd H. rewrite silent_run in H by done. unfold run in H.
  apply bind_Ok_inv in H as (dr & s & Hrep & Hret).
  injection Hret as _ <-.
  pose proof (replicateMany_frees_buffers _ _ _ _ _ _ Hrep) as HB.
  apply replicateMany_Ok in Hrep as (_ & HT & HLs & HR); [|done].
  done.
Qed.

Lemma run_subscribes_then_flushes_witness :
  ∃ prog st1 d st2,
    setup example_env example_main example_drivers (initial None)
      = (Ok prog, st1) ∧
    Reacting.run example_env no_listeners 0 prog st1 = (Ok d, st2) ∧
    st_trace st2 =
      st_trace st1 ++
      ((fun n => ESubscribe (sid_of (sinks prog) n) n)
         <$> sinkNames_of (sinks prog) (run_sinkProxies prog)) ++
      flat_map (flush_fx (env_console example_env) (sinks prog)
                  (run_sinkProxies prog))
               (sinkNames_of (sinks prog) (run_sinkProxies prog)) ∧
    st_listeners st2 =
      st_listeners st1 ++
      (subscription_of (sinks prog)
         <$> sinkNames_of (sinks prog) (run_sinkProxies prog)) ∧
    (∀ n, n ∈ sinkNames_of (sinks prog) (run_sinkProxies prog) →
       st_replicators st2 !! n =
         Some (forwarding (js_get (run_sinkProxies prog) n))) ∧
    st_buffers st2 = None.
Proof.
  eexists _, _, _, _. split; [vm_compute; reflexivity|].
  split; [vm_compute; reflexivity|].
  eapply (run_subscribes_then_flushes example_env no_listeners 0).
  3: vm_compute; reflexivity.
  1: done.
  apply (bool_decide_unpack _). vm_compute. exact I.
Defined.

Lemma setup_proxy_keys env main drivers st0 prog st name :
  NoDup (fst <$> own_entries drivers) →
  setup env main drivers st0 = (Ok prog, st) →
  name ∈ fst <$> run_sinkProxies prog →
  name ∈ Object_keys (own_entries drivers).
Proof.
  intros Hnd H.
  apply setup_Ok_inv in H as (props & sA & ? & ? & ? & ? & -> & HA & _).
  simpl in *. apply makeSinkProxies_sound in HA as (_ & _ & HA); [|done].
  apply HA.
Qed.

Lemma flush_fx_effects c snks proxies n e :
  e ∈ flush_fx c snks proxies n →
  match e with
  | EProxy _ _ | EConsoleError _ | EConsoleLog _ => True
  | _ => False
  end.
Proof.
  set (P := fun e : Effect =>
              match e with
              | EProxy _ _ | EConsoleError _ | EConsoleLog _ => True
              | _ => False
              end).
  assert (∀ s, Forall P (forward_fx c (js_get proxies n) s)) as Hfwd.
  { intros s. unfold forward_fx, console_fx, inject_fx.
    destruct s as [x|err|]; destruct (js_get proxies n);
      destruct c as [[[] []]|]; by repeat constructor. }
  assert (Forall P (flush_fx c snks proxies n)) as Hall.
  { unfold flush_fx. apply Forall_app.
    split; apply Forall_flat_map, Forall_forall; intros; apply Hfwd. }
  intros He. by eapply Forall_forall in Hall.
Qed.



(** ** dispose() *)

Lemma disposeSources_step_outcome env srcs k st r st' :
  (let v := from_option id VUndefined (own_property srcs k) in
   if hasOwnProperty srcs k && truthy v
   then d ← get_member v "dispose";
        if truthy d then call_teardown env k d else mret tt
   else mret tt) st = (r, st') →
  ∃ t, st' = append_trace t st ∧ t `prefix_of` teardown_of srcs k ∧
       (r = Ok tt → t = teardown_of srcs k).
Proof.
  intros H. destruct r as [[]|e].
  { apply disposeSources_step in H as ->. by eexists. }
  revert H. cbv zeta. unfold teardown_of, hasOwnProperty.
  assert (∀ t0, st' = append_trace t0 st →
            ∃ t, st' = append_trace t st ∧ t `prefix_of` t0 ∧
                 (Throw e = Ok tt → t = t0)) as Hall.
  { intros t0 ->. by exists t0. }
  assert (st' = st →
            ∀ t0, ∃ t, st' = append_trace t st ∧ t `prefix_of` t0 ∧
                       (Throw e = Ok tt → t = t0)) as Hnone.
  { intros -> t0. exists []. rewrite append_trace_nil.
    split_and!; [done|apply prefix_nil|done]. }
  destruct (own_property srcs k) as [v|]; mrun; [|done].
  destruct v as [| |b|n|s|f|props]; mrun; try done.
  - by destruct b.
  - by destruct (negb (n =? 0)%Z).
  - by destruct (negb (String.eqb s "")).
  - destruct (own_property props "dispose") as [[d ? ?]|]; mrun; [|done].
    destruct d as [| |b|n|s|f|props']; mrun; try done;
      try (intros [= _ <-]; by apply Hnone).
    + destruct b; [|done]. intros [= _ <-]. by apply Hnone.
    + destruct (negb (n =? 0)%Z); [|done]. intros [= _ <-]. by apply Hnone.
    + destruct (negb (String.eqb s "")); [|done].
      intros [= _ <-]. by apply Hnone.
    + unfold lift. destruct (env_teardown env f) as [[]|]; [done|].
      intros [= _ <-]. by apply Hall.
Qed.

Lemma disposeSources_outcome env srcs st r st' :
  disposeSources env srcs st = (r, st') →
  ∃ t, st' = append_trace t st ∧ t `prefix_of` teardowns srcs ∧
       (r = Ok tt → t = teardowns srcs).
Proof.
  unfold disposeSources, teardowns. rewrite for_in_all.
  generalize (fst <$> srcs) as ks. intros ks. revert st.
  induction ks as [|k ks IH]; intros st.
  - intros [= <- <-]. exists []. by rewrite append_trace_nil.
  - cbn [forEach flat_map]. rewrite bind_unfold.
    match goal with |- context [let (_, _) := ?m st in _] =>
      destruct (m st) as [[[]|e] s1] eqn:H1 end.
    + apply disposeSources_step in H1 as ->.
      intros (t & -> & Hpre & Hok)%IH. exists (teardown_of srcs k ++ t).
      rewrite append_trace_app. split_and!; [done|by apply prefix_app|].
      intros Hr. by rewrite Hok.
    + apply disposeSources_step_outcome in H1 as (t & -> & Hpre & _).
      intros [= <- <-]. exists t. split_and!; [done| |done].
      by apply prefix_app_r.
Qed.



Lemma unsubscribe_loop_trace subs st :
  ∃ st', forEach subs unsubscribe st = (Ok tt, st') ∧
         st_trace st' = st_trace st ++ unsubscriptions subs.
Proof.
  revert st. induction subs as [|sub subs IH]; intros st.
  - exists st. simpl. by rewrite app_nil_r.
  - cbn [forEach]. rewrite bind_unfold. unfold unsubscribe at 1.
    unfold get_listeners, set_listeners, effect. mrun.
    match goal with |- context [forEach subs unsubscribe ?s] =>
      destruct (IH s) as (st' & -> & HT) end.
    exists st'. split; [done|]. rewrite HT. unfold unsubscriptions. simpl.
    by rewrite <- app_assoc.
Qed.



(** ** After run() *)



(** X14. The proxy of a driver for which [main] returned no sink never
    receives anything: neither [run()] nor any later emission of any sink
    injects a value, an error or a completion into it. *)
Theorem driver_without_sink_receives_nothing
    env main drivers w prog st1 d st2 name p evs st3 :
  NoDup (fst <$> own_entries drivers) →
  NoDup (fst <$> sinks prog) →
  setup env main drivers (initial w) = (Ok prog, st1) →
  run env prog st1 = (Ok d, st2) →
  own_property (run_sinkProxies prog) name = Some p →
  name ∉ fst <$> sinks prog →
  forEach evs (emit env) st2 = (Ok tt, st3) →
  proxy_log p (st_trace st3) = [].
Proof.
  intros Hreg Hsinks Hsetup Hrun Hp Hname Hevs.
  destruct (setup_initial env _ _ _ _ _ Hsetup) as (_ & Hquiet & _).
  destruct (setup_collections _ _ _ _ _ _ Hreg Hsetup) as (Hids & _ & _).
  destruct (session_run env main drivers w prog st1 d st2 Hsinks Hsetup Hrun)
    as (_ & HT & _ & _).
  apply (session_emit env main drivers w prog st1 d st2 Hsinks Hsetup Hrun)
    in Hevs as ->.
  assert (∀ n, n ∈ sinkNames_of (sinks prog) (run_sinkProxies prog) →
               n ≠ name) as Hother.
  { intros n [Hn _]%sinkNames_of_spec ->. done. }
  simpl. rewrite HT, !proxy_log_app, Hquiet, proxy_log_subscriptions.
  rewrite !proxy_log_flat_map. simpl.
  rewrite flat_map_nil, flat_map_nil; [done| |].
  - intros ev _. unfold emit_fx. rewrite proxy_log_flat_map.
    apply flat_map_nil. intros l Hl. apply proxy_log_forward_other.
    apply (other_listener _ name); [done..|].
    apply list_elem_of_In, filter_In in Hl as [Hl _].
    apply list_elem_of_In, list_elem_of_fmap in Hl as (n & -> & Hn).
    by apply Hother.
  - intros n Hn. apply (proxy_log_flush_other _ _ _ name); [done..|].
    by apply Hother.
Qed.

Lemma driver_without_sink_receives_nothing_witness :
  ∃ prog st1 d st2 st3,
    setup example_env example_main example_drivers (initial None)
      = (Ok prog, st1) ∧
    run example_env prog st1 = (Ok d, st2) ∧
    forEach later (emit example_env) st2 = (Ok tt, st3) ∧
    proxy_log 1 (st_trace st3) = [].
Proof.
  eexists _, _, _, _, _. split; [vm_compute; reflexivity|].
  split; [vm_compute; reflexivity|]. split; [vm_compute; reflexivity|].
  eapply (driver_without_sink_receives_nothing example_env example_main
            example_drivers None _ _ _ _ "B" 1 later).
  3: vm_compute; reflexivity.
  3: vm_compute; reflexivity.
  3: vm_compute; reflexivity.
  4: vm_compute; reflexivity.
  all: apply (bool_decide_unpack _); vm_compute; exact I.
Defined.

(** ** The exported run(main, drivers) *)

(** X15. [run(main, drivers)] is [setup] followed by [run()] whenever no
    devtool hook intervenes: when there is no global [window], when
    [window.CyclejsDevTool_startGraphSerializer] is falsy, or when it is a
    function that returns.  It throws what [setup] throws, and otherwise
    does what [run()] does on the program that [setup] returned. *)
Theorem exported_run_is_setup_then_run env dt main drivers st0 :
  st_window st0 = None ∨
  truthy (dt_startGraphSerializer dt) = false ∨
  (∃ f, dt_startGraphSerializer dt = VFun f ∧
        ∀ snks, dt_call dt f snks = Ok tt) →
  Exported.run env dt main drivers st0 =
    match setup env main drivers st0 with
    | (Ok prog, st1) => run env prog st1
    | (Throw e, st1) => (Throw e, st1)
    end.
Proof.
  intros Hhook. unfold Exported.run. rewrite bind_unfold.
  destruct (setup env main drivers st0) as [[prog|e] st1] eqn:Hsetup; [|done].
  apply setup_Ok_window in Hsetup. rewrite bind_unfold.
  unfold get_window. cbv beta iota. rewrite Hsetup.
  destruct Hhook as [Hw|[Hfalsy|(f & Hf & Hcall)]].
  - rewrite Hw. simpl. by rewrite bind_unfold.
  - rewrite Hfalsy, andb_false_r. by rewrite bind_unfold.
  - rewrite Hf. simpl truthy. rewrite bind_unfold.
    destruct (bool_decide _); simpl; [|done].
    unfold lift. by rewrite Hcall.
Qed.

Lemma exported_run_is_setup_then_run_witness :
  Exported.run example_env failing_devtool example_main example_drivers
    (initial None) =
  match setup example_env example_main example_drivers (initial None) with
  | (Ok prog, st1) => run example_env prog st1
  | (Throw e, st1) => (Throw e, st1)
  end.
Proof.
  apply (exported_run_is_setup_then_run example_env failing_devtool
           example_main example_drivers (initial None)).
  left. reflexivity.
Defined.

(** X16. When there is a global [window] and the devtool hook throws,
    [run(main, drivers)] throws the same after [setup] has done all its
    work and before [run()] is called: the drivers and [main] have been
    called and [window.Cyclejs.sinks] holds the sinks, but no sink is
    subscribed. *)
Theorem devtool_failure_leaves_program_unstarted
    env dt main drivers st0 win prog st1 f e :
  st_window st0 = Some win →
  st_listeners st0 = [] →
  setup env main drivers st0 = (Ok prog, st1) →
  dt_startGraphSerializer dt = VFun f →
  dt_call dt f (sinks prog) = Throw e →
  Exported.run env dt main drivers st0 = (Throw e, st1) ∧
  st_listeners st1 = [] ∧
  st_window st1 = publish (sinks prog) (Some win).
Proof.
  intros Hwin HL Hsetup Hf Hcall.
  pose proof (setup_Ok_window _ _ _ _ _ _ Hsetup) as Hw. rewrite Hwin in Hw.
  pose proof (quiet_setup env main drivers st0) as Hq.
  rewrite Hsetup in Hq. destruct (Hq HL) as (HL1 & _).
  split_and!; [|done..].
  unfold Exported.run. rewrite bind_unfold, Hsetup, bind_unfold.
  unfold get_window. cbv beta iota. rewrite Hw, Hf. simpl.
  rewrite bind_unfold. unfold lift. by rewrite Hcall.
Qed.

Lemma devtool_failure_leaves_program_unstarted_witness :
  ∃ prog st1,
    setup example_env example_main example_drivers
      (initial (Some example_window)) = (Ok prog, st1) ∧
    Exported.run example_env failing_devtool example_main example_drivers
      (initial (Some example_window))
      = (Throw (Thrown (VStr "devtool")), st1) ∧
    st_listeners st1 = [] ∧
    st_window st1 = publish (sinks prog) (Some example_window).
Proof.
  eexists _, _. split; [vm_compute; reflexivity|].
  eapply (devtool_failure_leaves_program_unstarted example_env
            failing_devtool example_main example_drivers
            (initial (Some example_window)) example_window _ _ 30).
  all: vm_compute; reflexivity.
Defined.

(** ** Sinks named like a member of Object.prototype *)

(** X17. A sink whose name is a member of [Object.prototype] and not a key
    of the proxy collection is replicated all the same, because
    [sinkProxies[name]] is then the inherited, truthy member: when [run()]
    returns it has subscribed to that sink, and no later call of
    [dispose()] can return, since completing the "proxy" of that name
    throws. *)
Theorem prototype_named_sink_breaks_dispose env prog st1 d st2 name :
  NoDup (fst <$> sinks prog) →
  run env prog st1 = (Ok d, st2) →
  name ∈ fst <$> sinks prog →
  name ∈ Object_prototype →
  name ∉ fst <$> run_sinkProxies prog →
  (sid_of (sinks prog) name, name) ∈ st_listeners st2 ∧
  ∀ st st', dispose env d st ≠ (Ok tt, st').
Proof.
  intros Hnd Hrun Hsink Hproto Hproxy.
  assert (js_get (run_sinkProxies prog) name = Inherited name) as Hget.
  { unfold js_get. apply own_property_None in Hproxy. rewrite Hproxy.
    by rewrite bool_decide_eq_true_2. }
  assert (name ∈ sinkNames_of (sinks prog) (run_sinkProxies prog)) as Hname.
  { apply sinkNames_of_spec. split; [done|]. by rewrite Hget. }
  unfold run in Hrun. apply bind_Ok_inv in Hrun as (dr & s & Hrep & Hret).
  injection Hret as <- <-.
  apply replicateMany_Ok in Hrep as (-> & _ & HL & _); [|done].
  split.
  - rewrite HL. apply elem_of_app. right.
    apply list_elem_of_fmap. by exists name.
  - intros st st'. unfold dispose, disposeReplication. simpl.
    intros ([] & s1 & _ & H)%bind_Ok_inv.
    apply bind_Ok_inv in H as ([] & s2 & _ & H).
    apply complete_loop in H as [_ Hown].
    destruct (Hown name Hname) as [q Hq]. congruence.
Qed.

Lemma prototype_named_sink_breaks_dispose_witness :
  ∃ prog st1 d st2,
    setup toString_env example_main single_driver (initial None)
      = (Ok prog, st1) ∧
    run toString_env prog st1 = (Ok d, st2) ∧
    (sid_of (sinks prog) "toString", "toString") ∈ st_listeners st2 ∧
    ∀ st st', dispose toString_env d st ≠ (Ok tt, st').
Proof.
  eexists _, _, _, _. split; [vm_compute; reflexivity|].
  match goal with |- run _ ?prog ?st1 = _ ∧ _ =>
    split; [vm_compute; reflexivity|];
    eapply (prototype_named_sink_breaks_dispose toString_env prog st1)
  end.
  2: vm_compute; reflexivity.
  all: apply (bool_decide_unpack _); vm_compute; exact I.
Defined.

Lemma flush_and_swap_stray env snks proxies name T N W B R L :
  B !! name = Some (buffered (sync_of snks name)) →
  (∀ p, js_get proxies name ≠ Own p) →
  nexts (sync_of snks name) ++ errors (sync_of snks name) ≠ [] →
  ∃ e st',
    flush_and_swap env proxies name (Build_State T N W (Some B) R L)
      = (Throw e, st').
Proof.
  intros HB Hstray Hne. unfold flush_and_swap. cbv zeta.
  rewrite bind_unfold.
  erewrite read_buffer_spec; [|reflexivity|exact HB].
  rewrite bind_unfold. cbn [buffered buf_n buf_e].
  destruct (nexts (sync_of snks name)) as [|x xs].
  - cbn [forEach]. unfold mret at 1, M_ret at 1. cbv beta iota.
    rewrite bind_unfold.
    erewrite read_buffer_spec; [|reflexivity|exact HB].
    rewrite bind_unfold. cbn [buffered buf_n buf_e].
    destruct (errors (sync_of snks name)) as [|err errs]; [done|].
    cbn [forEach call_handler]. rewrite !bind_unfold.
    destruct (logToConsoleError_outcome env err
                (Build_State T N W (Some B) R L)) as [->|[e ->]];
      [|by eexists _, _].
    destruct (js_get proxies name) as [p| |];
      [by destruct (Hstray p)|by eexists _, _..].
  - cbn [forEach call_handler]. rewrite !bind_unfold.
    destruct (js_get proxies name) as [p| |];
      [by destruct (Hstray p)|by eexists _, _..].
Qed.

Lemma flush_loop_stray env snks proxies names name T N W B R L :
  NoDup names →
  (∀ n, n ∈ names →
     B !! n = Some (buffered (sync_of snks n)) ∧
     R !! n = Some (subscribed n)) →
  name ∈ names →
  (∀ p, js_get proxies name ≠ Own p) →
  nexts (sync_of snks name) ++ errors (sync_of snks name) ≠ [] →
  ∃ e st',
    forEach names (flush_and_swap env proxies)
      (Build_State T N W (Some B) R L) = (Throw e, st').
Proof.
  intros Hnd. revert T R. induction Hnd as [|n names Hn Hnd IH];
    intros T R Hpre Hname Hstray Hne; [by apply elem_of_nil in Hname|].
  destruct (Hpre n) as [HB HR]; [apply list_elem_of_here|].
  cbn [forEach]. rewrite bind_unfold.
  destruct (flush_and_swap env proxies n _) as [[[]|e] s1] eqn:H1;
    [|by eexists _, _].
  apply elem_of_cons in Hname as [->|Hname].
  { destruct (flush_and_swap_stray env snks proxies n T N W B R L)
      as (e & s & He); [done..|]. congruence. }
  apply (flush_and_swap_Ok env snks) in H1 as ->; [|done..].
  apply IH; [|done..].
  intros m Hm. destruct (Hpre m) as [? ?]; [by apply list_elem_of_further|].
  assert (n ≠ m) by (intros ->; contradiction).
  by rewrite lookup_insert_ne.
Qed.

(** X18. A sink whose name is a member of [Object.prototype] and not a key
    of the proxy collection makes [run()] throw as soon as the sink hands
    one value or one error to its listener during subscription: the flush
    calls [_n] or [_e] on the inherited member. *)
Theorem prototype_named_sink_breaks_run env prog st1 name s :
  NoDup (fst <$> sinks prog) →
  own_property (sinks prog) name = Some s →
  name ∈ Object_prototype →
  name ∉ fst <$> run_sinkProxies prog →
  nexts (sink_sync s) ++ errors (sink_sync s) ≠ [] →
  ∃ e st2, run env prog st1 = (Throw e, st2).
Proof.
  intros Hnd Hs Hproto Hproxy Hne.
  assert (js_get (run_sinkProxies prog) name = Inherited name) as Hget.
  { unfold js_get. apply own_property_None in Hproxy. rewrite Hproxy.
    by rewrite bool_decide_eq_true_2. }
  assert (name ∈ sinkNames_of (sinks prog) (run_sinkProxies prog)) as Hname.
  { apply sinkNames_of_spec. split; [|by rewrite Hget].
    apply own_property_is_Some. by eexists. }
  unfold run, replicateMany. cbv zeta.
  set (names := sinkNames_of (sinks prog) (run_sinkProxies prog)) in *.
  assert (NoDup names) as Hnames by by apply sinkNames_of_NoDup.
  destruct st1 as [T N W B0 R0 L].
  rewrite !bind_unfold. cbn [set_buffers]. cbv beta iota.
  rewrite bind_unfold. cbn [set_replicators]. cbv beta iota. simpl.
  destruct (create_replicator_loop names T N W ∅ ∅ L)
    as (B1 & R1 & Hinit & Hlook1).
  rewrite bind_unfold, Hinit.
  destruct (subscribe_loop env (sinks prog) names T N W B1 R1 L Hnames)
    as (B2 & R2 & Hsub & Hlook2).
  { intros n Hn. destruct (Hlook1 n Hn). split; [|done].
    by apply sinkNames_of_spec in Hn as [? _]. }
  rewrite bind_unfold, Hsub.
  destruct (flush_loop_stray env (sinks prog) (run_sinkProxies prog) names
              name
              (T ++ ((fun n => ESubscribe (sid_of (sinks prog) n) n)
                       <$> names))
              N W B2 R2 (L ++ (subscription_of (sinks prog) <$> names)))
    as (e & st' & Hflush); [done..| | |].
  - intros p. by rewrite Hget.
  - unfold sync_of. by rewrite Hs.
  - rewrite bind_unfold, Hflush. by eexists _, _.
Qed.

Lemma prototype_named_sink_breaks_run_witness :
  ∃ prog st1,
    setup constructor_env example_main single_driver (initial None)
      = (Ok prog, st1) ∧
    ∃ e st2, run constructor_env prog st1 = (Throw e, st2).
Proof.
  eexists _, _. split; [vm_compute; reflexivity|].
  eapply (prototype_named_sink_breaks_run constructor_env _ _
            "constructor" constructor_sink).
  2: vm_compute; reflexivity.
  4: vm_compute; discriminate.
  all: apply (bool_decide_unpack _); vm_compute; exact I.
Defined.

(** ** Teardowns that dispose() needs *)

Lemma forEach_Ok_elem {A} (f : A → M unit) (l : list A) st st' x :
  forEach l f st = (Ok tt, st') → x ∈ l → ∃ s s', f x s = (Ok tt, s').
Proof.
  revert st. induction l as [|a l IH]; intros st H Hx;
    [by apply elem_of_nil in Hx|].
  cbn [forEach] in H. apply bind_Ok_inv in H as ([] & s1 & H1 & H).
  apply elem_of_cons in Hx as [->|Hx]; [by eexists _, _|by eapply IH].
Qed.


